(** * RoadGateway: rate limiting, quotas, authentication and metrics

    A shallow embedding of the policy code of the gateway
    (src/middleware/rate-limiter-advanced.ts, src/middleware/rate-limiter.ts,
    src/middleware/auth.ts and the metrics collector) with the properties
    its specification states about it.

    Number model.  JavaScript numbers are IEEE-754 doubles.  Values the
    code only ever produces as integers (timestamps of [Date.now()],
    counters, HTTP status codes) are [Z].  The arithmetic of the
    limiters has three renditions.  Over exact rationals ([Q], with
    [Qfloor] and [Qceiling] for [Math.floor] and [Math.ceil]) it carries
    the properties of what is written to the store and when, of the
    isolation of clients and of whole runs of requests.  [Rounded] is
    the leaky bucket with the result of every operation rounded by a
    rounding function, for what holds of every monotone rounding that
    is exact on the safe integers; the rounding of doubles is one, and
    is given on the rationals as [round64].  [Binary64] is the token
    bucket, the leaky bucket and the adaptive limiter over the kernel's
    binary64 floats, NaN, the infinities and -0 included: what the code
    computes at a given input is evaluated there, and the claims about
    the values of the token bucket and of the adaptive limiter are
    settled there.

    Store model.  The Workers KV namespace is a finite map from key
    strings to the stored value and the [expirationTtl] given at the
    [put].  Expiry itself is the store's business: an expired entry is an
    absent one. *)

From Stdlib Require Import ZArith QArith Qround Qminmax Qpower Lia Lqa.
From Stdlib Require Import List Bool Ascii String.
From Stdlib Require Floats.
From stdpp Require Import gmap strings list fin_maps pretty sorting.

Local Open Scope Z_scope.

(** Decimal literals of the code such as 0.9 denote the nearest double,
    as they do in JavaScript. *)
Set Warnings "-inexact-float".

(** ** Numbers *)

Definition Qltb (x y : Q) : bool := negb (Qle_bool y x).
Definition Qgeb (x y : Q) : bool := Qle_bool y x.
Definition Qgtb (x y : Q) : bool := negb (Qle_bool x y).

Definition Zq (z : Z) : Q := inject_Z z.

(** [x || 0] on an optional number. *)
Definition or0 (x : option Q) : Q :=
  match x with Some q => q | None => 0%Q end.

(** Number.MAX_SAFE_INTEGER and Number.isSafeInteger: among these
    integers every double is exact, and so are their sums, differences
    and products that stay among them. *)
Definition MAX_SAFE_INTEGER : Z := 2 ^ 53 - 1.

Definition safe_integer (z : Z) : Prop :=
  - MAX_SAFE_INTEGER <= z <= MAX_SAFE_INTEGER.

(** ** The KV store *)

(** interface RateLimitState; every field but [lastUpdate] may be missing
    from a stored object, since each limiter serialises only what it uses. *)
Module RateLimitState.
Record t := mk {
  count : option Q;
  tokens : option Q;
  windowStart : option Z;
  lastUpdate : Z;
  history : option (list Z)
}.
End RateLimitState.

(** interface QuotaState *)
Module QuotaState.
Record t := mk {
  daily_count : Z;   daily_date : string;
  monthly_count : Z; monthly_month : string;
  minute_count : Z;  minute_timestamp : Z
}.
End QuotaState.

Inductive kvval :=
| VLimiter (s : RateLimitState.t)   (* JSON of a limiter state *)
| VQuota (q : QuotaState.t)         (* JSON of a quota state *)
| VNumber (q : Q).                  (* String(number) *)

Record entry := mkEntry { value : kvval; expirationTtl : option Z }.

(** interface RateLimitResult *)
Module RateLimitResult.
Record t := mk {
  allowed : bool;
  remaining : Q;
  limit : Q;
  reset : Q;
  retryAfter : option Q
}.
End RateLimitResult.

(** ** Outcomes of an asynchronous call over the store *)

Inductive outcome (A : Type) :=
| Returned (a : A) (kv : gmap string entry)
| TypeError
| OutsideModel.
Arguments Returned {A} a kv.
Arguments TypeError {A}.
Arguments OutsideModel {A}.

Definition M (A : Type) : Type := gmap string entry -> outcome A.

#[global] Instance M_ret : MRet M := fun A (a : A) kv => Returned a kv.

#[global] Instance M_bind : MBind M := fun A B (k : A -> M B) (m : M A) kv =>
  match m kv with
  | Returned a kv' => k a kv'
  | TypeError => TypeError
  | OutsideModel => OutsideModel
  end.

Definition throwTypeError {A} : M A := fun _ => TypeError.
Definition outside {A} : M A := fun _ => OutsideModel.

(** kv.get(key, 'json') as RateLimitState | null *)
Definition kv_get_state (key : string) : M (option RateLimitState.t) :=
  fun kv =>
    match kv !! key with
    | None => Returned None kv
    | Some (mkEntry (VLimiter s) _) => Returned (Some s) kv
    | Some _ => OutsideModel
    end.

(** kv.put(key, value, { expirationTtl }) *)
Definition kv_put (key : string) (v : kvval) (ttl : option Z) : M unit :=
  fun kv => Returned tt (<[key := mkEntry v ttl]> kv).

(** kv.delete(key) *)
Definition kv_delete (key : string) : M unit :=
  fun kv => Returned tt (delete key kv).

(** ** Token bucket *)

Module TokenBucketLimiter.

Record t := mk {
  prefix : string;
  bucketSize : Q;
  refillRate : Q;       (* tokens per second *)
  refillInterval : Q    (* ms *)
}.

Definition new (bucketSize refillRatePerSecond : Q) (prefix : string) : t :=
  {| prefix := prefix;
     bucketSize := bucketSize;
     refillRate := refillRatePerSecond;
     refillInterval := (1000 / refillRatePerSecond)%Q |}.

(** The refill step of [check] on a stored state. *)
Definition refilled (l : t) (now : Z) (st : RateLimitState.t) : Q :=
  let elapsed := now - RateLimitState.lastUpdate st in
  let refill := Qfloor (Zq elapsed / refillInterval l) in
  Qmin (bucketSize l) (or0 (RateLimitState.tokens st) + Zq refill)%Q.

Definition check (l : t) (key : string) (cost : Q) (now : Z)
  : M RateLimitResult.t :=
  let stateKey := (prefix l +:+ key)%string in
  stateData ← kv_get_state stateKey;
  let tokens :=
    match stateData with
    | Some st => refilled l now st
    | None => bucketSize l
    end in
  if Qltb tokens cost then
    let tokensNeeded := (cost - tokens)%Q in
    let refillTime := Qceiling (tokensNeeded * refillInterval l) in
    mret {| RateLimitResult.allowed := false;
            RateLimitResult.remaining := Zq (Qfloor tokens);
            RateLimitResult.limit := bucketSize l;
            RateLimitResult.reset := Zq (now + refillTime);
            RateLimitResult.retryAfter :=
              Some (Zq (Qceiling (Zq refillTime / 1000))) |}
  else
    (* Consume tokens *)
    let tokens := (tokens - cost)%Q in
    _ ← kv_put stateKey
          (VLimiter {| RateLimitState.count := None;
                       RateLimitState.tokens := Some tokens;
                       RateLimitState.windowStart := None;
                       RateLimitState.lastUpdate := now;
                       RateLimitState.history := None |})
          (Some 3600);
    mret {| RateLimitResult.allowed := true;
            RateLimitResult.remaining := Zq (Qfloor tokens);
            RateLimitResult.limit := bucketSize l;
            RateLimitResult.reset := (Zq now + refillInterval l)%Q;
            RateLimitResult.retryAfter := None |}.

End TokenBucketLimiter.

(** ** Sliding window *)

(** Math.min(...xs); [None] stands for the [Infinity] of an empty spread. *)
Definition Math_min (xs : list Z) : option Z :=
  match xs with
  | [] => None
  | x :: xs' => Some (fold_left Z.min xs' x)
  end.

Module SlidingWindowLimiter.

Record t := mk {
  prefix : string;
  limit : Z;
  windowMs : Z
}.

Definition new (limit windowSeconds : Z) (prefix : string) : t :=
  {| prefix := prefix; limit := limit; windowMs := windowSeconds * 1000 |}.

Definition check (l : t) (key : string) (now : Z) : M RateLimitResult.t :=
  let stateKey := (prefix l +:+ key)%string in
  stateData ← kv_get_state stateKey;
  let state :=
    match stateData with
    | Some st => st
    | None => {| RateLimitState.count := Some 0%Q;
                 RateLimitState.tokens := None;
                 RateLimitState.windowStart := Some now;
                 RateLimitState.lastUpdate := now;
                 RateLimitState.history := Some [] |}
    end in
  (* Clean old entries from history *)
  let cutoff := now - windowMs l in
  let hist :=
    filter (fun t => cutoff < t) (default [] (RateLimitState.history state)) in
  let count := Z.of_nat (length hist) in
  if bool_decide (limit l <= count) then
    match Math_min hist with
    | None => outside
    | Some oldestEntry =>
        let retryAfter :=
          Qceiling (Zq (oldestEntry + windowMs l - now) / 1000) in
        mret {| RateLimitResult.allowed := false;
                RateLimitResult.remaining := 0%Q;
                RateLimitResult.limit := Zq (limit l);
                RateLimitResult.reset := Zq (oldestEntry + windowMs l);
                RateLimitResult.retryAfter :=
                  Some (Zq (Z.max 1 retryAfter)) |}
    end
  else
    (* Add current request *)
    let hist' := hist ++ [now] in
    _ ← kv_put stateKey
          (VLimiter {| RateLimitState.count := RateLimitState.count state;
                       RateLimitState.tokens := RateLimitState.tokens state;
                       RateLimitState.windowStart :=
                         RateLimitState.windowStart state;
                       RateLimitState.lastUpdate := now;
                       RateLimitState.history := Some hist' |})
          (Some (Qceiling (Zq (windowMs l) / 1000) + 60));
    mret {| RateLimitResult.allowed := true;
            RateLimitResult.remaining :=
              Zq (limit l - Z.of_nat (length hist'));
            RateLimitResult.limit := Zq (limit l);
            RateLimitResult.reset := Zq (now + windowMs l);
            RateLimitResult.retryAfter := None |}.

End SlidingWindowLimiter.

(** ** Leaky bucket *)

Module LeakyBucketLimiter.

Record t := mk {
  prefix : string;
  bucketSize : Q;
  leakRate : Q     (* requests per second *)
}.

Definition new (bucketSize leakRatePerSecond : Q) (prefix : string) : t :=
  {| prefix := prefix; bucketSize := bucketSize;
     leakRate := leakRatePerSecond |}.

Definition check (l : t) (key : string) (now : Z) : M RateLimitResult.t :=
  let stateKey := (prefix l +:+ key)%string in
  stateData ← kv_get_state stateKey;
  let waterLevel :=
    match stateData with
    | Some st =>
        let elapsed := (Zq (now - RateLimitState.lastUpdate st) / 1000)%Q in
        let leaked := (elapsed * leakRate l)%Q in
        Qmax 0 (or0 (RateLimitState.count st) - leaked)%Q
    | None => 0%Q
    end in
  if Qgeb waterLevel (bucketSize l) then
    let overflowAmount := (waterLevel - bucketSize l + 1)%Q in
    let drainTime := (overflowAmount / leakRate l)%Q in
    mret {| RateLimitResult.allowed := false;
            RateLimitResult.remaining := 0%Q;
            RateLimitResult.limit := bucketSize l;
            RateLimitResult.reset := (Zq now + drainTime * 1000)%Q;
            RateLimitResult.retryAfter := Some (Zq (Qceiling drainTime)) |}
  else
    (* Add to bucket *)
    let waterLevel := (waterLevel + 1)%Q in
    _ ← kv_put stateKey
          (VLimiter {| RateLimitState.count := Some waterLevel;
                       RateLimitState.tokens := None;
                       RateLimitState.windowStart := None;
                       RateLimitState.lastUpdate := now;
                       RateLimitState.history := None |})
          (Some 3600);
    mret {| RateLimitResult.allowed := true;
            RateLimitResult.remaining :=
              Zq (Qfloor (bucketSize l - waterLevel));
            RateLimitResult.limit := bucketSize l;
            RateLimitResult.reset := (Zq now + 1000 / leakRate l)%Q;
            RateLimitResult.retryAfter := None |}.

End LeakyBucketLimiter.

(** ** Composite limiter *)

(** SlidingWindowLimiter | TokenBucketLimiter | LeakyBucketLimiter *)
Inductive Limiter :=
| SW (l : SlidingWindowLimiter.t)
| TB (l : TokenBucketLimiter.t)
| LB (l : LeakyBucketLimiter.t).

(** limiter.check(key): the token bucket takes its default cost of 1. *)
Definition limiter_check (l : Limiter) (key : string) (now : Z)
  : M RateLimitResult.t :=
  match l with
  | SW l => SlidingWindowLimiter.check l key now
  | TB l => TokenBucketLimiter.check l key 1 now
  | LB l => LeakyBucketLimiter.check l key now
  end.

Module CompositeRateLimiter.

Record registered := mkReg {
  name : string;
  limiter : Limiter;
  priority : Z
}.

Record t := mk { limiters : list registered }.

Definition new : t := {| limiters := [] |}.

(** limiters.sort((a, b) => b.priority - a.priority): a stable sort that
    puts higher priorities first. *)
Fixpoint insert_desc (x : registered) (l : list registered)
  : list registered :=
  match l with
  | [] => [x]
  | y :: l' =>
      if bool_decide (priority x <= priority y)
      then y :: insert_desc x l'
      else x :: y :: l'
  end.

Definition sort_desc (l : list registered) : list registered :=
  fold_left (fun acc x => insert_desc x acc) l [].

Definition add (c : t) (name : string) (limiter : Limiter) (priority : Z)
  : t :=
  {| limiters :=
       sort_desc (limiters c ++ [mkReg name limiter priority]) |}.

(** The [for ... of] loop: [Some] is the early return of a denial. *)
Fixpoint probe (ls : list registered) (key : string) (now : Z)
  : M (option (RateLimitResult.t * option string)) :=
  match ls with
  | [] => mret None
  | r :: ls' =>
      result ← limiter_check (limiter r) key now;
      if negb (RateLimitResult.allowed result)
      then mret (Some (result, Some (name r)))
      else probe ls' key now
  end.

Definition check (c : t) (key : string) (now : Z)
  : M (RateLimitResult.t * option string) :=
  denied ← probe (limiters c) key now;
  match denied with
  | Some r => mret r
  | None =>
      (* All passed *)
      match last (limiters c) with
      | None => throwTypeError
      | Some lastLimiter =>
          result ← limiter_check (limiter lastLimiter) key now;
          mret (result, None)
      end
  end.

(** Higher priorities come first. *)
Definition descending : list registered -> Prop :=
  Sorted (fun a b => priority b <= priority a).

End CompositeRateLimiter.

(** ** Factory and response headers *)

(** interface RateLimitConfig of rate-limiter-advanced.ts *)
Module RateLimitConfig.
Inductive strategy :=
| sliding_window | token_bucket | fixed_window | leaky_bucket.

Record t := mk {
  strategy_of : strategy;
  limit : Z;
  window : Z;               (* seconds *)
  burst : option Z;         (* for token bucket *)
  costPerRequest : option Q
}.
End RateLimitConfig.

(** config.burst || config.limit *)
Definition burst_or_limit (config : RateLimitConfig.t) : Z :=
  match RateLimitConfig.burst config with
  | Some b => if Z.eqb b 0 then RateLimitConfig.limit config else b
  | None => RateLimitConfig.limit config
  end.

Definition createRateLimiter (config : RateLimitConfig.t) : Limiter :=
  let limit := RateLimitConfig.limit config in
  let window := RateLimitConfig.window config in
  match RateLimitConfig.strategy_of config with
  | RateLimitConfig.sliding_window =>
      SW (SlidingWindowLimiter.new limit window "rl:sw:")
  | RateLimitConfig.token_bucket =>
      TB (TokenBucketLimiter.new (Zq (burst_or_limit config))
            (Zq limit / Zq window) "rl:tb:")
  | RateLimitConfig.leaky_bucket =>
      LB (LeakyBucketLimiter.new (Zq limit) (Zq limit / Zq window) "rl:lb:")
  | RateLimitConfig.fixed_window =>
      SW (SlidingWindowLimiter.new limit window "rl:sw:")
  end.

(** The header object of [createRateLimitHeaders]; a value [q] stands for
    the text [String(q)].  Retry-After is spread in when [retryAfter] is
    truthy: present and not 0. *)
Definition createRateLimitHeaders (result : RateLimitResult.t)
  : gmap string Q :=
  let headers : gmap string Q :=
    <["X-RateLimit-Reset" :=
        Zq (Qceiling (RateLimitResult.reset result / 1000))]>
      (<["X-RateLimit-Remaining" := RateLimitResult.remaining result]>
         (<["X-RateLimit-Limit" := RateLimitResult.limit result]> ∅)) in
  match RateLimitResult.retryAfter result with
  | Some q => if Qeq_bool q 0 then headers
              else <["Retry-After" := q]> headers
  | None => headers
  end.

(** The KV key under which a limiter keeps the state of a client. *)
Definition state_key (l : Limiter) (key : string) : string :=
  match l with
  | SW l => SlidingWindowLimiter.prefix l +:+ key
  | TB l => TokenBucketLimiter.prefix l +:+ key
  | LB l => LeakyBucketLimiter.prefix l +:+ key
  end.

(** Rates a limiter can work with: a positive refill interval, a positive
    leak rate. *)
Definition positive_rate (l : Limiter) : Prop :=
  match l with
  | SW _ => True
  | TB l => (0 < TokenBucketLimiter.refillInterval l)%Q
  | LB l => (0 < LeakyBucketLimiter.leakRate l)%Q
  end.

(** Successive checks of one client at the given instants, each on the
    store the one before left: the instants of the allowed ones, or
    [None] when a check does not return a result. *)
Fixpoint replay (step : Z -> M RateLimitResult.t) (times : list Z)
  (kv : gmap string entry) : option (list Z) :=
  match times with
  | [] => Some []
  | t :: ts =>
      match step t kv with
      | Returned r kv' =>
          (fun admitted =>
             if RateLimitResult.allowed r then t :: admitted else admitted)
            <$> replay step ts kv'
      | _ => None
      end
  end.

(** How many of the instants [us] lie in the window (t - w, t]. *)
Definition in_window (w t : Z) (us : list Z) : Z :=
  Z.of_nat (length (filter (fun u => t - w < u /\ u <= t) us)).

(** ** The state a limiter keeps for one client *)

(** The history a sliding window holds for a client; nothing stored is
    the empty history. *)
Definition stored_history (l : SlidingWindowLimiter.t) (key : string)
  (kv : gmap string entry) : option (list Z) :=
  match kv !! (SlidingWindowLimiter.prefix l +:+ key) with
  | None => Some []
  | Some (mkEntry (VLimiter st) _) =>
      Some (default [] (RateLimitState.history st))
  | Some _ => None
  end.

(** What a run of sliding-window checks keeps true from one request to
    the next: the stored history agrees with the admitted instants [A] on
    every window that can still be asked about, no window holds more
    than [limit] of them, and of [n] requests at least [min limit n] were
    admitted. *)
Definition run_inv (l : SlidingWindowLimiter.t) (key : string) (A : list Z)
  (kv : gmap string entry) (bound : Z) (n : nat) : Prop :=
  exists H,
    stored_history l key kv = Some H /\
    (forall c, bound - SlidingWindowLimiter.windowMs l <= c ->
       filter (fun u => c < u) H = filter (fun u => c < u) A) /\
    (forall t,
       in_window (SlidingWindowLimiter.windowMs l) t A
       <= SlidingWindowLimiter.limit l) /\
    (length A <= n)%nat /\
    Z.min (SlidingWindowLimiter.limit l) (Z.of_nat n)
      <= Z.of_nat (length A).

(** The bucket a token bucket holds for a client: tokens and time of the
    last update. *)
Definition stored_bucket (l : TokenBucketLimiter.t) (key : string)
  (kv : gmap string entry) : option (option (Q * Z)) :=
  match kv !! (TokenBucketLimiter.prefix l +:+ key) with
  | None => Some None
  | Some (mkEntry (VLimiter st) _) =>
      Some (Some (or0 (RateLimitState.tokens st),
                  RateLimitState.lastUpdate st))
  | Some _ => None
  end.

(** The tokens a request at [now] finds. *)
Definition available (l : TokenBucketLimiter.t) (now : Z)
  (b : option (Q * Z)) : Q :=
  match b with
  | None => TokenBucketLimiter.bucketSize l
  | Some (tk, tl) =>
      Qmin (TokenBucketLimiter.bucketSize l)
        (tk + Zq (Qfloor (Zq (now - tl)
                          / TokenBucketLimiter.refillInterval l)))
  end.


(** What a burst keeps true: after [k] admissions at one instant the
    bucket holds [b - k] tokens. *)
Definition burst_inv (l : TokenBucketLimiter.t) (key : string) (b : Z)
  (now : Z) (k : Z) (kv : gmap string entry) : Prop :=
  exists bkt,
    stored_bucket l key kv = Some bkt /\
    match bkt with
    | None => k = 0
    | Some (tk, tl) => tl = now /\ (tk == Zq (b - k))%Q
    end.

(** The water level a leaky bucket holds for a client and the time it
    was written. *)
Definition stored_level (l : LeakyBucketLimiter.t) (key : string)
  (kv : gmap string entry) : option (option (Q * Z)) :=
  match kv !! (LeakyBucketLimiter.prefix l +:+ key) with
  | None => Some None
  | Some (mkEntry (VLimiter st) _) =>
      Some (Some (or0 (RateLimitState.count st),
                  RateLimitState.lastUpdate st))
  | Some _ => None
  end.

(** The water level a request at [now] finds. *)
Definition level_at (l : LeakyBucketLimiter.t) (now : Z)
  (b : option (Q * Z)) : Q :=
  match b with
  | None => 0
  | Some (lv, tl) =>
      Qmax 0 (lv - Zq (now - tl) / 1000 * LeakyBucketLimiter.leakRate l)
  end.

(** What a run of leaky-bucket checks keeps true: the [a] admitted
    requests do not exceed the stored level plus what has leaked since
    the start [t0], and the stored level is below [bucketSize + 1]. *)
Definition leak_inv (l : LeakyBucketLimiter.t) (key : string) (t0 : Z)
  (a : nat) (kv : gmap string entry) (bound : Z) : Prop :=
  exists b,
    stored_level l key kv = Some b /\
    match b with
    | None => a = 0%nat
    | Some (lv, tl) =>
        tl <= bound /\ t0 <= tl /\
        (lv < LeakyBucketLimiter.bucketSize l + 1)%Q /\
        (Zq (Z.of_nat a)
         <= lv + Zq (tl - t0) / 1000 * LeakyBucketLimiter.leakRate l)%Q
    end.

(** A stored level that is a whole number of requests, written at a
    whole second: what a bucket of a whole size and rate keeps when the
    requests arrive on whole seconds. *)
Definition on_grid (l : LeakyBucketLimiter.t) (key : string)
  (kv : gmap string entry) : Prop :=
  match stored_level l key kv with
  | Some (Some (lv, tl)) =>
      (1000 | tl) /\ exists n : Z, (lv == Zq n)%Q /\ 0 <= n
  | _ => True
  end.

(** The number of requests a limiter of the factory admits at once. *)
Definition capacity (config : RateLimitConfig.t) : Z :=
  match RateLimitConfig.strategy_of config with
  | RateLimitConfig.token_bucket => burst_or_limit config
  | _ => RateLimitConfig.limit config
  end.

(** ** Quota manager *)

(** s.split(sep)[0] *)
Fixpoint split_head (sep : ascii) (s : string) : string :=
  match s with
  | EmptyString => EmptyString
  | String c s' =>
      if Ascii.eqb c sep then EmptyString else String c (split_head sep s')
  end.

(** kv.get(key, 'json') as QuotaState | null *)
Definition kv_get_quota (key : string) : M (option QuotaState.t) :=
  fun kv =>
    match kv !! key with
    | None => Returned None kv
    | Some (mkEntry (VQuota q) _) => Returned (Some q) kv
    | Some _ => OutsideModel
    end.

Module QuotaManager.

Record QuotaConfig := mkConfig {
  daily : Z;
  monthly : Z;
  perMinute : Z
}.

Inductive period := Daily | Monthly | Minute.

Record usage := mkUsage { used : Z; limit : Z }.

Record result := mkResult {
  allowed : bool;
  quotas_daily : usage;
  quotas_monthly : usage;
  quotas_minute : usage;
  exceededQuota : option period
}.

Section Clock.

(** Date.prototype.toISOString of the instant [now] (ms since the
    epoch), a function of the platform. *)
Variable toISOString : Z -> string.

Definition today (now : Z) : string := split_head "T" (toISOString now).
Definition month (now : Z) : string := substring 0 7 (today now).
Definition minuteTs (now : Z) : Z := now / 60000 * 60000.

(** "Reset counters if period changed" *)
Definition rollover (now : Z) (st : QuotaState.t) : QuotaState.t :=
  let st :=
    if bool_decide (QuotaState.daily_date st <> today now)
    then QuotaState.mk 0 (today now)
           (QuotaState.monthly_count st) (QuotaState.monthly_month st)
           (QuotaState.minute_count st) (QuotaState.minute_timestamp st)
    else st in
  let st :=
    if bool_decide (QuotaState.monthly_month st <> month now)
    then QuotaState.mk
           (QuotaState.daily_count st) (QuotaState.daily_date st)
           0 (month now)
           (QuotaState.minute_count st) (QuotaState.minute_timestamp st)
    else st in
  if bool_decide (QuotaState.minute_timestamp st <> minuteTs now)
  then QuotaState.mk
         (QuotaState.daily_count st) (QuotaState.daily_date st)
         (QuotaState.monthly_count st) (QuotaState.monthly_month st)
         0 (minuteTs now)
  else st.

(** "Check limits" *)
Definition exceeded (config : QuotaConfig) (st : QuotaState.t)
  : option period :=
  if bool_decide (perMinute config <= QuotaState.minute_count st)
  then Some Minute
  else if bool_decide (daily config <= QuotaState.daily_count st)
  then Some Daily
  else if bool_decide (monthly config <= QuotaState.monthly_count st)
  then Some Monthly
  else None.

Definition increment (st : QuotaState.t) : QuotaState.t :=
  QuotaState.mk
    (QuotaState.daily_count st + 1) (QuotaState.daily_date st)
    (QuotaState.monthly_count st + 1) (QuotaState.monthly_month st)
    (QuotaState.minute_count st + 1) (QuotaState.minute_timestamp st).

Definition report (config : QuotaConfig) (st : QuotaState.t)
  (ex : option period) : result :=
  {| allowed := bool_decide (ex = None);
     quotas_daily := mkUsage (QuotaState.daily_count st) (daily config);
     quotas_monthly :=
       mkUsage (QuotaState.monthly_count st) (monthly config);
     quotas_minute :=
       mkUsage (QuotaState.minute_count st) (perMinute config);
     exceededQuota := ex |}.

Definition checkAndIncrement (config : QuotaConfig) (userId : string)
  (now : Z) : M result :=
  let stateKey := ("quota:" +:+ userId)%string in
  stateData ← kv_get_quota stateKey;
  let state :=
    match stateData with
    | Some st => st
    | None => QuotaState.mk 0 (today now) 0 (month now) 0 (minuteTs now)
    end in
  let state := rollover now state in
  let exceededQuota := exceeded config state in
  match exceededQuota with
  | None =>
      let state := increment state in
      _ ← kv_put stateKey (VQuota state) (Some (86400 * 32));
      mret (report config state exceededQuota)
  | Some _ => mret (report config state exceededQuota)
  end.

(** The state the limits are checked on: the stored one, or a fresh
    one, after the period rollover. *)
Definition current (now : Z) (stored : option QuotaState.t)
  : QuotaState.t :=
  rollover now
    (default (QuotaState.mk 0 (today now) 0 (month now) 0 (minuteTs now))
       stored).

End Clock.

Definition getUsage (userId : string) : M (option QuotaState.t) :=
  kv_get_quota ("quota:" +:+ userId).

Definition resetQuota (userId : string) : M unit :=
  kv_delete ("quota:" +:+ userId).

End QuotaManager.

(** ** The leaky bucket under rounding *)

(** LeakyBucketLimiter.check with the result of every arithmetic
    operation rounded by [rnd], which is how IEEE-754 defines the
    operations of doubles as long as no result overflows; [Date.now()]
    and the stored [lastUpdate] are integers, [Math.max], [Math.floor]
    and [Math.ceil] do not round.  Round-to-nearest of binary64 is one
    such [rnd]: it is monotone and leaves the safe integers as they
    are. *)
Module Rounded.
Module LeakyBucketLimiter.
Section Rounding.

Variable rnd : Q -> Q.

Definition check (l : LeakyBucketLimiter.t) (key : string) (now : Z)
  : M RateLimitResult.t :=
  let bucketSize := LeakyBucketLimiter.bucketSize l in
  let leakRate := LeakyBucketLimiter.leakRate l in
  let stateKey := (LeakyBucketLimiter.prefix l +:+ key)%string in
  stateData ← kv_get_state stateKey;
  let waterLevel :=
    match stateData with
    | Some st =>
        let elapsed :=
          rnd (rnd (Zq now - Zq (RateLimitState.lastUpdate st)) / 1000)%Q in
        let leaked := rnd (elapsed * leakRate)%Q in
        Qmax 0 (rnd (or0 (RateLimitState.count st) - leaked))%Q
    | None => 0%Q
    end in
  if Qgeb waterLevel bucketSize then
    let overflowAmount := rnd (rnd (waterLevel - bucketSize) + 1)%Q in
    let drainTime := rnd (overflowAmount / leakRate)%Q in
    mret {| RateLimitResult.allowed := false;
            RateLimitResult.remaining := 0%Q;
            RateLimitResult.limit := bucketSize;
            RateLimitResult.reset := rnd (Zq now + rnd (drainTime * 1000))%Q;
            RateLimitResult.retryAfter := Some (Zq (Qceiling drainTime)) |}
  else
    (* Add to bucket *)
    let waterLevel := rnd (waterLevel + 1)%Q in
    _ ← kv_put stateKey
          (VLimiter {| RateLimitState.count := Some waterLevel;
                       RateLimitState.tokens := None;
                       RateLimitState.windowStart := None;
                       RateLimitState.lastUpdate := now;
                       RateLimitState.history := None |})
          (Some 3600);
    mret {| RateLimitResult.allowed := true;
            RateLimitResult.remaining :=
              Zq (Qfloor (rnd (bucketSize - waterLevel)));
            RateLimitResult.limit := bucketSize;
            RateLimitResult.reset := rnd (Zq now + rnd (1000 / leakRate))%Q;
            RateLimitResult.retryAfter := None |}.

End Rounding.
End LeakyBucketLimiter.

(** What the theorems ask of a rounding. *)
Definition monotone (rnd : Q -> Q) : Prop :=
  forall x y : Q, (x <= y)%Q -> (rnd x <= rnd y)%Q.

Definition exact_on_safe_integers (rnd : Q -> Q) : Prop :=
  forall z : Z, safe_integer z -> (rnd (Zq z) == Zq z)%Q.

(** Round-to-nearest of binary64, on the rationals: 53 significant
    bits, a tie going to the even significand, the spacing staying
    2^-1074 below 2^-1022.  There is no overflow here: where the code
    has an infinity this has the finite number. *)

(** The binary exponent of a positive rational: the [k] with
    2^k <= q < 2^(k+1). *)
Definition exponent (q : Q) : Z :=
  let k := Z.log2 (Qnum q) - Z.log2 (Z.pos (Qden q)) in
  if Qle_bool (2 ^ k) q then k else k - 1.

(** The nearest integer, a tie going to the even one. *)
Definition nearest_even (t : Q) : Z :=
  let f := Qfloor t in
  match Qcompare (t - Zq f) (1 # 2) with
  | Lt => f
  | Gt => f + 1
  | Eq => if Z.even f then f else f + 1
  end.

Definition round_pos (q : Q) : Q :=
  let p := 52 - Z.max (exponent q) (-1022) in
  (Zq (nearest_even (q * 2 ^ p)) * 2 ^ (- p))%Q.

Definition round64 (q : Q) : Q :=
  match Qcompare q 0 with
  | Eq => 0%Q
  | Gt => round_pos q
  | Lt => (- round_pos (- q))%Q
  end.

End Rounded.

(** ** The limiters in double precision *)

(** TokenBucketLimiter, LeakyBucketLimiter and AdaptiveRateLimiter of
    rate-limiter-advanced.ts over binary64 floats: [add], [sub], [mul],
    [div], [ltb] and [leb] are the kernel's IEEE-754 operations, that is
    JavaScript's [+], [-], [*], [/], [<] and [<=] on numbers. *)
Module Binary64.

Import PrimFloat FloatOps SpecFloat.

(** Number(z) for an integer: the nearest double, ties to even. *)
Definition of_Z (z : Z) : float :=
  SF2Prim (binary_normalize prec emax z 0 false).

(** The rational a finite double stands for. *)
Definition to_Q (x : float) : Q :=
  match Prim2SF x with
  | S754_finite s m e =>
      ((if s then - Zq (Z.pos m) else Zq (Z.pos m)) * Qpower 2 e)%Q
  | _ => 0%Q
  end.

(** Math.floor and Math.ceil: a NaN, an infinity, a zero and an integer
    are returned as they are. *)
Definition Math_floor (x : float) : float :=
  match Prim2SF x with
  | S754_finite s m e =>
      if Z.leb 0 e then x
      else
        let q := Z.shiftr (Z.pos m) (- e) in
        if Z.eqb (Z.shiftl q (- e)) (Z.pos m) then x
        else if s then of_Z (- (q + 1)) else of_Z q
  | _ => x
  end.

Definition Math_ceil (x : float) : float :=
  match Prim2SF x with
  | S754_finite s m e =>
      if Z.leb 0 e then x
      else
        let q := Z.shiftr (Z.pos m) (- e) in
        if Z.eqb (Z.shiftl q (- e)) (Z.pos m) then x
        else if s then (if Z.eqb q 0 then neg_zero else of_Z (- q))
             else of_Z (q + 1)
  | _ => x
  end.

(** Math.min and Math.max of two numbers: NaN if either is; -0 counts as
    less than +0. *)
Definition Math_min (a b : float) : float :=
  if is_nan a || is_nan b then nan
  else if ltb a b then a
  else if ltb b a then b
  else if is_zero a && get_sign b then b else a.

Definition Math_max (a b : float) : float :=
  if is_nan a || is_nan b then nan
  else if ltb a b then b
  else if ltb b a then a
  else if is_zero a && get_sign a then b else a.

(** [x || 0] on a number that may be missing or null: 0, -0 and NaN are
    falsy. *)
Definition or0 (x : option float) : float :=
  match x with
  | Some f => if is_nan f || is_zero f then zero else f
  | None => zero
  end.

(** A number after JSON.stringify and JSON.parse: NaN and the infinities
    are written as null, -0 as 0, every other double comes back as it
    was. *)
Definition json (x : float) : option float :=
  if is_nan x || is_infinity x then None
  else if is_zero x then Some zero
  else Some x.

(** parseFloat(String(x)): only -0 does not come back, String(-0) being
    the text of 0. *)
Definition parseFloat_String (x : float) : float :=
  if is_zero x then zero else x.

(** What the KV namespace holds for the limiters: the JSON of a state, or
    the text of a number, written here as the number. *)
Module RateLimitState.
Record t := mk {
  count : option float;
  tokens : option float;
  lastUpdate : float
}.
End RateLimitState.

Inductive kvval :=
| VState (s : RateLimitState.t)   (* JSON.stringify of a limiter state *)
| VText (x : float).              (* String(x) *)

Record entry := mkEntry { value : kvval; expirationTtl : option Z }.

Definition store := gmap string entry.

Module RateLimitResult.
Record t := mk {
  allowed : bool;
  remaining : float;
  limit : float;
  reset : float;
  retryAfter : option float
}.
End RateLimitResult.

(** kv.get(key, 'json') as RateLimitState | null; [None] when the key
    holds something that is not a state. *)
Definition kv_get_state (key : string) (kv : store)
  : option (option RateLimitState.t) :=
  match kv !! key with
  | None => Some None
  | Some (mkEntry (VState s) _) => Some (Some s)
  | Some _ => None
  end.

Module TokenBucketLimiter.

Record t := mk {
  prefix : string;
  bucketSize : float;
  refillRate : float;       (* tokens per second *)
  refillInterval : float    (* ms *)
}.

Definition new (bucketSize refillRatePerSecond : float) (prefix : string)
  : t :=
  {| prefix := prefix;
     bucketSize := bucketSize;
     refillRate := refillRatePerSecond;
     refillInterval := div 1000 refillRatePerSecond |}.

(** The tokens a call at [now] finds. *)
Definition refilled (l : t) (now : Z) (stateData : option RateLimitState.t)
  : float :=
  match stateData with
  | Some st =>
      let elapsed := sub (of_Z now) (RateLimitState.lastUpdate st) in
      let refill := Math_floor (div elapsed (refillInterval l)) in
      Math_min (bucketSize l) (add (or0 (RateLimitState.tokens st)) refill)
  | None => bucketSize l
  end.

(** [None] stands for a key that holds no limiter state. *)
Definition check (l : t) (key : string) (cost : float) (now : Z)
  (kv : store) : option (RateLimitResult.t * store) :=
  let stateKey := (prefix l +:+ key)%string in
  match kv_get_state stateKey kv with
  | None => None
  | Some stateData =>
      let tokens := refilled l now stateData in
      if ltb tokens cost then
        let tokensNeeded := sub cost tokens in
        let refillTime := Math_ceil (mul tokensNeeded (refillInterval l)) in
        Some ({| RateLimitResult.allowed := false;
                 RateLimitResult.remaining := Math_floor tokens;
                 RateLimitResult.limit := bucketSize l;
                 RateLimitResult.reset := add (of_Z now) refillTime;
                 RateLimitResult.retryAfter :=
                   Some (Math_ceil (div refillTime 1000)) |},
              kv)
      else
        (* Consume tokens *)
        let tokens := sub tokens cost in
        Some ({| RateLimitResult.allowed := true;
                 RateLimitResult.remaining := Math_floor tokens;
                 RateLimitResult.limit := bucketSize l;
                 RateLimitResult.reset :=
                   add (of_Z now) (refillInterval l);
                 RateLimitResult.retryAfter := None |},
              <[stateKey :=
                  mkEntry
                    (VState {| RateLimitState.count := None;
                               RateLimitState.tokens := json tokens;
                               RateLimitState.lastUpdate := of_Z now |})
                    (Some 3600%Z)]> kv)
  end.

End TokenBucketLimiter.

Module LeakyBucketLimiter.

Record t := mk {
  prefix : string;
  bucketSize : float;
  leakRate : float     (* requests per second *)
}.

Definition new (bucketSize leakRatePerSecond : float) (prefix : string) : t :=
  {| prefix := prefix; bucketSize := bucketSize;
     leakRate := leakRatePerSecond |}.

Definition check (l : t) (key : string) (now : Z) (kv : store)
  : option (RateLimitResult.t * store) :=
  let stateKey := (prefix l +:+ key)%string in
  match kv_get_state stateKey kv with
  | None => None
  | Some stateData =>
      let waterLevel :=
        match stateData with
        | Some st =>
            let elapsed :=
              div (sub (of_Z now) (RateLimitState.lastUpdate st)) 1000 in
            let leaked := mul elapsed (leakRate l) in
            Math_max 0 (sub (or0 (RateLimitState.count st)) leaked)
        | None => zero
        end in
      if leb (bucketSize l) waterLevel then
        let overflowAmount := add (sub waterLevel (bucketSize l)) 1 in
        let drainTime := div overflowAmount (leakRate l) in
        Some ({| RateLimitResult.allowed := false;
                 RateLimitResult.remaining := 0;
                 RateLimitResult.limit := bucketSize l;
                 RateLimitResult.reset :=
                   add (of_Z now) (mul drainTime 1000);
                 RateLimitResult.retryAfter := Some (Math_ceil drainTime) |},
              kv)
      else
        (* Add to bucket *)
        let waterLevel := add waterLevel 1 in
        Some ({| RateLimitResult.allowed := true;
                 RateLimitResult.remaining :=
                   Math_floor (sub (bucketSize l) waterLevel);
                 RateLimitResult.limit := bucketSize l;
                 RateLimitResult.reset :=
                   add (of_Z now) (div 1000 (leakRate l));
                 RateLimitResult.retryAfter := None |},
              <[stateKey :=
                  mkEntry
                    (VState {| RateLimitState.count := json waterLevel;
                               RateLimitState.tokens := None;
                               RateLimitState.lastUpdate := of_Z now |})
                    (Some 3600%Z)]> kv)
  end.

End LeakyBucketLimiter.

Module AdaptiveRateLimiter.

Record t := mk {
  baseLimiter : TokenBucketLimiter.t;
  loadFactor : float;
  minLoadFactor : float;
  maxLoadFactor : float
}.

Definition new (baseLimit baseRatePerSecond : float) : t :=
  {| baseLimiter :=
       TokenBucketLimiter.new baseLimit baseRatePerSecond "rl:adaptive:";
     loadFactor := 1;
     minLoadFactor := 0.2;
     maxLoadFactor := 2 |}.

Definition set_loadFactor (a : t) (f : float) : t :=
  {| baseLimiter := baseLimiter a;
     loadFactor := f;
     minLoadFactor := minLoadFactor a;
     maxLoadFactor := maxLoadFactor a |}.

(** The if-chain of [updateLoadFactor]. *)
Definition factor_for (a : t) (loadPercent : float) : float :=
  if ltb 0.9 loadPercent then minLoadFactor a
  else if ltb 0.7 loadPercent then 0.5
  else if ltb 0.5 loadPercent then 0.75
  else if ltb loadPercent 0.3 then maxLoadFactor a
  else 1.

Definition updateLoadFactor (a : t) (currentLoad maxLoad : float)
  (kv : store) : t * store :=
  (* Calculate load factor (lower factor = stricter limits) *)
  let loadPercent := div currentLoad maxLoad in
  let a := set_loadFactor a (factor_for a loadPercent) in
  (a, <["rl:load-factor"%string := mkEntry (VText (loadFactor a)) None]> kv).

(** kv.get('rl:load-factor'): the stored text, which is truthy when it
    is the text of a number; [None] inside for no entry, [None] outside
    when the key holds a state. *)
Definition kv_get_text (key : string) (kv : store) : option (option float) :=
  match kv !! key with
  | None => Some None
  | Some (mkEntry (VText x) _) => Some (Some x)
  | Some _ => None
  end.

Definition check (a : t) (key : string) (now : Z) (kv : store)
  : option (t * RateLimitResult.t * store) :=
  (* Get current load factor *)
  match kv_get_text "rl:load-factor" kv with
  | None => None
  | Some storedFactor =>
      let a :=
        match storedFactor with
        | Some x => set_loadFactor a (parseFloat_String x)
        | None => a
        end in
      let cost := div 1 (loadFactor a) in
      match TokenBucketLimiter.check (baseLimiter a) key cost now kv with
      | Some (r, kv') => Some (a, r, kv')
      | None => None
      end
  end.

End AdaptiveRateLimiter.

End Binary64.

(** ** HTTP middleware (rate-limiter.ts, auth.ts) *)

(** The bodies sent by the middleware are flat JSON objects. *)
Inductive jvalue :=
| JStr (s : string)
| JNum (z : Z).

Definition json : Type := list (string * jvalue).

(** What a middleware does with the request: hand it to the next handler,
    or answer with [c.json(body, status)]. *)
Inductive handled :=
| Next
| Json (body : json) (status : Z).

Record Request := mkRequest {
  path : string;
  header : string -> option string
}.

(** Truthiness of a [string | undefined]. *)
Definition truthy (o : option string) : bool :=
  match o with
  | Some s => negb (String.eqb s "")
  | None => false
  end.

(** a || b on [string | undefined] *)
Definition or_else (a b : option string) : option string :=
  if truthy a then a else b.

(** *** parseInt(s, 10) *)

Definition is_space (c : ascii) : bool :=
  let n := nat_of_ascii c in
  (Nat.eqb n 32 || (Nat.leb 9 n && Nat.leb n 13))%bool.

Fixpoint skip_spaces (s : string) : string :=
  match s with
  | String c s' => if is_space c then skip_spaces s' else s
  | EmptyString => s
  end.

Definition digit_of (c : ascii) : option Z :=
  let n := nat_of_ascii c in
  if (Nat.leb 48 n && Nat.leb n 57)%bool
  then Some (Z.of_nat n - 48) else None.

(** The longest prefix of decimal digits; [None] when there is none. *)
Fixpoint digits (s : string) (acc : option Z) : option Z :=
  match s with
  | String c s' =>
      match digit_of c with
      | Some d => digits s' (Some (10 * default 0 acc + d))
      | None => acc
      end
  | EmptyString => acc
  end.

(** [None] is NaN.  The digits are read exactly; the code has the
    nearest double, which is the same number for the safe integers. *)
Definition parseInt (s : string) : option Z :=
  match skip_spaces s with
  | String "-" s' => Z.opp <$> digits s' None
  | String "+" s' => digits s' None
  | s' => digits s' None
  end.

(** Number.prototype.toString of an integer or NaN: the decimal digits,
    as the code writes them for integers below 10^21. *)
Definition toString (n : option Z) : string :=
  match n with
  | Some z => pretty z
  | None => "NaN"
  end.

Module RateLimiterMiddleware.

Record RateLimitConfig := mkConfig {
  windowMs : Z;
  max : Z;
  keyPrefix : string
}.

Definition defaultConfig : RateLimitConfig :=
  {| windowMs := 60000; max := 100; keyPrefix := "rl:" |}.

(** The RATE_LIMIT binding: the stored strings with their TTL, and
    whether the store fails the [get] and the [put] of this request. *)
Record KVNamespace := mkKV {
  data : gmap string (string * Z);
  get_throws : bool;
  put_throws : bool
}.

Record context := mkContext {
  res : handled;
  res_headers : gmap string string;
  console : list string;
  store : option (gmap string (string * Z))
}.

(** Math.ceil(ms / 1000) *)
Definition ceil_seconds (ms : Z) : Z := Qceiling (Zq ms / 1000).

(** c.req.header('X-API-Key') || c.req.header('CF-Connecting-IP')
    || 'anonymous' *)
Definition clientId (req : Request) : string :=
  default "anonymous"
    (or_else (header req "X-API-Key")
       (or_else (header req "CF-Connecting-IP") (Some "anonymous"))).

Definition windowStart (config : RateLimitConfig) (now : Z) : Z :=
  now / windowMs config * windowMs config.

Definition windowKey (config : RateLimitConfig) (req : Request) (now : Z)
  : string :=
  let key := (keyPrefix config +:+ clientId req)%string in
  (key +:+ ":" +:+ pretty (windowStart config now))%string.

(** current ? parseInt(current, 10) : 0; [None] is NaN. *)
Definition count_of (current : option string) : option Z :=
  if truthy current then parseInt (default "" current) else Some 0.

(** count >= config.max, false on NaN *)
Definition at_limit (config : RateLimitConfig) (count : option Z) : bool :=
  match count with
  | Some n => bool_decide (max config <= n)
  | None => false
  end.

Definition rateLimiter (RATE_LIMIT : option KVNamespace) (req : Request)
  (now : Z) : context :=
  let config := defaultConfig in
  match RATE_LIMIT with
  | None => mkContext Next ∅ [] None
  | Some kv =>
      let windowStart := windowStart config now in
      let windowKey := windowKey config req now in
      if get_throws kv then
        mkContext Next ∅ ["Rate limit error:"] (Some (data kv))
      else
        let current := fst <$> data kv !! windowKey in
        let count := count_of current in
        if at_limit config count then
          let retry := ceil_seconds (windowStart + windowMs config - now) in
          mkContext
            (Json
               [("error", JStr "Too Many Requests");
                ("message",
                 JStr ("Rate limit exceeded. Try again in "
                       +:+ pretty retry +:+ " seconds"));
                ("retryAfter", JNum retry)] 429)
            (<["X-RateLimit-Reset" :=
                 pretty (windowStart + windowMs config)]>
               (<["X-RateLimit-Remaining" := "0"]>
                  (<["X-RateLimit-Limit" := pretty (max config)]> ∅)))
            [] (Some (data kv))
        else if put_throws kv then
          mkContext Next ∅ ["Rate limit error:"] (Some (data kv))
        else
          mkContext Next
            (<["X-RateLimit-Reset" :=
                 pretty (windowStart + windowMs config)]>
               (<["X-RateLimit-Remaining" :=
                    toString ((fun n => max config - n - 1) <$> count)]>
                  (<["X-RateLimit-Limit" := pretty (max config)]> ∅)))
            []
            (Some (<[windowKey :=
                       (toString ((fun n => n + 1) <$> count),
                        ceil_seconds (windowMs config) + 60)]> (data kv)))
  end.

(** Successive requests of one client through a store that does not
    fail, each on the store the one before left: what was done with each
    request, and the store at the end. *)
Fixpoint serve (data : gmap string (string * Z)) (req : Request)
  (times : list Z) : list handled * gmap string (string * Z) :=
  match times with
  | [] => ([], data)
  | now :: ts =>
      let c := rateLimiter (Some (mkKV data false false)) req now in
      let rest := serve (default data (store c)) req ts in
      (res c :: fst rest, snd rest)
  end.

End RateLimiterMiddleware.

(** s.split(sep) *)
Fixpoint split (sep : ascii) (s : string) : list string :=
  match s with
  | EmptyString => [EmptyString]
  | String c s' =>
      if Ascii.eqb c sep then EmptyString :: split sep s'
      else match split sep s' with
           | w :: ws => String c w :: ws
           | [] => [String c EmptyString]
           end
  end.

(** s.slice(n) *)
Fixpoint slice_from (n : nat) (s : string) : string :=
  match n, s with
  | S n', String _ s' => slice_from n' s'
  | _, _ => s
  end.

Module Auth.

Record Env := mkEnv { API_KEYS : option string }.

Definition unauthorized (message : string) : handled :=
  Json [("error", JStr "Unauthorized"); ("message", JStr message)] 401.

(** (c.env.API_KEYS || '').split(',').filter(Boolean) *)
Definition validKeys (env : Env) : list string :=
  filter (fun k => k <> EmptyString)
    (split "," (default "" (API_KEYS env))).

Definition auth (env : Env) (req : Request) : handled :=
  if String.eqb (path req) "/health" then Next
  else
    let apiKey := header req "X-API-Key" in
    let authHeader := header req "Authorization" in
    if truthy apiKey then
      let keys := validKeys env in
      if (bool_decide (0 < length keys)%nat
          && negb (bool_decide (default "" apiKey ∈ keys)))%bool
      then unauthorized "Invalid API key"
      else Next
    else
      match authHeader with
      | Some h =>
          if String.prefix "Bearer " h then
            let token := slice_from 7 h in
            if negb (String.eqb token "") then Next else Next
          else Next
      | None => Next
      end.

Definition requireAuth (env : Env) (req : Request) : handled :=
  let apiKey := header req "X-API-Key" in
  let authHeader := header req "Authorization" in
  if (negb (truthy apiKey) && negb (truthy authHeader))%bool
  then unauthorized
         "Authentication required. Provide X-API-Key or Authorization header."
  else auth env req.

End Auth.

(** A key that can stand in the comma-separated API_KEYS list. *)
Fixpoint comma_free (s : string) : Prop :=
  match s with
  | EmptyString => True
  | String c s' => c <> ","%char /\ comma_free s'
  end.

(** ** Collections of the metrics reports *)

(** Grouping in insertion order: a JS [Map], or an object whose keys are
    not array indices, filled by a loop. *)
Fixpoint upsert {K V} `{EqDecision K} (k : K) (init : V) (f : V -> V)
  (l : list (K * V)) : list (K * V) :=
  match l with
  | [] => [(k, f init)]
  | (k', v) :: rest =>
      if decide (k' = k) then (k', f v) :: rest
      else (k', v) :: upsert k init f rest
  end.

Definition group_by {K V A} `{EqDecision K} (key : A -> K) (init : V)
  (step : A -> V -> V) (xs : list A) : list (K * V) :=
  fold_left (fun acc x => upsert (key x) init (step x) acc) xs [].

(** The value an entry list holds for a key. *)
Fixpoint assoc {K V} `{EqDecision K} (k : K) (l : list (K * V)) : option V :=
  match l with
  | [] => None
  | (k', v) :: rest => if decide (k' = k) then Some v else assoc k rest
  end.

(** xs.sort(cmp), a stable sort; [before x y] is [cmp(x, y) < 0]. *)
Fixpoint insert_sorted {A} (before : A -> A -> bool) (x : A) (l : list A)
  : list A :=
  match l with
  | [] => [x]
  | y :: l' =>
      if before x y then x :: y :: l' else y :: insert_sorted before x l'
  end.

Definition stable_sort {A} (before : A -> A -> bool) (l : list A) : list A :=
  fold_left (fun acc x => insert_sorted before x acc) l [].

(** xs.slice(0, n): a negative [n] counts from the end. *)
Definition slice_to {A} (n : Z) (xs : list A) : list A :=
  if Z.leb 0 n then take (Z.to_nat n) xs
  else take (length xs - Z.to_nat (- n)) xs.

(** ** Metrics collector *)

Module MetricsCollector.

Record RequestMetric := mkMetric {
  m_path : string;
  method : string;
  statusCode : Z;
  latencyMs : Z;
  timestamp : Z;
  upstream : option string;
  cached : bool
}.

Record requests := mkRequests {
  total : Z; success : Z; errors : Z; n_cached : Z
}.

(** [None] in a latency field is [undefined]. *)
Record latency := mkLatency {
  avg : Q;
  p50 : option Z; p95 : option Z; p99 : option Z;
  min : option Z; max : option Z
}.

Record AggregatedMetrics := mkAggregated {
  agg_requests : requests;
  agg_latency : latency;
  rateLimit_limited : Z
}.

Definition _percentile (sorted : list Z) (p : Z) : option Z :=
  let index :=
    Qceiling ((Zq p / 100) * Zq (Z.of_nat (length sorted))) - 1 in
  sorted !! Z.to_nat (Z.max 0 index).

Definition _emptyMetrics : AggregatedMetrics :=
  mkAggregated (mkRequests 0 0 0 0)
    (mkLatency 0 (Some 0) (Some 0) (Some 0) (Some 0) (Some 0)) 0.

Definition countZ {A} (f : A -> bool) (l : list A) : Z :=
  Z.of_nat (length (List.filter f l)).

Definition relevant (metrics : list RequestMetric) (now windowMinutes : Z)
  : list RequestMetric :=
  let cutoff := now - windowMinutes * 60 * 1000 in
  filter (fun m => cutoff <= timestamp m) metrics.

(** relevant.map(m => m.latencyMs).sort((a, b) => a - b) *)
Definition latencies (rel : list RequestMetric) : list Z :=
  merge_sort Z.le (latencyMs <$> rel).

Definition getAggregated (metrics : list RequestMetric)
  (now windowMinutes : Z) : AggregatedMetrics :=
  let rel := relevant metrics now windowMinutes in
  if bool_decide (length rel = 0%nat) then _emptyMetrics
  else
    let lat := latencies rel in
    let ok m :=
      (Z.leb 200 (statusCode m) && Z.ltb (statusCode m) 400)%bool in
    {| agg_requests :=
         {| total := Z.of_nat (length rel);
            success := countZ ok rel;
            errors := countZ (fun m => negb (ok m)) rel;
            n_cached := countZ cached rel |};
       agg_latency :=
         {| avg := (Zq (fold_left Z.add lat 0%Z)
                    / Zq (Z.of_nat (length lat)))%Q;
            p50 := _percentile lat 50;
            p95 := _percentile lat 95;
            p99 := _percentile lat 99;
            min := lat !! 0%nat;
            max := lat !! (length lat - 1)%nat |};
       rateLimit_limited :=
         countZ (fun m => Z.eqb (statusCode m) 429) rel |}.

(** interface HealthCheckResult *)
Module HealthCheckResult.
Record t := mk {
  upstream : string;
  healthy : bool;
  latencyMs : Z;
  lastCheck : Z;
  consecutiveFailures : Z;
  error : option string
}.
End HealthCheckResult.

(** The collector object. *)
Record t := mk {
  metrics : list RequestMetric;
  maxMetrics : Z;
  healthChecks : gmap string HealthCheckResult.t
}.

Definition new (maxMetrics : Z) : t := mk [] maxMetrics ∅.

(** xs.slice(-n): the last [n] elements for a positive [n]; all of [xs]
    for [n = 0], since -0 is the start index 0; for a negative [n] the
    start index is -n. *)
Definition slice_last {A} (n : Z) (xs : list A) : list A :=
  if Z.eqb n 0 then xs
  else if Z.ltb 0 n then drop (length xs - Z.to_nat n) xs
  else drop (Z.to_nat (- n)) xs.

Definition record (c : t) (metric : RequestMetric) : t :=
  let pushed := metrics c ++ [metric] in
  (* Trim old metrics *)
  if bool_decide (maxMetrics c < Z.of_nat (length pushed))
  then mk (slice_last (maxMetrics c) pushed) (maxMetrics c) (healthChecks c)
  else mk pushed (maxMetrics c) (healthChecks c).

(** clear() *)
Definition clear (c : t) : t := mk [] (maxMetrics c) (healthChecks c).

(** What the [fetch] of a health check came to: a response, [ok] or
    not, or an exception (network error, abort on timeout). *)
Inductive fetched :=
| Response (ok : bool)
| Failed (message : string).

(** (existing?.consecutiveFailures || 0) + 1 *)
Definition next_failures (existing : option HealthCheckResult.t) : Z :=
  from_option HealthCheckResult.consecutiveFailures 0 existing + 1.

(** [startTime], [ended] and [checked] are the three readings of the
    clock. *)
Definition checkUpstream (c : t) (upstream : string) (outcome : fetched)
  (startTime ended checked : Z) : t * HealthCheckResult.t :=
  let existing := healthChecks c !! upstream in
  let result :=
    match outcome with
    | Response ok =>
        HealthCheckResult.mk upstream ok (ended - startTime) checked
          (if ok then 0 else next_failures existing) None
    | Failed message =>
        HealthCheckResult.mk upstream false (ended - startTime) checked
          (next_failures existing) (Some message)
    end in
  (mk (metrics c) (maxMetrics c) (<[upstream := result]> (healthChecks c)),
   result).

(** One health check: what its [fetch] came to and its three readings
    of the clock. *)
Record probe := mkProbe {
  pr_outcome : fetched;
  pr_started : Z;
  pr_ended : Z;
  pr_checked : Z
}.

(** Successive health checks of one upstream. *)
Definition probes (c : t) (upstream : string) (checks : list probe) : t :=
  fold_left
    (fun c p =>
       fst (checkUpstream c upstream (pr_outcome p) (pr_started p)
              (pr_ended p) (pr_checked p)))
    checks c.

(** The failures since the last [ok] response. *)
Fixpoint trailing_failures (outcomes : list fetched) (before : Z) : Z :=
  match outcomes with
  | [] => before
  | Response true :: os => trailing_failures os 0
  | _ :: os => trailing_failures os (before + 1)
  end.

(** getTimeSeries(windowMinutes, bucketMinutes) *)
Record point := mkPoint {
  pt_timestamp : Z;
  pt_requests : Z;
  pt_errors : Z;
  pt_avgLatency : Q
}.

(** Math.floor(m.timestamp / bucketMs) * bucketMs *)
Definition bucketTime (bucketMs : Z) (m : RequestMetric) : Z :=
  timestamp m / bucketMs * bucketMs.

(** The [Map] of buckets after the grouping loop, in insertion order. *)
Definition buckets (metrics : list RequestMetric) (cutoff bucketMs : Z)
  : list (Z * list RequestMetric) :=
  fold_left
    (fun acc m =>
       if Z.ltb (timestamp m) cutoff then acc
       else upsert (bucketTime bucketMs m) [] (fun ms => ms ++ [m]) acc)
    metrics [].

Definition to_point (b : Z * list RequestMetric) : point :=
  {| pt_timestamp := fst b;
     pt_requests := Z.of_nat (length (snd b));
     pt_errors := countZ (fun m => Z.leb 400 (statusCode m)) (snd b);
     pt_avgLatency :=
       (Zq (fold_left (fun sum m => sum + latencyMs m)%Z (snd b) 0%Z)
        / Zq (Z.of_nat (length (snd b))))%Q |}.

(** [bucketMinutes] is a whole number of minutes. *)
Definition getTimeSeries (metrics : list RequestMetric)
  (now windowMinutes bucketMinutes : Z) : list point :=
  let cutoff := now - windowMinutes * 60 * 1000 in
  let bucketMs := bucketMinutes * 60 * 1000 in
  stable_sort (fun a b => Z.ltb (pt_timestamp a) (pt_timestamp b))
    (to_point <$> buckets metrics cutoff bucketMs).

(** getTopPaths, getSlowEndpoints *)
Record path_data := mkPathData {
  pd_count : Z;
  pd_totalLatency : Z;
  pd_errors : Z
}.

(** A URL pathname, which is what [fromRequest] records as the path of
    a request: it starts with a slash. *)
Definition is_pathname (p : string) : bool :=
  match p with
  | String "/" _ => true
  | _ => false
  end.

(** The [byPath] object after the loop of [getAggregated], as the list
    of its entries in insertion order.  This is the object's content
    for paths that are pathnames: none of them is an array index, which
    [Object.entries] would list first, or names a property of
    [Object.prototype], which the loop would find in place of a missing
    entry.  The theorems about the reports assume such paths. *)
Definition byPath_loop (rel : list RequestMetric)
  : list (string * path_data) :=
  group_by m_path (mkPathData 0 0 0)
    (fun m d =>
       {| pd_count := pd_count d + 1;
          pd_totalLatency := pd_totalLatency d + latencyMs m;
          pd_errors := if Z.leb 400 (statusCode m) then pd_errors d + 1
                       else pd_errors d |})
    rel.

Record path_stats := mkPathStats {
  ps_count : Z;
  ps_avgLatency : Q;
  ps_errors : Z
}.

Definition stats_of (e : string * path_data) : string * path_stats :=
  (fst e,
   {| ps_count := pd_count (snd e);
      ps_avgLatency := (Zq (pd_totalLatency (snd e)) / Zq (pd_count (snd e)))%Q;
      ps_errors := pd_errors (snd e) |}).

(** Object.entries(this.getAggregated(windowMinutes).byPath) *)
Definition byPath (metrics : list RequestMetric) (now windowMinutes : Z)
  : list (string * path_stats) :=
  stats_of <$> byPath_loop (relevant metrics now windowMinutes).

Record top_path := mkTop {
  tp_path : string;
  tp_count : Z;
  tp_avgLatency : Q;
  tp_errorRate : Q
}.

Definition top_of (e : string * path_stats) : top_path :=
  {| tp_path := fst e;
     tp_count := ps_count (snd e);
     tp_avgLatency := ps_avgLatency (snd e);
     tp_errorRate := (Zq (ps_errors (snd e)) / Zq (ps_count (snd e)))%Q |}.

Definition getTopPaths (metrics : list RequestMetric) (now : Z)
  (limit windowMinutes : Z) : list top_path :=
  slice_to limit
    (stable_sort (fun a b => Z.ltb (tp_count b) (tp_count a))
       (top_of <$> byPath metrics now windowMinutes)).

Record slow_endpoint := mkSlow {
  se_path : string;
  se_avgLatency : Q;
  se_count : Z
}.

Definition slow_of (e : string * path_stats) : slow_endpoint :=
  {| se_path := fst e;
     se_avgLatency := ps_avgLatency (snd e);
     se_count := ps_count (snd e) |}.

Definition getSlowEndpoints (metrics : list RequestMetric) (now : Z)
  (thresholdMs : Q) (windowMinutes : Z) : list slow_endpoint :=
  stable_sort (fun a b => Qltb (se_avgLatency b) (se_avgLatency a))
    (slow_of <$>
       List.filter (fun e => Qgtb (ps_avgLatency (snd e)) thresholdMs)
         (byPath metrics now windowMinutes)).

(** The metrics of one path, and what the loop adds up for them. *)
Definition of_path (p : string) (rel : list RequestMetric)
  : list RequestMetric :=
  filter (fun m => m_path m = p) rel.

Definition hits (p : string) (rel : list RequestMetric) : Z :=
  Z.of_nat (length (of_path p rel)).

Definition latency_sum (p : string) (rel : list RequestMetric) : Z :=
  foldr Z.add 0 (latencyMs <$> of_path p rel).

Definition failures (p : string) (rel : list RequestMetric) : Z :=
  Z.of_nat (length (filter (fun m => 400 <= statusCode m) (of_path p rel))).

(** The failure count on record for an upstream, 0 when it was never
    checked. *)
Definition failures_of (c : t) (upstream : string) : Z :=
  from_option HealthCheckResult.consecutiveFailures 0
    (healthChecks c !! upstream).

End MetricsCollector.

(** ** Concrete scenarios *)

Definition tb_store : gmap string entry :=
  {[ "rl:tb:alice"%string :=
       mkEntry (VLimiter (RateLimitState.mk None (Some 0%Q) None 0 None))
         (Some 3600) ]}.

(** A composite limiter holding one sliding window of one request per ten
    seconds, and one holding a token bucket of ten tokens. *)
Definition composite_sw : CompositeRateLimiter.t :=
  CompositeRateLimiter.add CompositeRateLimiter.new "sw"
    (SW (SlidingWindowLimiter.new 1 10 "rl:sw:")) 10.

Definition composite_tb : CompositeRateLimiter.t :=
  CompositeRateLimiter.add CompositeRateLimiter.new "tb"
    (TB (TokenBucketLimiter.new 10 1 "rl:tb:")) 0.

(** Scenario 5 of the specification: a sliding window of priority 10 over
    a token bucket of priority 1, registered lowest priority first. *)
Definition composite_sw_tb : CompositeRateLimiter.t :=
  CompositeRateLimiter.add
    (CompositeRateLimiter.add CompositeRateLimiter.new "tb"
       (TB (TokenBucketLimiter.new 100 10 "rl:tb:")) 1)
    "sw" (SW (SlidingWindowLimiter.new 2 10 "rl:sw:")) 10.

(** A leaky bucket of size 1 draining one request per second. *)
Definition lb_one : LeakyBucketLimiter.t :=
  LeakyBucketLimiter.new 1 1 "rl:lb:".

(** What requests at 0 ms and at 3 ms leave in the store of that bucket
    when the arithmetic is rounded as doubles are: a level of
    1.9969999999999998863131622783839702606201171875 written at 3 ms. *)
Definition lb_after_two : gmap string entry :=
  match Rounded.LeakyBucketLimiter.check Rounded.round64 lb_one "k" 0 ∅ with
  | Returned _ kv1 =>
      match
        Rounded.LeakyBucketLimiter.check Rounded.round64 lb_one "k" 3 kv1
      with
      | Returned _ kv2 => kv2
      | _ => ∅
      end
  | _ => ∅
  end.

(** The Gregorian calendar rendition of [toISOString] for the years 0000
    to 9999 (days are turned into a civil date era by era). *)
Definition pad (width : nat) (z : Z) : string :=
  let s := pretty z in
  String.concat "" (repeat "0"%string (width - String.length s)) +:+ s.

Definition iso8601 (ms : Z) : string :=
  let days := ms / 86400000 in
  let rest := ms mod 86400000 in
  let z := days + 719468 in
  let era := z / 146097 in
  let doe := z - era * 146097 in
  let yoe := (doe - doe / 1460 + doe / 36524 - doe / 146096) / 365 in
  let doy := doe - (365 * yoe + yoe / 4 - yoe / 100) in
  let mp := (5 * doy + 2) / 153 in
  let d := doy - (153 * mp + 2) / 5 + 1 in
  let m := if Z.ltb mp 10 then mp + 3 else mp - 9 in
  let y := yoe + era * 400 + (if Z.leb m 2 then 1 else 0) in
  pad 4 y +:+ "-" +:+ pad 2 m +:+ "-" +:+ pad 2 d +:+ "T"
    +:+ pad 2 (rest / 3600000) +:+ ":" +:+ pad 2 (rest / 60000 mod 60)
    +:+ ":" +:+ pad 2 (rest / 1000 mod 60) +:+ "."
    +:+ pad 3 (rest mod 1000) +:+ "Z".

(** Scenario 3 of the specification: perMinute = 3, daily = 5,
    monthly = 10; a user with three requests in the minute of
    2026-11-01T12:00Z, seen again one minute later. *)
Definition quota_config : QuotaManager.QuotaConfig :=
  QuotaManager.mkConfig 5 10 3.

Definition noon : Z := 1793534400000.

Definition quota_stored : QuotaState.t :=
  QuotaState.mk 3 "2026-11-01" 3 "2026-11" 3 noon.

Definition quota_store : gmap string entry :=
  {[ "quota:alice"%string := mkEntry (VQuota quota_stored) (Some 2764800) ]}.

Section DoublePrecisionScenarios.

Import PrimFloat Binary64.

(** Scenario 4 of the specification: bucket = 100, rate = 10/s, load
    95 of 100. *)
Definition adaptive : AdaptiveRateLimiter.t := AdaptiveRateLimiter.new 100 10.

(** The token bucket createRateLimiter builds for seven requests per ten
    seconds (rate 7 / 10), and the store of a client who emptied it at
    1700000000000 ms. *)
Definition seven_per_ten : TokenBucketLimiter.t :=
  TokenBucketLimiter.new 7 (div 7 10) "rl:tb:".

Definition emptied : store :=
  {[ "rl:tb:k"%string :=
       mkEntry (VState (RateLimitState.mk None (Some 0%float)
                          (of_Z 1700000000000)))
         (Some 3600) ]}.

(** Scenario 1 of the token bucket in doubles: ten tokens, two a second,
    an empty bucket written at 0 ms. *)
Definition tb_ten64 : TokenBucketLimiter.t :=
  TokenBucketLimiter.new 10 2 "rl:tb:".

Definition tb_store64 : store :=
  {[ "rl:tb:alice"%string :=
       mkEntry (VState (RateLimitState.mk None (Some 0%float) 0%float))
         (Some 3600) ]}.

(** A leaky bucket of size 1 draining one request per second. *)
Definition lb_one64 : LeakyBucketLimiter.t :=
  LeakyBucketLimiter.new 1 1 "rl:lb:".

End DoublePrecisionScenarios.

(** Scenario 6 of the specification: ten requests with latencies 10, 20,
    ..., 100 ms, recorded out of order. *)
Definition sample_metric (latency status : Z)
  : MetricsCollector.RequestMetric :=
  MetricsCollector.mkMetric "/api/echo" "GET" status latency 1000 None false.

Definition sample_metrics : list MetricsCollector.RequestMetric :=
  [sample_metric 70 200; sample_metric 10 200; sample_metric 100 500;
   sample_metric 30 200; sample_metric 90 200; sample_metric 20 200;
   sample_metric 60 500; sample_metric 50 200; sample_metric 80 200;
   sample_metric 40 200].

(** A request without API key or peer address, and the RATE_LIMIT
    namespace of a client that has used up its hundred requests of the
    window starting at 60000 ms. *)
Definition anonymous_request : Request :=
  mkRequest "/api/echo" (fun _ => None).

Definition exhausted_kv : RateLimiterMiddleware.KVNamespace :=
  RateLimiterMiddleware.mkKV
    {[ "rl:anonymous:60000"%string := ("100"%string, 120) ]} false false.

Definition failing_kv : RateLimiterMiddleware.KVNamespace :=
  RateLimiterMiddleware.mkKV ∅ true false.

(** Requests carrying one header. *)
Definition with_header (path name value : string) : Request :=
  mkRequest path (fun h => if String.eqb h name then Some value else None).

Definition two_keys : Auth.Env := Auth.mkEnv (Some "k1,k2"%string).

(** The HTTP status a middleware answers with, if it answers. *)
Definition status_of (h : handled) : option Z :=
  match h with
  | Next => None
  | Json _ status => Some status
  end.

(** A token bucket of ten tokens refilled twice a second, as one of the
    three limiters. *)
Definition tb_ten : Limiter := TB (TokenBucketLimiter.new 10 2 "rl:tb:").

(** A sliding window of two requests per ten seconds, and four requests
    of one client, the last one after the window of the first two. *)
Definition sw_two : SlidingWindowLimiter.t :=
  SlidingWindowLimiter.new 2 10 "rl:sw:".

Definition four_requests : list Z := [0; 1000; 2000; 12000].

(** A token bucket of two tokens refilled once a second. *)
Definition tb_two : TokenBucketLimiter.t :=
  TokenBucketLimiter.new 2 1 "rl:tb:".

(** A factory configuration: five requests per ten seconds, bursts of
    eight. *)
Definition burst_config : RateLimitConfig.t :=
  RateLimitConfig.mk RateLimitConfig.token_bucket 5 10 (Some 8) None.

(** The RATE_LIMIT data of a client two requests short of its hundred in
    the window starting at 60000 ms. *)
Definition nearly_exhausted : gmap string (string * Z) :=
  {[ "rl:anonymous:60000"%string := ("98"%string, 120) ]}.

(** * Properties *)

(** ** Rationals: comparisons *)

Lemma Qltb_lt (x y : Q) : Qltb x y = true <-> (x < y)%Q.
Proof.
  unfold Qltb. rewrite negb_true_iff, <- not_true_iff_false, Qle_bool_iff.
  split; [apply Qnot_le_lt | apply Qlt_not_le].
Qed.

Lemma Qltb_ge (x y : Q) : Qltb x y = false <-> (y <= x)%Q.
Proof.
  unfold Qltb. rewrite negb_false_iff. apply Qle_bool_iff.
Qed.

Lemma Qgeb_ge (x y : Q) : Qgeb x y = true <-> (y <= x)%Q.
Proof. apply Qle_bool_iff. Qed.

Lemma Qgtb_gt (x y : Q) : Qgtb x y = true <-> (y < x)%Q.
Proof. apply (Qltb_lt y x). Qed.

Lemma Qgtb_le (x y : Q) : Qgtb x y = false <-> (x <= y)%Q.
Proof. apply (Qltb_ge y x). Qed.

(** ** Doubles: the order *)

Section DoubleOrder.

Import PrimFloat SpecFloat FloatOps FloatAxioms.

Ltac compare_cases :=
  change (PosDef.Pos.compare_cont Eq) with Pos.compare in *;
  repeat match goal with
  | H : context [Z.compare ?a ?b] |- _ => destruct (Z.compare_spec a b)
  | |- context [Z.compare ?a ?b] => destruct (Z.compare_spec a b)
  | H : context [Pos.compare ?a ?b] |- _ => destruct (Pos.compare_spec a b)
  | |- context [Pos.compare ?a ?b] => destruct (Pos.compare_spec a b)
  end;
  subst; simpl in *; try congruence; try lia.

Lemma SFltb_trans (a b c : spec_float) :
  SFltb a b = true -> SFltb b c = true -> SFltb a c = true.
Proof.
  unfold SFltb.
  destruct a as [[]|[]| |[] m1 e1], b as [[]|[]| |[] m2 e2],
    c as [[]|[]| |[] m3 e3]; simpl; try congruence; compare_cases.
Qed.

Lemma SFltb_leb_trans (a b c : spec_float) :
  SFltb a b = true -> SFleb b c = true -> SFltb a c = true.
Proof.
  unfold SFltb, SFleb.
  destruct a as [[]|[]| |[] m1 e1], b as [[]|[]| |[] m2 e2],
    c as [[]|[]| |[] m3 e3]; simpl; try congruence; compare_cases.
Qed.

Lemma SFleb_not_ltb (a b : spec_float) :
  SFleb a b = true -> SFltb b a = false.
Proof.
  unfold SFltb, SFleb.
  destruct a as [[]|[]| |[] m1 e1], b as [[]|[]| |[] m2 e2];
    simpl; try congruence; compare_cases.
Qed.

(** [<] and [<=] of doubles: what a chain of comparisons may assume. *)
Lemma ltb_trans (a b c : float) :
  ltb a b = true -> ltb b c = true -> ltb a c = true.
Proof. rewrite !ltb_spec. apply SFltb_trans. Qed.

Lemma ltb_leb_trans (a b c : float) :
  ltb a b = true -> leb b c = true -> ltb a c = true.
Proof. rewrite !ltb_spec, leb_spec. apply SFltb_leb_trans. Qed.

Lemma leb_not_ltb (a b : float) : leb a b = true -> ltb b a = false.
Proof. rewrite ltb_spec, leb_spec. apply SFleb_not_ltb. Qed.

(** Only NaN differs from itself, and it compares with nothing. *)
Lemma is_nan_ltb (x c : float) :
  is_nan x = true -> ltb x c = false /\ ltb c x = false.
Proof.
  unfold is_nan. rewrite !ltb_spec, eqb_spec.
  unfold SFeqb, SFltb.
  destruct (Prim2SF x) as [[]|[]| |[] m e]; simpl;
    rewrite ?Z.compare_refl;
    change (PosDef.Pos.compare_cont Eq) with Pos.compare;
    rewrite ?Pos.compare_refl; simpl; try discriminate.
  intros _. destruct (Prim2SF c); split; reflexivity.
Qed.

End DoubleOrder.

(** ** Token bucket *)

Section TokenBucket.

Import PrimFloat Binary64 Binary64.TokenBucketLimiter.
Local Open Scope float_scope.

(** C3, as the claim states it, fails, whether its formulas are read
    over the real numbers or with the operations of doubles.

    Over the reals: a bucket of ten tokens under a cost of 1 / 0.75, the
    price the adaptive limiter charges at a load factor of 0.75, holds
    7.333333333333333 after two requests; of these numbers tokens - cost
    is 5.999999999999999778, whose floor is 5, while the code's
    subtraction rounds to 6: it answers remaining = 6 and stores 6
    tokens.

    With the operations of doubles: for the smallest positive cost,
    2^-1074, on an empty bucket that refills every millisecond,
    ceil((cost - tokens) * refillIntervalMs / 1000) is 0, the quotient
    being rounded to 0, while the code rounds up to whole milliseconds
    first and answers retryAfter = ceil(1 / 1000) = 1. *)
Lemma token_bucket_check_rounds :
  (let l := new 10 10 "rl:adaptive:" in
   let cost := 1 / 0.75 in
   let tk := 10 - cost - cost in
   let now := 1700000000000%Z in
   let st := RateLimitState.mk None (Some tk) (of_Z now) in
   let kv : store :=
     {[ "rl:adaptive:k"%string := mkEntry (VState st) (Some 3600%Z) ]} in
   let refill :=
     Qfloor ((Zq now - to_Q (RateLimitState.lastUpdate st))
             / to_Q (refillInterval l)) in
   let tokens := Qmin (to_Q (bucketSize l)) (to_Q tk + Zq refill)%Q in
   ~ (tokens < to_Q cost)%Q /\
   Qfloor (tokens - to_Q cost) = 5%Z /\
   exists r kv',
     check l "k" cost now kv = Some (r, kv') /\
     RateLimitResult.allowed r = true /\
     RateLimitResult.remaining r = 6 /\
     kv' !! "rl:adaptive:k"%string =
       Some (mkEntry (VState (RateLimitState.mk None (Some 6) (of_Z now)))
               (Some 3600%Z))) /\
  (let l := new 10 1000 "rl:tb:" in
   let cost := 0x1p-1074 in
   let st := RateLimitState.mk None (Some 0) 0 in
   let kv : store :=
     {[ "rl:tb:k"%string := mkEntry (VState st) (Some 3600%Z) ]} in
   let refill :=
     Math_floor ((of_Z 0 - RateLimitState.lastUpdate st)
                 / refillInterval l) in
   let tokens := Math_min (bucketSize l) (0 + refill) in
   (tokens <? cost) = true /\
   Math_ceil ((cost - tokens) * refillInterval l / 1000) = 0 /\
   exists r,
     check l "k" cost 0 kv = Some (r, kv) /\
     RateLimitResult.allowed r = false /\
     RateLimitResult.retryAfter r = Some 1).
Proof.
  cbv zeta. split.
  - split; [vm_compute; discriminate|].
    split; [vm_compute; reflexivity|].
    do 2 eexists. split; [vm_compute; reflexivity|].
    split; [reflexivity|]. split; [reflexivity|].
    vm_compute. reflexivity.
  - split; [vm_compute; reflexivity|].
    split; [vm_compute; reflexivity|].
    eexists. split; [vm_compute; reflexivity|].
    split; reflexivity.
Qed.

(** C3, amended.  On a stored state {tokens, lastUpdate},
    [check(key, cost)] at time [now] computes in double precision:
    it refills by floor((now - lastUpdate) / refillIntervalMs), the
    quotient rounded, capped at bucketSize.  With fewer refilled tokens
    than [cost] it denies, retryAfter =
    ceil(ceil((cost - tokens) * refillIntervalMs) / 1000) with every
    operation rounded, and the store is left as it was; otherwise it
    stores {tokens - cost, lastUpdate = now}, the difference rounded,
    with a TTL of 3600 seconds and allows with
    remaining = floor(tokens - cost). *)
Theorem token_bucket_check_spec
  (size rate cost : float) (pre key : string) (now : Z)
  (kv : store) (st : RateLimitState.t) (ttl : option Z) :
  kv !! (pre +:+ key) = Some (mkEntry (VState st) ttl) ->
  let l := new size rate pre in
  let refillIntervalMs := 1000 / rate in
  let stored := or0 (RateLimitState.tokens st) in
  let refill :=
    Math_floor ((of_Z now - RateLimitState.lastUpdate st)
                / refillIntervalMs) in
  let tokens := Math_min size (stored + refill) in
  ((tokens <? cost) = true ->
     exists r,
       check l key cost now kv = Some (r, kv) /\
       RateLimitResult.allowed r = false /\
       RateLimitResult.retryAfter r =
         Some (Math_ceil
                 (Math_ceil ((cost - tokens) * refillIntervalMs) / 1000))) /\
  ((tokens <? cost) = false ->
     exists r,
       check l key cost now kv =
         Some (r,
               <[pre +:+ key :=
                   mkEntry
                     (VState
                        (RateLimitState.mk None (json (tokens - cost))
                           (of_Z now)))
                     (Some 3600%Z)]> kv) /\
       RateLimitResult.allowed r = true /\
       RateLimitResult.remaining r = Math_floor (tokens - cost) /\
       RateLimitResult.retryAfter r = None).
Proof.
  intros Hkv l ri stored refill tokens.
  assert (E : check l key cost now kv =
    if tokens <? cost then
      Some ({| RateLimitResult.allowed := false;
               RateLimitResult.remaining := Math_floor tokens;
               RateLimitResult.limit := size;
               RateLimitResult.reset :=
                 of_Z now + Math_ceil ((cost - tokens) * ri);
               RateLimitResult.retryAfter :=
                 Some (Math_ceil
                         (Math_ceil ((cost - tokens) * ri) / 1000)) |},
            kv)
    else
      Some ({| RateLimitResult.allowed := true;
               RateLimitResult.remaining := Math_floor (tokens - cost);
               RateLimitResult.limit := size;
               RateLimitResult.reset := of_Z now + ri;
               RateLimitResult.retryAfter := None |},
            <[pre +:+ key :=
                mkEntry
                  (VState
                     (RateLimitState.mk None (json (tokens - cost))
                        (of_Z now)))
                  (Some 3600%Z)]> kv)).
  { unfold check, kv_get_state. cbn [prefix l new]. rewrite Hkv.
    reflexivity. }
  split; intros Hlt; rewrite Hlt in E; eexists; (split; [exact E|]);
    repeat split.
Qed.

Lemma token_bucket_check_spec_witness :
  tb_store64 !! ("rl:tb:" +:+ "alice")%string =
    Some (mkEntry (VState (RateLimitState.mk None (Some 0) 0))
            (Some 3600%Z)) /\
  (exists r,
     check tb_ten64 "alice" 1 1700 tb_store64 =
       Some (r,
             <[("rl:tb:" +:+ "alice")%string :=
                 mkEntry (VState (RateLimitState.mk None (Some 2) 1700))
                   (Some 3600%Z)]> tb_store64) /\
     RateLimitResult.allowed r = true /\
     RateLimitResult.remaining r = 2) /\
  (exists r,
     check tb_ten64 "alice" 1 400 tb_store64 = Some (r, tb_store64) /\
     RateLimitResult.allowed r = false /\
     RateLimitResult.retryAfter r = Some 1).
Proof.
  split; [reflexivity|]. split.
  - destruct (token_bucket_check_spec 10 2 1 "rl:tb:" "alice" 1700
                tb_store64 (RateLimitState.mk None (Some 0) 0)
                (Some 3600%Z))
      as [_ Hallow]; [reflexivity|].
    destruct Hallow as (r & Hr & Ha & Hrem & _); [vm_compute; reflexivity|].
    exists r. split; [exact Hr|]. split; [exact Ha|].
    rewrite Hrem. reflexivity.
  - destruct (token_bucket_check_spec 10 2 1 "rl:tb:" "alice" 400
                tb_store64 (RateLimitState.mk None (Some 0) 0)
                (Some 3600%Z))
      as [Hdeny _]; [reflexivity|].
    destruct Hdeny as (r & Hr & Ha & Hretry); [vm_compute; reflexivity|].
    exists r. split; [exact Hr|]. split; [exact Ha|].
    rewrite Hretry. reflexivity.
Defined.

End TokenBucket.

(** ** The three limiters *)

Section Limiters.

Lemma limiter_check_no_TypeError (l : Limiter) key now kv :
  limiter_check l key now kv <> TypeError.
Proof.
  destruct l as [l|l|l]; simpl;
    unfold SlidingWindowLimiter.check, TokenBucketLimiter.check,
      LeakyBucketLimiter.check, mbind, M_bind, kv_get_state, kv_put,
      mret, M_ret, outside;
    repeat case_match; discriminate.
Qed.

(** An allowing result never carries a retryAfter. *)
Lemma limiter_allowed_no_retryAfter (l : Limiter) key now kv r kv' :
  limiter_check l key now kv = Returned r kv' ->
  RateLimitResult.allowed r = true ->
  RateLimitResult.retryAfter r = None.
Proof.
  destruct l as [l|l|l]; simpl;
    unfold SlidingWindowLimiter.check, TokenBucketLimiter.check,
      LeakyBucketLimiter.check, mbind, M_bind, kv_get_state, kv_put,
      mret, M_ret, outside;
    intros H Ha; repeat case_match; simplify_eq; simpl in *;
    try discriminate; reflexivity.
Qed.

(** The sliding window never reports a negative remaining. *)
Lemma sliding_window_remaining_nonneg l key now kv r kv' :
  SlidingWindowLimiter.check l key now kv = Returned r kv' ->
  (0 <= RateLimitResult.remaining r)%Q.
Proof.
  unfold SlidingWindowLimiter.check, mbind, M_bind, kv_get_state, kv_put,
    mret, M_ret, outside.
  intros H; repeat case_match; simplify_eq; simpl;
    try apply Qle_refl;
    match goal with
    | Hd : bool_decide _ = false |- _ =>
        apply bool_decide_eq_false in Hd
    end;
    unfold Zq; change 0%Q with (inject_Z 0); rewrite <- Zle_Qle;
    rewrite ?length_app; simpl in *; lia.
Qed.

Lemma floor_nonneg (x : Q) : (0 <= x)%Q -> (0 <= Zq (Qfloor x))%Q.
Proof.
  intros Hx. unfold Zq. change 0%Q with (inject_Z 0).
  rewrite <- Zle_Qle, <- (Qfloor_Z 0). apply Qfloor_resp_le. exact Hx.
Qed.

(** With a clock that does not run backwards and non-negative stored
    tokens, the token bucket never reports a negative remaining. *)
Lemma token_bucket_remaining_nonneg l key cost now kv :
  (0 < TokenBucketLimiter.refillInterval l)%Q ->
  (0 <= TokenBucketLimiter.bucketSize l)%Q ->
  (forall st ttl,
     kv !! (TokenBucketLimiter.prefix l +:+ key)
       = Some (mkEntry (VLimiter st) ttl) ->
     (0 <= or0 (RateLimitState.tokens st))%Q /\
     RateLimitState.lastUpdate st <= now) ->
  match TokenBucketLimiter.check l key cost now kv with
  | Returned r _ => (0 <= RateLimitResult.remaining r)%Q
  | _ => True
  end.
Proof.
  intros Hri Hbs Hst.
  unfold TokenBucketLimiter.check, mbind, M_bind, kv_get_state, kv_put,
    mret, M_ret.
  destruct (kv !! _) as [[[st| |] ttl]|] eqn:Hkv; try exact I.
  - destruct (Hst st ttl eq_refl) as [Htk Hlu].
    assert (Hre : (0 <= TokenBucketLimiter.refilled l now st)%Q).
    { unfold TokenBucketLimiter.refilled. apply Q.min_glb; [exact Hbs|].
      assert (Hfl : (0 <= Zq (Qfloor
                 (Zq (now - RateLimitState.lastUpdate st)
                  / TokenBucketLimiter.refillInterval l)))%Q).
      { apply floor_nonneg. apply Qle_shift_div_l; [exact Hri|].
        rewrite Qmult_0_l. unfold Zq. change 0%Q with (inject_Z 0).
        rewrite <- Zle_Qle. lia. }
      lra. }
    destruct (Qltb _ cost) eqn:Hlt; lazy beta iota;
      unfold RateLimitResult.remaining; apply floor_nonneg;
      [exact Hre | apply Qltb_ge in Hlt; lra].
  - destruct (Qltb _ cost) eqn:Hlt; lazy beta iota;
      unfold RateLimitResult.remaining; apply floor_nonneg;
      [exact Hbs | apply Qltb_ge in Hlt; lra].
Qed.

Lemma floor_headroom (w b : Q) :
  (w < b)%Q -> (-1 <= Zq (Qfloor (b - (w + 1))))%Q.
Proof.
  intros Hw. unfold Zq. change (-1)%Q with (inject_Z (-1)).
  rewrite <- Zle_Qle, <- (Qfloor_Z (-1)).
  apply Qfloor_resp_le. change (inject_Z (-1)) with (-1)%Q. lra.
Qed.

(** The leaky bucket never reports less than -1. *)
Lemma leaky_bucket_remaining_lower l key now kv :
  match LeakyBucketLimiter.check l key now kv with
  | Returned r _ => (-1 <= RateLimitResult.remaining r)%Q
  | _ => True
  end.
Proof.
  unfold LeakyBucketLimiter.check, mbind, M_bind, kv_get_state, kv_put,
    mret, M_ret.
  destruct (kv !! _) as [[[st| |] ?]|]; try exact I;
    destruct (Qgeb _ _) eqn:Hd; lazy beta iota;
    unfold RateLimitResult.remaining; try discriminate;
    apply floor_headroom;
    unfold Qgeb in Hd; apply not_true_iff_false in Hd;
    rewrite Qle_bool_iff in Hd; apply Qnot_le_lt in Hd; exact Hd.
Qed.

(** C2. The second request to a leaky bucket of size 1, half a second
    after the first, is allowed and reported with remaining = -1. *)
Theorem leaky_bucket_remaining_negative :
  exists r1 kv1 r2 kv2,
    LeakyBucketLimiter.check lb_one "k" 0 ∅ = Returned r1 kv1 /\
    LeakyBucketLimiter.check lb_one "k" 500 kv1 = Returned r2 kv2 /\
    RateLimitResult.allowed r2 = true /\
    RateLimitResult.remaining r2 = Zq (-1).
Proof.
  do 4 eexists. split; [vm_compute; reflexivity|].
  split; [vm_compute; reflexivity|].
  split; vm_compute; reflexivity.
Qed.

End Limiters.

(** ** Composite limiter *)

Section Composite.

Import CompositeRateLimiter.

Lemma insert_desc_length x l : length (insert_desc x l) = S (length l).
Proof.
  induction l as [|y l IH]; simpl; [reflexivity|].
  case_bool_decide; simpl; [rewrite IH|]; reflexivity.
Qed.

Lemma sort_desc_length l : length (sort_desc l) = length l.
Proof.
  unfold sort_desc.
  assert (G : forall acc,
    length (fold_left (fun acc x => insert_desc x acc) l acc)
    = (length l + length acc)%nat).
  { induction l as [|x l IH]; intros acc; simpl; [reflexivity|].
    rewrite IH, insert_desc_length. lia. }
  rewrite G. simpl. lia.
Qed.

Lemma insert_desc_descending x l :
  descending l -> descending (insert_desc x l).
Proof.
  unfold descending.
  induction l as [|y l IH]; simpl; intros Hs.
  - repeat constructor.
  - apply Sorted_inv in Hs as [Hs Hy].
    case_bool_decide as Hxy.
    + constructor; [apply IH, Hs|].
      destruct l as [|z l]; simpl.
      * constructor. exact Hxy.
      * apply HdRel_inv in Hy. case_bool_decide; constructor; assumption.
    + repeat constructor; [assumption..|lia].
Qed.

Lemma sort_desc_descending l : descending (sort_desc l).
Proof.
  unfold sort_desc.
  assert (G : forall acc, descending acc ->
    descending (fold_left (fun acc x => insert_desc x acc) l acc)).
  { induction l as [|x l IH]; intros acc Hacc; simpl; [exact Hacc|].
    apply IH, insert_desc_descending, Hacc. }
  apply G. constructor.
Qed.

(** After every [add] the limiters are held in descending priority
    order, and there is at least one. *)
Lemma add_descending c n l p : descending (limiters (add c n l p)).
Proof. apply sort_desc_descending. Qed.

Lemma add_nonempty c n l p : limiters (add c n l p) <> [].
Proof.
  intros E. apply (f_equal (@length _)) in E. simpl in E.
  rewrite sort_desc_length, length_app in E. simpl in E. lia.
Qed.

(** The loop visits the limiters in list order: a denial of the head is
    returned with its name, an allowance moves on to the tail with the
    store the head left behind. *)
Lemma probe_denied r ls key now kv res kv' :
  limiter_check (limiter r) key now kv = Returned res kv' ->
  RateLimitResult.allowed res = false ->
  probe (r :: ls) key now kv = Returned (Some (res, Some (name r))) kv'.
Proof.
  intros Hc Ha. simpl. unfold mbind, M_bind. rewrite Hc, Ha. reflexivity.
Qed.

Lemma probe_allowed r ls key now kv res kv' :
  limiter_check (limiter r) key now kv = Returned res kv' ->
  RateLimitResult.allowed res = true ->
  probe (r :: ls) key now kv = probe ls key now kv'.
Proof.
  intros Hc Ha. simpl. unfold mbind, M_bind. rewrite Hc, Ha. reflexivity.
Qed.

Lemma check_denied c key now kv res kv' :
  probe (limiters c) key now kv = Returned (Some res) kv' ->
  check c key now kv = Returned res kv'.
Proof.
  intros Hp. unfold check, mbind, M_bind. rewrite Hp. reflexivity.
Qed.

(** When the loop ran through, the last limiter is asked again, on the
    store the loop left behind. *)
Lemma check_all_passed c key now kv kv' lastLimiter :
  probe (limiters c) key now kv = Returned None kv' ->
  last (limiters c) = Some lastLimiter ->
  check c key now kv =
    match limiter_check (limiter lastLimiter) key now kv' with
    | Returned result kv'' => Returned (result, None) kv''
    | TypeError => TypeError
    | OutsideModel => OutsideModel
    end.
Proof.
  intros Hp Hl. unfold check, mbind, M_bind. rewrite Hp, Hl. reflexivity.
Qed.

Lemma probe_no_TypeError ls key now kv : probe ls key now kv <> TypeError.
Proof.
  revert kv. induction ls as [|r ls IH]; intros kv; simpl; [discriminate|].
  unfold mbind, M_bind.
  pose proof (limiter_check_no_TypeError (limiter r) key now kv) as Hc.
  destruct (limiter_check (limiter r) key now kv) as [res kv'| |];
    [|contradiction|discriminate].
  destruct (negb (RateLimitResult.allowed res)); [discriminate|apply IH].
Qed.

(** Scenario 5 of the specification: the sliding window of priority 10 is
    asked first although it was registered last; the third request is
    denied by it and carries its name.  The token bucket has by then paid
    four tokens for the two requests that passed. *)
Lemma composite_priority_scenario :
  name <$> limiters composite_sw_tb = ["sw"; "tb"]%string /\
  exists r1 kv1 r2 kv2 r3 kv3 tk,
    check composite_sw_tb "k" 0 ∅ = Returned (r1, None) kv1 /\
    check composite_sw_tb "k" 1 kv1 = Returned (r2, None) kv2 /\
    check composite_sw_tb "k" 2 kv2 = Returned (r3, Some "sw"%string) kv3 /\
    RateLimitResult.allowed r1 = true /\
    RateLimitResult.allowed r2 = true /\
    RateLimitResult.allowed r3 = false /\
    value <$> kv3 !! "rl:tb:k"%string =
      Some (VLimiter (RateLimitState.mk None (Some tk) None 1 None)) /\
    (tk == 96)%Q.
Proof.
  split; [reflexivity|].
  do 7 eexists.
  split; [vm_compute; reflexivity|].
  split; [vm_compute; reflexivity|].
  split; [vm_compute; reflexivity|].
  split; [reflexivity|]. split; [reflexivity|]. split; [reflexivity|].
  split; [vm_compute; reflexivity|]. reflexivity.
Qed.

(** C1. A composite holding a single sliding window of limit 1 runs the
    loop through on the first request ever (nothing is denied), and
    then answers with a denial that carries no limiterName; a
    composite holding a single token bucket of 10 tokens answers its
    first request with remaining = 8 and stores 8 tokens. *)
Theorem composite_check_asks_last_limiter_twice :
  (exists kv1 r kv2,
     probe (limiters composite_sw) "k" 0 ∅ = Returned None kv1 /\
     check composite_sw "k" 0 ∅ = Returned (r, None) kv2 /\
     RateLimitResult.allowed r = false) /\
  (exists r kv2 tk,
     check composite_tb "k" 0 ∅ = Returned (r, None) kv2 /\
     RateLimitResult.allowed r = true /\
     RateLimitResult.remaining r = Zq 8 /\
     value <$> kv2 !! "rl:tb:k"%string =
       Some (VLimiter (RateLimitState.mk None (Some tk) None 0 None)) /\
     (tk == 8)%Q).
Proof.
  split.
  - do 3 eexists. split; [vm_compute; reflexivity|].
    split; vm_compute; reflexivity.
  - do 3 eexists. split; [vm_compute; reflexivity|].
    split; [vm_compute; reflexivity|].
    split; [vm_compute; reflexivity|].
    split; [vm_compute; reflexivity|]. reflexivity.
Qed.

(** C10. With no limiter registered, [check] reads [limiter] of an
    undefined entry and fails with a TypeError; with at least one, the
    last entry exists and [check] raises no TypeError.  Every [add]
    leaves the list non-empty. *)
Theorem composite_check_needs_a_limiter :
  (forall key now kv, check new key now kv = TypeError) /\
  (forall c key now kv,
     limiters c <> [] ->
     is_Some (last (limiters c)) /\ check c key now kv <> TypeError) /\
  (forall c n l p, limiters (add c n l p) <> []).
Proof.
  split; [reflexivity|]. split; [|apply add_nonempty].
  intros c key now kv Hne.
  assert (Hl : is_Some (last (limiters c))).
  { destruct (limiters c) as [|x l] using rev_ind; [contradiction|].
    rewrite last_snoc. eexists; reflexivity. }
  split; [exact Hl|].
  destruct Hl as [lastLimiter Hl].
  unfold check, mbind, M_bind.
  pose proof (probe_no_TypeError (limiters c) key now kv) as Hp.
  destruct (probe (limiters c) key now kv) as [[res|] kv'| |];
    [discriminate| |contradiction|discriminate].
  rewrite Hl.
  pose proof (limiter_check_no_TypeError (limiter lastLimiter) key now kv')
    as Hc.
  destruct (limiter_check (limiter lastLimiter) key now kv');
    [discriminate|contradiction|discriminate].
Qed.

Lemma composite_check_needs_a_limiter_witness :
  limiters composite_sw_tb <> [] /\
  is_Some (last (limiters composite_sw_tb)) /\
  check composite_sw_tb "k" 0 ∅ <> TypeError.
Proof.
  destruct composite_check_needs_a_limiter as (_ & Hsafe & _).
  split; [discriminate|].
  apply (Hsafe composite_sw_tb "k" 0 ∅). discriminate.
Defined.

End Composite.

(** ** Quota manager *)

Section Quota.

Import QuotaManager.

Variable toISOString : Z -> string.

Abbreviation rollover := (rollover toISOString).
Abbreviation checkAndIncrement := (checkAndIncrement toISOString).
Abbreviation today := (today toISOString).
Abbreviation month := (month toISOString).
Abbreviation current := (current toISOString).

Lemma checkAndIncrement_eq config userId now kv stored :
  kv_get_quota ("quota:" +:+ userId) kv = Returned stored kv ->
  checkAndIncrement config userId now kv =
    let st := current now stored in
    match exceeded config st with
    | Some p => Returned (report config st (Some p)) kv
    | None =>
        Returned (report config (increment st) None)
          (<["quota:" +:+ userId :=
               mkEntry (VQuota (increment st)) (Some (86400 * 32))]> kv)
    end.
Proof.
  intros Hget. unfold checkAndIncrement, QuotaManager.checkAndIncrement.
  unfold mbind, M_bind. rewrite Hget. unfold QuotaManager.current.
  destruct stored as [st|]; simpl;
    match goal with
    | |- context [exceeded config ?s] => destruct (exceeded config s)
    end; reflexivity.
Qed.

Lemma rollover_minute now s :
  QuotaState.minute_timestamp (rollover now s) = minuteTs now /\
  QuotaState.minute_count (rollover now s) =
    if bool_decide (QuotaState.minute_timestamp s = minuteTs now)
    then QuotaState.minute_count s else 0.
Proof.
  unfold rollover, QuotaManager.rollover.
  repeat case_bool_decide; simpl in *; try tauto; split; congruence.
Qed.

Lemma rollover_daily now s :
  QuotaState.daily_date (rollover now s) = today now /\
  QuotaState.daily_count (rollover now s) =
    if bool_decide (QuotaState.daily_date s = today now)
    then QuotaState.daily_count s else 0.
Proof.
  unfold rollover, QuotaManager.rollover.
  repeat case_bool_decide; simpl in *; try tauto; split; congruence.
Qed.

Lemma rollover_monthly now s :
  QuotaState.monthly_month (rollover now s) = month now /\
  QuotaState.monthly_count (rollover now s) =
    if bool_decide (QuotaState.monthly_month s = month now)
    then QuotaState.monthly_count s else 0.
Proof.
  unfold rollover, QuotaManager.rollover.
  repeat case_bool_decide; simpl in *; try tauto; split; congruence.
Qed.

(** C4. The periods are evaluated minute, then daily, then monthly on
    the rolled-over counters; the first one at or over its limit is
    reported as exceededQuota with allowed = false, and then nothing is
    incremented or written: the store is the one before the call.  When
    none is, all three counters are incremented and the state is stored
    with a TTL of 32 days. *)
Theorem quota_check_order_and_persistence
  (config : QuotaConfig) (userId : string) (now : Z)
  (kv : gmap string entry) (stored : option QuotaState.t) :
  kv_get_quota ("quota:" +:+ userId) kv = Returned stored kv ->
  let st := current now stored in
  let m := QuotaState.minute_count st in
  let d := QuotaState.daily_count st in
  let mo := QuotaState.monthly_count st in
  exists r kv',
    checkAndIncrement config userId now kv = Returned r kv' /\
    (perMinute config <= m -> exceededQuota r = Some Minute) /\
    (m < perMinute config -> daily config <= d ->
     exceededQuota r = Some Daily) /\
    (m < perMinute config -> d < daily config -> monthly config <= mo ->
     exceededQuota r = Some Monthly) /\
    (exceededQuota r <> None ->
     allowed r = false /\ kv' = kv /\
     used (quotas_minute r) = m /\ used (quotas_daily r) = d /\
     used (quotas_monthly r) = mo) /\
    (m < perMinute config -> d < daily config -> mo < monthly config ->
     allowed r = true /\ exceededQuota r = None /\
     used (quotas_minute r) = m + 1 /\ used (quotas_daily r) = d + 1 /\
     used (quotas_monthly r) = mo + 1 /\
     kv' = <["quota:" +:+ userId :=
               mkEntry
                 (VQuota
                    (QuotaState.mk
                       (d + 1) (QuotaState.daily_date st)
                       (mo + 1) (QuotaState.monthly_month st)
                       (m + 1) (QuotaState.minute_timestamp st)))
                 (Some 2764800)]> kv).
Proof.
  intros Hget st m d mo.
  rewrite (checkAndIncrement_eq config userId now kv stored Hget).
  fold st. cbv zeta. unfold exceeded. fold m d mo.
  repeat case_bool_decide; eexists; eexists; (split; [reflexivity|]);
    simpl; repeat split; intros; try lia; try congruence.
Qed.

(** C5. A counter whose stored period identifier differs from the one
    derived from the current time counts as 0 when the limits are
    checked (so with a positive limit that period is not the exceeded
    one, and a denial reports it as 0), and when the request is allowed
    that counter is stored, and reported, as 1. *)
Theorem quota_rollover_resets
  (config : QuotaConfig) (userId : string) (now : Z)
  (kv : gmap string entry) (s : QuotaState.t) (ttl : option Z) :
  kv !! ("quota:" +:+ userId) = Some (mkEntry (VQuota s) ttl) ->
  exists r kv',
    checkAndIncrement config userId now kv = Returned r kv' /\
    (QuotaState.minute_timestamp s <> minuteTs now ->
     0 < perMinute config -> exceededQuota r <> Some Minute) /\
    (QuotaState.daily_date s <> today now ->
     0 < daily config -> exceededQuota r <> Some Daily) /\
    (QuotaState.monthly_month s <> month now ->
     0 < monthly config -> exceededQuota r <> Some Monthly) /\
    (allowed r = false ->
     kv' = kv /\
     (QuotaState.minute_timestamp s <> minuteTs now ->
      used (quotas_minute r) = 0) /\
     (QuotaState.daily_date s <> today now ->
      used (quotas_daily r) = 0) /\
     (QuotaState.monthly_month s <> month now ->
      used (quotas_monthly r) = 0)) /\
    (allowed r = true ->
     exists s',
       kv' !! ("quota:" +:+ userId) =
         Some (mkEntry (VQuota s') (Some 2764800)) /\
       (QuotaState.minute_timestamp s <> minuteTs now ->
        QuotaState.minute_count s' = 1 /\ used (quotas_minute r) = 1) /\
       (QuotaState.daily_date s <> today now ->
        QuotaState.daily_count s' = 1 /\ used (quotas_daily r) = 1) /\
       (QuotaState.monthly_month s <> month now ->
        QuotaState.monthly_count s' = 1 /\ used (quotas_monthly r) = 1)).
Proof.
  intros Hkv.
  assert (Hget : kv_get_quota ("quota:" +:+ userId) kv
                 = Returned (Some s) kv).
  { unfold kv_get_quota. rewrite Hkv. reflexivity. }
  rewrite (checkAndIncrement_eq config userId now kv (Some s) Hget).
  unfold QuotaManager.current. simpl default. cbv zeta.
  destruct (rollover_minute now s) as [_ Hm].
  destruct (rollover_daily now s) as [_ Hd].
  destruct (rollover_monthly now s) as [_ Hmo].
  set (st := rollover now s) in *.
  unfold exceeded.
  repeat case_bool_decide; try congruence;
    eexists; eexists; (split; [reflexivity|]); simpl;
    repeat split; intros; try discriminate; try lia; try congruence;
    try (eexists; rewrite lookup_insert_eq; split; [reflexivity|];
         simpl; repeat split; intros; try congruence; lia).
Qed.

End Quota.

Lemma quota_check_order_and_persistence_witness :
  kv_get_quota ("quota:" +:+ "alice") quota_store
    = Returned (Some quota_stored) quota_store /\
  exists r kv',
    QuotaManager.checkAndIncrement iso8601 quota_config "alice" noon
      quota_store = Returned r kv' /\
    QuotaManager.exceededQuota r = Some QuotaManager.Minute /\
    QuotaManager.allowed r = false /\ kv' = quota_store.
Proof.
  split; [reflexivity|].
  destruct (quota_check_order_and_persistence iso8601 quota_config "alice"
              noon quota_store (Some quota_stored) eq_refl)
    as (r & kv' & Hc & Hmin & _ & _ & Hdeny & _).
  exists r, kv'. split; [exact Hc|].
  assert (He : QuotaManager.exceededQuota r = Some QuotaManager.Minute).
  { apply Hmin. vm_compute. discriminate. }
  split; [exact He|].
  destruct Hdeny as (Ha & Hk & _); [rewrite He; discriminate|].
  split; assumption.
Defined.

Lemma quota_rollover_resets_witness :
  quota_store !! ("quota:" +:+ "alice")%string
    = Some (mkEntry (VQuota quota_stored) (Some 2764800)) /\
  exists r kv' s',
    QuotaManager.checkAndIncrement iso8601 quota_config "alice"
      (noon + 60000) quota_store = Returned r kv' /\
    QuotaManager.allowed r = true /\
    kv' !! ("quota:" +:+ "alice")%string
      = Some (mkEntry (VQuota s') (Some 2764800)) /\
    QuotaState.minute_count s' = 1.
Proof.
  split; [reflexivity|].
  destruct (quota_rollover_resets iso8601 quota_config "alice"
              (noon + 60000) quota_store quota_stored (Some 2764800) eq_refl)
    as (r & kv' & Hc & _ & _ & _ & _ & Hallow).
  assert (Ha : QuotaManager.allowed r = true).
  { vm_compute in Hc. injection Hc as <- _. reflexivity. }
  destruct (Hallow Ha) as (s' & Hs' & Hmin & _).
  exists r, kv', s'. split; [exact Hc|]. split; [exact Ha|].
  split; [exact Hs'|]. apply Hmin. vm_compute. discriminate.
Defined.

(** ** Adaptive limiter *)

Section Adaptive.

Import PrimFloat Binary64 Binary64.AdaptiveRateLimiter.
Local Open Scope float_scope.

(** The table of [updateLoadFactor], for every double: an infinite
    [loadPercent] (a load over a capacity of 0) falls in the first or in
    the last row, NaN (0 / 0) in none, and is answered 1. *)
Lemma factor_for_table (a : t) (lp : float) :
  minLoadFactor a = 0.2 -> maxLoadFactor a = 2 ->
  let f := factor_for a lp in
  ((0.9 <? lp) = true -> f = 0.2) /\
  ((0.7 <? lp) = true -> (lp <=? 0.9) = true -> f = 0.5) /\
  ((0.5 <? lp) = true -> (lp <=? 0.7) = true -> f = 0.75) /\
  ((0.3 <=? lp) = true -> (lp <=? 0.5) = true -> f = 1) /\
  ((lp <? 0.3) = true -> f = 2) /\
  (is_nan lp = true -> f = 1) /\
  (0.2 <=? f) = true /\ (f <=? 2) = true /\ is_zero f = false.
Proof.
  intros Hmin Hmax. unfold factor_for. rewrite Hmin, Hmax. cbv zeta.
  assert (Hnan : is_nan lp = true ->
            (0.9 <? lp) = false /\ (0.7 <? lp) = false /\
            (0.5 <? lp) = false /\ (lp <? 0.3) = false).
  { intros H. repeat split; apply (is_nan_ltb lp _ H). }
  assert (A1 : (0.9 <? lp) = true -> (0.7 <? lp) = true)
    by (intros H; exact (ltb_trans 0.7 0.9 lp eq_refl H)).
  assert (A2 : (0.7 <? lp) = true -> (0.5 <? lp) = true)
    by (intros H; exact (ltb_trans 0.5 0.7 lp eq_refl H)).
  assert (A3 : (0.5 <? lp) = true -> (lp <? 0.3) = false).
  { intros H. destruct (lp <? 0.3) eqn:E; [|reflexivity].
    discriminate (ltb_trans 0.5 lp 0.3 H E). }
  pose proof (leb_not_ltb lp 0.9) as B1.
  pose proof (leb_not_ltb lp 0.7) as B2.
  pose proof (leb_not_ltb lp 0.5) as B3.
  pose proof (leb_not_ltb 0.3 lp) as B4.
  destruct (0.9 <? lp) eqn:H9; destruct (0.7 <? lp) eqn:H7;
    destruct (0.5 <? lp) eqn:H5; destruct (lp <? 0.3) eqn:H3;
    repeat split; intros; try reflexivity; try discriminate;
    repeat match goal with
    | H : ?P, I : ?P -> _ |- _ => specialize (I H)
    | I : true = true -> _ |- _ => specialize (I eq_refl)
    | H : _ /\ _ |- _ => destruct H
    end;
    congruence.
Qed.

(** [check] reads the stored factor, whatever factor the object held,
    and hands the request to the wrapped token bucket at the price of
    1 / factor. *)
Lemma check_delegates (b : t) key now (kv : store) x ttl :
  kv !! "rl:load-factor"%string = Some (mkEntry (VText x) ttl) ->
  check b key now kv =
    match
      TokenBucketLimiter.check (baseLimiter b) key
        (1 / parseFloat_String x) now kv
    with
    | Some (r, kv') => Some (set_loadFactor b (parseFloat_String x), r, kv')
    | None => None
    end.
Proof.
  intros Hkv. unfold check, kv_get_text. rewrite Hkv. reflexivity.
Qed.

(** Before any factor is stored [check] charges what the object holds. *)
Lemma check_without_factor (b : t) key now (kv : store) :
  kv !! "rl:load-factor"%string = None ->
  check b key now kv =
    match
      TokenBucketLimiter.check (baseLimiter b) key (1 / loadFactor b) now kv
    with
    | Some (r, kv') => Some (b, r, kv')
    | None => None
    end.
Proof.
  intros Hkv. unfold check, kv_get_text. rewrite Hkv. reflexivity.
Qed.

(** C6. For every [currentLoad] and [maxLoad], a capacity of 0
    included, [updateLoadFactor] stores under rl:load-factor the factor
    the table gives for loadPercent = currentLoad / maxLoad, which lies
    in [0.2, 2.0]; [check], on any object of the class that shares the
    store, then reads that factor and delegates to the wrapped token
    bucket with cost = 1 / loadFactor. *)
Theorem adaptive_load_factor_spec
  (a b : t) (currentLoad maxLoad : float) (key : string) (now : Z)
  (kv : store) :
  minLoadFactor a = 0.2 -> maxLoadFactor a = 2 ->
  let loadPercent := currentLoad / maxLoad in
  exists f,
    let kv' := <["rl:load-factor"%string := mkEntry (VText f) None]> kv in
    updateLoadFactor a currentLoad maxLoad kv = (set_loadFactor a f, kv') /\
    ((0.9 <? loadPercent) = true -> f = 0.2) /\
    ((0.7 <? loadPercent) = true -> (loadPercent <=? 0.9) = true ->
       f = 0.5) /\
    ((0.5 <? loadPercent) = true -> (loadPercent <=? 0.7) = true ->
       f = 0.75) /\
    ((0.3 <=? loadPercent) = true -> (loadPercent <=? 0.5) = true ->
       f = 1) /\
    ((loadPercent <? 0.3) = true -> f = 2) /\
    (0.2 <=? f) = true /\ (f <=? 2) = true /\
    check b key now kv' =
      match
        TokenBucketLimiter.check (baseLimiter b) key (1 / f) now kv'
      with
      | Some (r, kv'') => Some (set_loadFactor b f, r, kv'')
      | None => None
      end.
Proof.
  intros Hmin Hmax lp.
  exists (factor_for a lp). cbv zeta.
  split; [reflexivity|].
  pose proof (factor_for_table a lp Hmin Hmax) as T. cbv zeta in T.
  destruct T as (T1 & T2 & T3 & T4 & T5 & _ & T6 & T7 & T8).
  repeat (split; [assumption|]).
  rewrite (check_delegates b key now _ (factor_for a lp) None)
    by apply lookup_insert_eq.
  unfold parseFloat_String. rewrite T8. reflexivity.
Qed.

(** Scenario 4: at a load of 95 in 100 the factor stored is 0.2, and an
    object still holding the initial factor 1 then charges 5 tokens of
    the hundred. *)
Lemma adaptive_load_factor_spec_witness :
  minLoadFactor adaptive = 0.2 /\ maxLoadFactor adaptive = 2 /\
  exists f r kv',
    updateLoadFactor adaptive 95 100 ∅ =
      (set_loadFactor adaptive f,
       <["rl:load-factor"%string := mkEntry (VText f) None]> ∅) /\
    f = 0.2 /\
    check adaptive "k" 0
      (<["rl:load-factor"%string := mkEntry (VText f) None]> ∅)
      = Some (set_loadFactor adaptive f, r, kv') /\
    RateLimitResult.remaining r = 95.
Proof.
  split; [reflexivity|]. split; [reflexivity|].
  destruct (adaptive_load_factor_spec adaptive adaptive 95 100 "k" 0 ∅)
    as (f & Hu & H9 & _ & _ & _ & _ & _ & _ & Hc);
    [reflexivity | reflexivity |].
  cbv zeta in Hu, Hc.
  assert (Hf : f = 0.2) by (apply H9; reflexivity).
  subst f.
  do 3 eexists. split; [exact Hu|]. split; [reflexivity|].
  split; [etransitivity; [exact Hc|vm_compute; reflexivity]|]. reflexivity.
Defined.

(** A capacity of 0: a load over it is infinite and stores the
    strictest factor, no load over it is NaN and stores 1. *)
Lemma updateLoadFactor_zero_capacity :
  loadFactor (fst (updateLoadFactor adaptive 5 0 ∅)) = 0.2 /\
  loadFactor (fst (updateLoadFactor adaptive 0 0 ∅)) = 1.
Proof. split; reflexivity. Qed.

End Adaptive.

(** ** Metrics *)

Section Metrics.

Import MetricsCollector.

(** Index read by [_percentile] in a list of [n] latencies. *)
Lemma StronglySorted_lookup_le (l : list Z) i j a b :
  StronglySorted Z.le l -> (i <= j)%nat ->
  l !! i = Some a -> l !! j = Some b -> a <= b.
Proof.
  intros Hs. revert i j.
  induction Hs as [|x l Hs IH Hall]; intros i j Hij Ha Hb.
  - discriminate.
  - destruct i as [|i], j as [|j]; simpl in *.
    + injection Ha as <-. injection Hb as <-. lia.
    + injection Ha as <-.
      rewrite Forall_forall in Hall. apply Hall.
      eapply list_elem_of_lookup_2. exact Hb.
    + lia.
    + apply (IH i j); [lia|assumption..].
Qed.


Lemma ceiling_share_le (p : Z) (n : nat) :
  p <= 100 -> Qceiling ((Zq p / 100) * Zq (Z.of_nat n)) <= Z.of_nat n.
Proof.
  intros Hp.
  rewrite <- (Qceiling_Z (Z.of_nat n)) at 2.
  apply Qceiling_resp_le.
  assert (Hn : (0 <= Zq (Z.of_nat n))%Q).
  { unfold Zq. change 0%Q with (inject_Z 0). rewrite <- Zle_Qle. lia. }
  assert (Hq : (Zq p / 100 <= 1)%Q).
  { apply Qle_shift_div_r; [reflexivity|].
    unfold Zq. change (1 * 100)%Q with (inject_Z 100).
    rewrite <- Zle_Qle. exact Hp. }
  apply Qle_trans with (1 * Zq (Z.of_nat n))%Q.
  - apply Qmult_le_compat_r; assumption.
  - rewrite Qmult_1_l. apply Qle_refl.
Qed.

Lemma latencies_length rel : length (latencies rel) = length rel.
Proof.
  unfold latencies.
  rewrite (Permutation_length (merge_sort_Permutation Z.le _)).
  apply length_fmap.
Qed.

Lemma latencies_sorted rel : StronglySorted Z.le (latencies rel).
Proof.
  apply StronglySorted_merge_sort; [apply Z.le_preorder | apply Z.le_total].
Qed.





End Metrics.

(** ** Fixed-window middleware *)

Section FixedWindow.

Import RateLimiterMiddleware.

(** C7, as the claim states it, fails: a client at its limit is answered
    429 with the three X-RateLimit headers, and no Retry-After header
    is set. *)
Lemma rateLimiter_429_has_no_retry_after_header :
  let c := rateLimiter (Some exhausted_kv) anonymous_request 90000 in
  status_of (res c) = Some 429 /\
  res_headers c !! "X-RateLimit-Limit"%string = Some "100"%string /\
  res_headers c !! "Retry-After"%string = None.
Proof. vm_compute. repeat split. Qed.

(** C7, amended. When the window counter has reached the maximum the
    request is answered 429 with the headers X-RateLimit-Limit,
    X-RateLimit-Remaining: 0 and X-RateLimit-Reset (no Retry-After
    header) and the body {error, message, retryAfter}, and nothing is
    written; when the [get], or the [put] of a request under the limit,
    fails, the request goes on to the next handler and the error is
    logged. *)
Theorem rateLimiter_deny_and_fail_open
  (kv : KVNamespace) (req : Request) (now : Z) :
  let config := defaultConfig in
  let c := rateLimiter (Some kv) req now in
  let reset := windowStart config now + 60000 in
  let count := count_of (fst <$> data kv !! windowKey config req now) in
  (get_throws kv = false ->
   forall n, count = Some n -> 100 <= n ->
     let retry := ceil_seconds (reset - now) in
     res c =
       Json [("error", JStr "Too Many Requests");
             ("message",
              JStr ("Rate limit exceeded. Try again in "
                    +:+ pretty retry +:+ " seconds"));
             ("retryAfter", JNum retry)] 429 /\
     res_headers c !! "X-RateLimit-Limit"%string = Some "100"%string /\
     res_headers c !! "X-RateLimit-Remaining"%string = Some "0"%string /\
     res_headers c !! "X-RateLimit-Reset"%string = Some (pretty reset) /\
     res_headers c !! "Retry-After"%string = None /\
     console c = [] /\
     store c = Some (data kv)) /\
  (get_throws kv = true ->
   res c = Next /\ console c = ["Rate limit error:"%string] /\
   store c = Some (data kv)) /\
  (get_throws kv = false -> put_throws kv = true ->
   (forall n, count = Some n -> n < 100) ->
   res c = Next /\ console c = ["Rate limit error:"%string] /\
   store c = Some (data kv)).
Proof.
  intros config c reset count. subst c. unfold rateLimiter.
  fold config. cbv zeta. fold count.
  split; [|split].
  - intros Hg n Hn Hle. rewrite Hg, Hn. simpl at_limit.
    rewrite bool_decide_eq_true_2 by exact Hle.
    simpl. repeat split.
  - intros Hg. rewrite Hg. repeat split.
  - intros Hg Hp Hlt. rewrite Hg, Hp.
    assert (Hat : at_limit config count = false).
    { destruct count as [n|]; [|reflexivity]. simpl.
      apply bool_decide_eq_false_2. specialize (Hlt n eq_refl).
      change (max config) with 100. lia. }
    rewrite Hat. repeat split.
Qed.

Lemma rateLimiter_deny_and_fail_open_witness :
  let c := rateLimiter (Some exhausted_kv) anonymous_request 90000 in
  get_throws exhausted_kv = false /\
  count_of (fst <$> data exhausted_kv
              !! windowKey defaultConfig anonymous_request 90000)
    = Some 100 /\
  100 <= 100 /\
  status_of (res c) = Some 429 /\
  res_headers c !! "X-RateLimit-Reset"%string = Some "120000"%string /\
  store c = Some (data exhausted_kv) /\
  get_throws failing_kv = true /\
  res (rateLimiter (Some failing_kv) anonymous_request 90000) = Next /\
  console (rateLimiter (Some failing_kv) anonymous_request 90000)
    = ["Rate limit error:"%string].
Proof.
  cbv zeta.
  destruct (rateLimiter_deny_and_fail_open exhausted_kv anonymous_request
              90000) as (Hdeny & _).
  destruct (rateLimiter_deny_and_fail_open failing_kv anonymous_request
              90000) as (_ & Hopen & _).
  cbv zeta in Hdeny, Hopen.
  destruct (Hdeny eq_refl 100 eq_refl ltac:(lia))
    as (Hres & _ & _ & Hreset & _ & _ & Hstore).
  destruct (Hopen eq_refl) as (Hnext & Hlog & _).
  split; [reflexivity|]. split; [reflexivity|]. split; [lia|].
  split; [rewrite Hres; reflexivity|].
  split; [rewrite Hreset; reflexivity|].
  split; [exact Hstore|]. split; [reflexivity|].
  split; assumption.
Defined.

End FixedWindow.

(** ** Authentication *)

Section Authentication.

Import Auth.

(** C8, as the claim states it, fails: on the path /health a request
    with an X-API-Key that is not among the configured keys passes. *)
Lemma auth_health_passes_with_invalid_key :
  let req := with_header "/health" "X-API-Key" "wrong" in
  header req "X-API-Key" = Some "wrong"%string /\
  validKeys two_keys = ["k1"; "k2"]%string /\
  ("wrong"%string ∉ validKeys two_keys) /\
  auth two_keys req = Next.
Proof.
  cbv zeta. split; [reflexivity|]. split; [reflexivity|].
  split; [|reflexivity].
  vm_compute. intros H. apply list_elem_of_In in H. simpl in H.
  intuition discriminate.
Qed.

(** An X-API-Key header that is present but empty counts as absent. *)
Lemma auth_empty_key_passes :
  let req := with_header "/api/echo" "X-API-Key" "" in
  header req "X-API-Key" = Some ""%string /\
  validKeys two_keys <> [] /\
  auth two_keys req = Next.
Proof. cbv zeta. split; [reflexivity|]. split; [discriminate|reflexivity]. Qed.

Lemma truthy_spec o :
  truthy o = true <-> exists k, o = Some k /\ k <> ""%string.
Proof.
  destruct o as [k|]; simpl.
  - rewrite negb_true_iff. split.
    + intros H. exists k. split; [reflexivity|].
      intros ->. discriminate.
    + intros (k' & [= <-] & Hk). apply String.eqb_neq. exact Hk.
  - split; [discriminate|]. intros (k & H & _). discriminate.
Qed.

Lemma validKeys_disabled env :
  API_KEYS env = None \/ API_KEYS env = Some ""%string ->
  validKeys env = [].
Proof. unfold validKeys. intros [-> | ->]; reflexivity. Qed.

(** C8, amended. Off the path /health, [auth] answers 401 exactly when
    a non-empty X-API-Key is present, the configured key set is
    non-empty and the key is not in it; /health always passes; an
    absent or empty API_KEYS passes every key; without a (non-empty)
    X-API-Key every request passes, with or without a Bearer token.
    [requireAuth] answers 401 when neither a non-empty X-API-Key nor a
    non-empty Authorization header is present, and otherwise does what
    [auth] does. *)
Theorem auth_spec (env : Env) (req : Request) :
  (status_of (auth env req) = Some 401 <->
   path req <> "/health"%string /\
   exists k, header req "X-API-Key" = Some k /\ k <> ""%string /\
             validKeys env <> [] /\ (k ∉ validKeys env)) /\
  (status_of (auth env req) <> Some 401 -> auth env req = Next) /\
  (path req = "/health"%string -> auth env req = Next) /\
  (API_KEYS env = None \/ API_KEYS env = Some ""%string ->
   auth env req = Next) /\
  (truthy (header req "X-API-Key") = false -> auth env req = Next) /\
  (truthy (header req "X-API-Key") = false ->
   truthy (header req "Authorization") = false ->
   status_of (requireAuth env req) = Some 401) /\
  (truthy (header req "X-API-Key") = true \/
   truthy (header req "Authorization") = true ->
   requireAuth env req = auth env req).
Proof.
  assert (Hnokey : truthy (header req "X-API-Key") = false ->
                   auth env req = Next).
  { intros Hk. unfold auth. rewrite Hk.
    destruct (String.eqb _ _); [reflexivity|].
    destruct (header req "Authorization") as [h|]; [|reflexivity].
    destruct (String.prefix _ _); [|reflexivity].
    destruct (negb _); reflexivity. }
  assert (Hiff : status_of (auth env req) = Some 401 <->
    path req <> "/health"%string /\
    exists k, header req "X-API-Key" = Some k /\ k <> ""%string /\
              validKeys env <> [] /\ (k ∉ validKeys env)).
  { unfold auth.
    destruct (String.eqb (path req) "/health") eqn:Hp.
    - apply String.eqb_eq in Hp. simpl. split; [discriminate|tauto].
    - apply String.eqb_neq in Hp.
      destruct (truthy (header req "X-API-Key")) eqn:Hk.
      + apply truthy_spec in Hk as (k & Hk & Hne). rewrite Hk. simpl.
        destruct (validKeys env) as [|v vs] eqn:Hv; simpl.
        * split; [discriminate|].
          intros (_ & k' & _ & _ & Hc & _). contradiction.
        * case_bool_decide as Hin; simpl.
          -- split; [discriminate|].
             intros (_ & k' & [= <-] & _ & _ & Hc). contradiction.
          -- split; [|reflexivity]. intros _. split; [exact Hp|].
             exists k. repeat split; [exact Hne|discriminate|exact Hin].
      + assert (E : status_of
                 match header req "Authorization" with
                 | Some h =>
                     if String.prefix "Bearer " h
                     then if negb (slice_from 7 h =? "")%string
                          then Next else Next
                     else Next
                 | None => Next
                 end = None).
        { destruct (header req "Authorization") as [h|]; [|reflexivity].
          destruct (String.prefix _ _); [|reflexivity].
          destruct (negb _); reflexivity. }
        rewrite E. split; [discriminate|].
        intros (_ & k & Hk' & Hne & _).
        assert (Ht : truthy (header req "X-API-Key") = true)
          by (apply truthy_spec; eauto).
        congruence. }
  split; [exact Hiff|].
  split.
  { intros Hs. unfold auth in *.
    destruct (String.eqb _ _); [reflexivity|].
    destruct (truthy (header req "X-API-Key")) eqn:Hk.
    - destruct (_ && _)%bool; [|reflexivity]. simpl in Hs. congruence.
    - destruct (header req "Authorization") as [h|]; [|reflexivity].
      destruct (String.prefix _ _); [|reflexivity].
      destruct (negb _); reflexivity. }
  split.
  { intros Hp. unfold auth. rewrite Hp. reflexivity. }
  split.
  { intros Hd. unfold auth. rewrite (validKeys_disabled env Hd).
    destruct (String.eqb _ _); [reflexivity|].
    destruct (truthy (header req "X-API-Key")) eqn:Hk; [reflexivity|].
    destruct (header req "Authorization") as [h|]; [|reflexivity].
    destruct (String.prefix _ _); [|reflexivity].
    destruct (negb _); reflexivity. }
  split; [exact Hnokey|].
  split.
  { intros Hk Ha. unfold requireAuth. rewrite Hk, Ha. reflexivity. }
  intros Hor. unfold requireAuth.
  destruct Hor as [-> | ->]; [reflexivity|].
  rewrite andb_false_r. reflexivity.
Qed.

Lemma auth_spec_witness :
  let req := with_header "/api/echo" "X-API-Key" "wrong" in
  (path req <> "/health"%string /\
   exists k, header req "X-API-Key" = Some k /\ k <> ""%string /\
             validKeys two_keys <> [] /\ (k ∉ validKeys two_keys)) /\
  status_of (auth two_keys req) = Some 401 /\
  truthy (header anonymous_request "X-API-Key") = false /\
  truthy (header anonymous_request "Authorization") = false /\
  auth two_keys anonymous_request = Next /\
  status_of (requireAuth two_keys anonymous_request) = Some 401.
Proof.
  cbv zeta.
  assert (H : path (with_header "/api/echo" "X-API-Key" "wrong")
                <> "/health"%string /\
    exists k,
      header (with_header "/api/echo" "X-API-Key" "wrong") "X-API-Key"
        = Some k /\ k <> ""%string /\
      validKeys two_keys <> [] /\ (k ∉ validKeys two_keys)).
  { split; [discriminate|]. exists "wrong"%string.
    split; [reflexivity|]. split; [discriminate|].
    split; [discriminate|].
    vm_compute. intros H. apply list_elem_of_In in H. simpl in H.
    intuition discriminate. }
  split; [exact H|].
  destruct (auth_spec two_keys
              (with_header "/api/echo" "X-API-Key" "wrong"))
    as (Hiff & _).
  destruct (auth_spec two_keys anonymous_request)
    as (_ & _ & _ & _ & Hpass & Hstrict & _).
  split; [apply Hiff, H|].
  split; [reflexivity|]. split; [reflexivity|].
  split; [apply Hpass; reflexivity|].
  apply Hstrict; reflexivity.
Defined.

End Authentication.

(** * Further properties of the limiters *)

Section LimiterSteps.

Ltac unfold_checks :=
  unfold limiter_check, SlidingWindowLimiter.check, TokenBucketLimiter.check,
    LeakyBucketLimiter.check, mbind, M_bind, kv_get_state, kv_put,
    mret, M_ret, outside.

(** X1. A denial writes nothing: the store after a denied [check] of any
    of the three limiters is the store before it. *)
Theorem limiter_denied_leaves_store (l : Limiter) key now kv r kv' :
  limiter_check l key now kv = Returned r kv' ->
  RateLimitResult.allowed r = false ->
  kv' = kv.
Proof.
  destruct l as [l|l|l]; unfold_checks;
    intros H Ha; repeat case_match; simplify_eq; try reflexivity;
    discriminate.
Qed.

Lemma limiter_denied_leaves_store_witness :
  exists r kv',
    limiter_check tb_ten "alice" 400 tb_store = Returned r kv' /\
    RateLimitResult.allowed r = false /\
    kv' = tb_store.
Proof.
  assert (H : exists r kv',
            limiter_check tb_ten "alice" 400 tb_store = Returned r kv' /\
            RateLimitResult.allowed r = false)
    by (do 2 eexists; split; [vm_compute; reflexivity|reflexivity]).
  destruct H as (r & kv' & Hc & Ha).
  exists r, kv'. split; [exact Hc|]. split; [exact Ha|].
  exact (limiter_denied_leaves_store tb_ten "alice" 400 tb_store r kv' Hc Ha).
Defined.

Lemma string_app_inj_r (p a b : string) : p +:+ a = p +:+ b -> a = b.
Proof.
  induction p as [|c p IH]; simpl; [tauto|].
  intros [= H]. apply IH, H.
Qed.

Lemma kv_get_state_insert_ne k k' e kv :
  k' <> k ->
  kv_get_state k (<[k' := e]> kv) =
    match kv_get_state k kv with
    | Returned a kv0 => Returned a (<[k' := e]> kv0)
    | TypeError => TypeError
    | OutsideModel => OutsideModel
    end.
Proof.
  intros Hne. unfold kv_get_state. rewrite lookup_insert_ne by exact Hne.
  destruct (kv !! k) as [[[?| |] ?]|]; reflexivity.
Qed.

(** X2. Clients are isolated: a [check] for one client neither reads nor
    writes what the same limiter keeps for another client.  Whatever is
    stored for the other client, the result is the same, and the other
    client's entry is still there afterwards. *)
Theorem limiter_check_frame (l : Limiter) key other e now kv :
  other <> key ->
  limiter_check l key now (<[state_key l other := e]> kv) =
    match limiter_check l key now kv with
    | Returned r kv' => Returned r (<[state_key l other := e]> kv')
    | TypeError => TypeError
    | OutsideModel => OutsideModel
    end.
Proof.
  intros Hne.
  assert (Hk : state_key l other <> state_key l key).
  { destruct l; simpl; intros E; apply string_app_inj_r in E; congruence. }
  revert Hk.
  destruct l as [l|l|l]; simpl state_key; intros Hk;
    unfold limiter_check, SlidingWindowLimiter.check,
      TokenBucketLimiter.check, LeakyBucketLimiter.check, mbind, M_bind;
    rewrite (kv_get_state_insert_ne _ _ e kv Hk);
    destruct (kv_get_state _ kv) as [st kv0| |] eqn:Hg; try reflexivity;
    assert (kv0 = kv) as ->
      by (unfold kv_get_state in Hg; repeat case_match; congruence);
    repeat case_match; try reflexivity;
    unfold kv_put, mret, M_ret, outside in *; simplify_eq;
    try reflexivity; apply f_equal; apply insert_insert_ne; congruence.
Qed.

Lemma limiter_check_frame_witness :
  "bob"%string <> "alice"%string /\
  limiter_check tb_ten "alice" 1700
    (<[state_key tb_ten "bob" := mkEntry (VNumber 7) None]> tb_store) =
    match limiter_check tb_ten "alice" 1700 tb_store with
    | Returned r kv' =>
        Returned r (<[state_key tb_ten "bob" := mkEntry (VNumber 7) None]> kv')
    | TypeError => TypeError
    | OutsideModel => OutsideModel
    end.
Proof.
  assert (H : "bob"%string <> "alice"%string) by discriminate.
  split; [exact H|].
  exact (limiter_check_frame tb_ten "alice" "bob" (mkEntry (VNumber 7) None)
           1700 tb_store H).
Defined.

(** X3. An admitted request of the token bucket, at any cost, leaves a
    bucket that is never overdrawn: the stored tokens lie between 0 and
    [bucketSize - cost], the entry is stamped with the time of the
    request and kept for an hour, and [remaining] is their floor. *)
Theorem token_bucket_allowed_stores_bounded
  (l : TokenBucketLimiter.t) key cost now kv r kv' :
  TokenBucketLimiter.check l key cost now kv = Returned r kv' ->
  RateLimitResult.allowed r = true ->
  exists tk,
    kv' !! (TokenBucketLimiter.prefix l +:+ key) =
      Some (mkEntry (VLimiter (RateLimitState.mk None (Some tk) None now None))
              (Some 3600)) /\
    (0 <= tk)%Q /\
    (tk <= TokenBucketLimiter.bucketSize l - cost)%Q /\
    RateLimitResult.remaining r = Zq (Qfloor tk).
Proof.
  unfold TokenBucketLimiter.check, mbind, M_bind, kv_get_state, kv_put,
    mret, M_ret.
  destruct (kv !! _) as [[[st| |] ttl]|]; try discriminate;
    destruct (Qltb _ cost) eqn:Hlt; intros H Ha;
    try (injection H as Hr _; rewrite <- Hr in Ha; discriminate);
    apply Qltb_ge in Hlt.
  - exists (TokenBucketLimiter.refilled l now st - cost)%Q.
    assert (kv' = <[TokenBucketLimiter.prefix l +:+ key :=
              mkEntry (VLimiter (RateLimitState.mk None
                (Some (TokenBucketLimiter.refilled l now st - cost)%Q)
                None now None)) (Some 3600)]> kv) as -> by congruence.
    assert (r = RateLimitResult.mk true
              (Zq (Qfloor (TokenBucketLimiter.refilled l now st - cost)))
              (TokenBucketLimiter.bucketSize l)
              (Zq now + TokenBucketLimiter.refillInterval l)%Q None) as ->
      by congruence.
    split; [apply lookup_insert_eq|].
    split; [lra|]. split; [|reflexivity].
    unfold TokenBucketLimiter.refilled.
    pose proof (Q.le_min_l (TokenBucketLimiter.bucketSize l)
      (or0 (RateLimitState.tokens st)
       + Zq (Qfloor (Zq (now - RateLimitState.lastUpdate st)
                     / TokenBucketLimiter.refillInterval l)))%Q).
    lra.
  - exists (TokenBucketLimiter.bucketSize l - cost)%Q.
    assert (kv' = <[TokenBucketLimiter.prefix l +:+ key :=
              mkEntry (VLimiter (RateLimitState.mk None
                (Some (TokenBucketLimiter.bucketSize l - cost)%Q)
                None now None)) (Some 3600)]> kv) as -> by congruence.
    assert (r = RateLimitResult.mk true
              (Zq (Qfloor (TokenBucketLimiter.bucketSize l - cost)))
              (TokenBucketLimiter.bucketSize l)
              (Zq now + TokenBucketLimiter.refillInterval l)%Q None) as ->
      by congruence.
    split; [apply lookup_insert_eq|].
    split; [lra|]. split; [lra|reflexivity].
Qed.

Lemma token_bucket_allowed_stores_bounded_witness :
  exists r kv',
    TokenBucketLimiter.check (TokenBucketLimiter.new 10 2 "rl:tb:")
      "alice" 1 1700 tb_store = Returned r kv' /\
    RateLimitResult.allowed r = true /\
    exists tk,
      kv' !! ("rl:tb:" +:+ "alice")%string =
        Some (mkEntry
                (VLimiter (RateLimitState.mk None (Some tk) None 1700 None))
                (Some 3600)) /\
      (0 <= tk)%Q /\ (tk <= 10 - 1)%Q /\
      RateLimitResult.remaining r = Zq (Qfloor tk).
Proof.
  assert (H : exists r kv',
            TokenBucketLimiter.check (TokenBucketLimiter.new 10 2 "rl:tb:")
              "alice" 1 1700 tb_store = Returned r kv' /\
            RateLimitResult.allowed r = true)
    by (do 2 eexists; split; [vm_compute; reflexivity|reflexivity]).
  destruct H as (r & kv' & Hc & Ha).
  exists r, kv'. split; [exact Hc|]. split; [exact Ha|].
  exact (token_bucket_allowed_stores_bounded
           (TokenBucketLimiter.new 10 2 "rl:tb:") "alice" 1 1700 tb_store
           r kv' Hc Ha).
Defined.

Lemma Returned_inj {A} (a b : A) kv kv' :
  Returned a kv = Returned b kv' -> a = b /\ kv = kv'.
Proof. intros H. split; congruence. Qed.

Lemma ceiling_pos (x : Q) : (0 < x)%Q -> 1 <= Qceiling x.
Proof.
  intros Hx. pose proof (Qle_ceiling x) as H.
  assert (Hc : (0 < inject_Z (Qceiling x))%Q) by lra.
  change 0%Q with (inject_Z 0) in Hc. rewrite <- Zlt_Qlt in Hc. lia.
Qed.

Lemma Zq_ge_1 (z : Z) : 1 <= z -> (1 <= Zq z)%Q.
Proof.
  intros H. unfold Zq. change 1%Q with (inject_Z 1).
  rewrite <- Zle_Qle. exact H.
Qed.

(** A denial of the token bucket, at any cost. *)
Lemma token_bucket_denied_retryAfter (l : TokenBucketLimiter.t)
  key cost now kv r kv' :
  (0 < TokenBucketLimiter.refillInterval l)%Q ->
  TokenBucketLimiter.check l key cost now kv = Returned r kv' ->
  RateLimitResult.allowed r = false ->
  exists q, RateLimitResult.retryAfter r = Some q /\ (1 <= q)%Q.
Proof.
  intros Hri.
  unfold TokenBucketLimiter.check, mbind, M_bind, kv_get_state, kv_put,
    mret, M_ret.
  destruct (kv !! _) as [[[st| |] ttl]|]; try discriminate;
    destruct (Qltb _ cost) eqn:Hlt; intros H Ha;
    apply Returned_inj in H as [<- <-]; try discriminate;
    apply Qltb_lt in Hlt;
    (eexists; split; [reflexivity|]);
    apply Zq_ge_1, ceiling_pos;
    (apply Qlt_shift_div_l; [reflexivity|]);
    rewrite Qmult_0_l;
    match goal with
    | |- (0 < Zq (Qceiling ?x))%Q =>
        assert (Hx : (0 < x)%Q)
          by (apply Qmult_lt_0_compat; [lra|exact Hri]);
        pose proof (Zq_ge_1 _ (ceiling_pos x Hx)); lra
    end.
Qed.

(** A denial of any of the three limiters tells the client to wait at
    least one second. *)
Lemma limiter_denied_retryAfter (l : Limiter) key now kv r kv' :
  positive_rate l ->
  limiter_check l key now kv = Returned r kv' ->
  RateLimitResult.allowed r = false ->
  exists q, RateLimitResult.retryAfter r = Some q /\ (1 <= q)%Q.
Proof.
  destruct l as [l|l|l]; simpl; intros Hpos.
  - unfold SlidingWindowLimiter.check, mbind, M_bind, kv_get_state, kv_put,
      mret, M_ret, outside.
    intros H Ha; repeat case_match; try discriminate;
      apply Returned_inj in H as [<- <-]; try discriminate;
      (eexists; split; [reflexivity|]); apply Zq_ge_1; lia.
  - apply token_bucket_denied_retryAfter, Hpos.
  - unfold LeakyBucketLimiter.check, mbind, M_bind, kv_get_state, kv_put,
      mret, M_ret.
    destruct (kv !! _) as [[[st| |] ttl]|]; try discriminate;
      destruct (Qgeb _ _) eqn:Hge; intros H Ha;
      apply Returned_inj in H as [<- <-]; try discriminate;
      apply Qgeb_ge in Hge;
      (eexists; split; [reflexivity|]);
      apply Zq_ge_1, ceiling_pos;
      (apply Qlt_shift_div_l; [exact Hpos|]); rewrite Qmult_0_l; lra.
Qed.

(** X5. The headers of a limiter's answer: limit, remaining and reset
    are always there; [Retry-After] is absent when the request is
    allowed, and when it is denied it is there, equal to the result's
    [retryAfter] and at least one second. *)
Theorem headers_of_limiter_result (l : Limiter) key now kv r kv' :
  positive_rate l ->
  limiter_check l key now kv = Returned r kv' ->
  let h := createRateLimitHeaders r in
  h !! "X-RateLimit-Limit"%string = Some (RateLimitResult.limit r) /\
  h !! "X-RateLimit-Remaining"%string = Some (RateLimitResult.remaining r) /\
  h !! "X-RateLimit-Reset"%string =
    Some (Zq (Qceiling (RateLimitResult.reset r / 1000))) /\
  (RateLimitResult.allowed r = true -> h !! "Retry-After"%string = None) /\
  (RateLimitResult.allowed r = false ->
   exists q, h !! "Retry-After"%string = Some q /\ (1 <= q)%Q /\
             RateLimitResult.retryAfter r = Some q).
Proof.
  intros Hpos Hc h. subst h. unfold createRateLimitHeaders.
  set (base := <["X-RateLimit-Reset"%string := _]> _).
  assert (Hbase :
    base !! "X-RateLimit-Limit"%string = Some (RateLimitResult.limit r) /\
    base !! "X-RateLimit-Remaining"%string
      = Some (RateLimitResult.remaining r) /\
    base !! "X-RateLimit-Reset"%string =
      Some (Zq (Qceiling (RateLimitResult.reset r / 1000))) /\
    base !! "Retry-After"%string = None).
  { subst base. repeat split; reflexivity. }
  destruct Hbase as (H1 & H2 & H3 & H4).
  destruct (RateLimitResult.allowed r) eqn:Ha.
  - rewrite (limiter_allowed_no_retryAfter l key now kv r kv' Hc Ha).
    repeat (split; [assumption|]). split; [intros _; exact H4|discriminate].
  - destruct (limiter_denied_retryAfter l key now kv r kv' Hpos Hc Ha)
      as (q & Hq & Hge).
    rewrite Hq.
    assert (Hz : Qeq_bool q 0 = false).
    { apply not_true_iff_false. intros E. apply Qeq_bool_eq in E. lra. }
    rewrite Hz.
    rewrite !lookup_insert_ne by discriminate.
    repeat (split; [assumption|]). split; [discriminate|].
    intros _. exists q.
    split; [apply lookup_insert_eq|]. split; [exact Hge|reflexivity].
Qed.

Lemma headers_of_limiter_result_witness :
  positive_rate tb_ten /\
  exists r kv',
    limiter_check tb_ten "alice" 400 tb_store = Returned r kv' /\
    RateLimitResult.allowed r = false /\
    createRateLimitHeaders r !! "X-RateLimit-Limit"%string
      = Some (RateLimitResult.limit r) /\
    exists q,
      createRateLimitHeaders r !! "Retry-After"%string = Some q /\
      (1 <= q)%Q.
Proof.
  assert (Hp : positive_rate tb_ten) by reflexivity.
  split; [exact Hp|].
  assert (H : exists r kv',
            limiter_check tb_ten "alice" 400 tb_store = Returned r kv' /\
            RateLimitResult.allowed r = false)
    by (do 2 eexists; split; [vm_compute; reflexivity|reflexivity]).
  destruct H as (r & kv' & Hc & Ha).
  exists r, kv'. split; [exact Hc|]. split; [exact Ha|].
  destruct (headers_of_limiter_result tb_ten "alice" 400 tb_store r kv' Hp Hc)
    as (Hl & _ & _ & _ & Hd).
  split; [exact Hl|].
  destruct (Hd Ha) as (q & Hq & Hge & _).
  exists q. split; [exact Hq|exact Hge].
Defined.

End LimiterSteps.

(** ** Rounding to a double *)

(** [round64] is a rounding of the kind the theorems on the rounded
    leaky bucket ask for. *)
Section Rounding64.

Import Rounded.

Lemma two_nonzero : ~ (2 == 0)%Q.
Proof. discriminate. Qed.

Lemma pow2_pos (k : Z) : (0 < 2 ^ k)%Q.
Proof. apply Qpower_0_lt. reflexivity. Qed.

Lemma pow2_le (a b : Z) : a <= b -> (2 ^ a <= 2 ^ b)%Q.
Proof. intros H. apply Qpower_le_compat_l; [exact H|discriminate]. Qed.

Lemma pow2_cancel (x : Q) (p : Z) : (x * 2 ^ p * 2 ^ (- p) == x)%Q.
Proof.
  rewrite <- Qmult_assoc, <- Qpower_plus by exact two_nonzero.
  rewrite Z.add_opp_diag_r. change (2 ^ 0)%Q with 1%Q. apply Qmult_1_r.
Qed.

Lemma pow2_Z (k : Z) : 0 <= k -> (2 ^ k == Zq (2 ^ k))%Q.
Proof. intros H. unfold Zq. rewrite Zpower_Qpower by exact H. reflexivity. Qed.

Lemma Zq_lt_compat (a b : Z) : a < b -> (Zq a < Zq b)%Q.
Proof. intros H. unfold Zq. rewrite <- Zlt_Qlt. exact H. Qed.

Lemma Zq_le_compat (a b : Z) : a <= b -> (Zq a <= Zq b)%Q.
Proof. intros H. unfold Zq. rewrite <- Zle_Qle. exact H. Qed.

(** *** The exponent *)

Lemma exponent_spec (q : Q) :
  (0 < q)%Q -> (2 ^ exponent q <= q < 2 ^ (exponent q + 1))%Q.
Proof.
  intros Hq. destruct q as [n d]. unfold exponent. cbn [Qnum Qden].
  assert (Hn : 0 < n) by (unfold Qlt in Hq; simpl in Hq; lia).
  set (ln := Z.log2 n). set (ld := Z.log2 (Z.pos d)).
  assert (Hln : 2 ^ ln <= n < 2 ^ (ln + 1))
    by (unfold ln; pose proof (Z.log2_spec n Hn); rewrite <- Z.add_1_r in *;
        lia).
  assert (Hld : 2 ^ ld <= Z.pos d < 2 ^ (ld + 1))
    by (unfold ld; pose proof (Z.log2_spec (Z.pos d) ltac:(lia));
        rewrite <- Z.add_1_r in *; lia).
  assert (Hln0 : 0 <= ln) by apply Z.log2_nonneg.
  assert (Hld0 : 0 <= ld) by apply Z.log2_nonneg.
  assert (Eq : (n # d == Zq n / Zq (Z.pos d))%Q)
    by (unfold Zq; rewrite Qmake_Qdiv; reflexivity).
  assert (Hd : (0 < Zq (Z.pos d))%Q) by (apply (Zq_lt_compat 0); lia).
  (* the bounds of numerator and denominator, among the rationals *)
  pose proof (pow2_pos ln) as Pn. pose proof (pow2_pos ld) as Pd.
  assert (Hn1 : (2 ^ ln <= Zq n)%Q) by (rewrite pow2_Z by lia; apply Zq_le_compat; lia).
  assert (Hn2 : (Zq n < 2 * 2 ^ ln)%Q).
  { assert (E : (2 * 2 ^ ln == 2 ^ (ln + 1))%Q)
      by (rewrite Qpower_plus by exact two_nonzero; change (2 ^ 1)%Q with 2%Q;
          ring).
    rewrite E, pow2_Z by lia. apply Zq_lt_compat; lia. }
  assert (Hd1 : (2 ^ ld <= Zq (Z.pos d))%Q)
    by (rewrite pow2_Z by lia; apply Zq_le_compat; lia).
  assert (Hd2 : (Zq (Z.pos d) < 2 * 2 ^ ld)%Q).
  { assert (E : (2 * 2 ^ ld == 2 ^ (ld + 1))%Q)
      by (rewrite Qpower_plus by exact two_nonzero; change (2 ^ 1)%Q with 2%Q;
          ring).
    rewrite E, pow2_Z by lia. apply Zq_lt_compat; lia. }
  pose proof (pow2_pos (ln - ld)) as Pk.
  assert (Ek : (2 ^ (ln - ld) * 2 ^ ld == 2 ^ ln)%Q).
  { rewrite <- Qpower_plus by exact two_nonzero.
    replace (ln - ld + ld) with ln by lia. reflexivity. }
  assert (Ek1 : (2 ^ (ln - ld + 1) == 2 * 2 ^ (ln - ld))%Q)
    by (rewrite Qpower_plus by exact two_nonzero; change (2 ^ 1)%Q with 2%Q;
        ring).
  assert (Ek0 : (2 * 2 ^ (ln - ld - 1) == 2 ^ (ln - ld))%Q).
  { replace (ln - ld) with (ln - ld - 1 + 1) at 2 by lia.
    rewrite Qpower_plus by exact two_nonzero. change (2 ^ 1)%Q with 2%Q.
    ring. }
  set (A := Zq n) in *. set (D := Zq (Z.pos d)) in *.
  set (K := (2 ^ (ln - ld))%Q) in *. set (N := (2 ^ ln)%Q) in *.
  set (R := (2 ^ ld)%Q) in *.
  assert (Hup : (n # d < 2 ^ (ln - ld + 1))%Q).
  { rewrite Eq, Ek1. apply Qlt_shift_div_r; [exact Hd|]. nra. }
  assert (Hlo : (2 ^ (ln - ld - 1) <= n # d)%Q).
  { rewrite Eq. apply Qle_shift_div_l; [exact Hd|].
    set (K' := (2 ^ (ln - ld - 1))%Q) in *. nra. }
  destruct (Qle_bool K (n # d)) eqn:Hb.
  - apply Qle_bool_iff in Hb. split; [exact Hb|exact Hup].
  - assert (Hlt : (n # d < K)%Q).
    { apply Qnot_le_lt. intros H. apply Qle_bool_iff in H. congruence. }
    split; [exact Hlo|]. replace (ln - ld - 1 + 1) with (ln - ld) by lia.
    exact Hlt.
Qed.

Lemma exponent_le (x y : Q) :
  (0 < x)%Q -> (x <= y)%Q -> exponent x <= exponent y.
Proof.
  intros Hx Hxy.
  destruct (exponent_spec x Hx) as [Hx1 _].
  destruct (exponent_spec y ltac:(lra)) as [_ Hy2].
  destruct (Z_lt_le_dec (exponent y) (exponent x)) as [H|H]; [|exact H].
  exfalso. pose proof (pow2_le (exponent y + 1) (exponent x) ltac:(lia)).
  lra.
Qed.

(** *** The nearest integer *)

Lemma nearest_even_bounds (t : Q) :
  Qfloor t <= nearest_even t <= Qfloor t + 1.
Proof.
  unfold nearest_even. destruct (Qcompare _ _); [destruct (Z.even _)| |]; lia.
Qed.

Lemma nearest_even_floor (t u : Q) :
  Qfloor t = Qfloor u -> (t <= u)%Q -> nearest_even t <= nearest_even u.
Proof.
  intros E Htu. unfold nearest_even. rewrite <- E.
  set (f := Qfloor t).
  destruct (Qcompare (t - Zq f) (1 # 2)) eqn:Ct;
    destruct (Qcompare (u - Zq f) (1 # 2)) eqn:Cu;
    try (destruct (Z.even f)); try lia; exfalso;
    repeat match goal with
    | H : Qcompare _ _ = Eq |- _ => apply Qeq_alt in H
    | H : Qcompare _ _ = Lt |- _ => apply Qlt_alt in H
    | H : Qcompare _ _ = Gt |- _ => apply Qgt_alt in H
    end; lra.
Qed.

Lemma nearest_even_le (t u : Q) :
  (t <= u)%Q -> nearest_even t <= nearest_even u.
Proof.
  intros Htu.
  pose proof (Qfloor_resp_le _ _ Htu) as Hf.
  destruct (Z.eq_dec (Qfloor t) (Qfloor u)) as [E|E].
  - apply nearest_even_floor; assumption.
  - pose proof (nearest_even_bounds t). pose proof (nearest_even_bounds u).
    lia.
Qed.

Lemma nearest_even_Z (t : Q) (n : Z) : (t == Zq n)%Q -> nearest_even t = n.
Proof.
  intros E.
  assert (H : nearest_even (Zq n) = n).
  { unfold nearest_even, Zq. rewrite Qfloor_Z.
    replace (Qcompare (inject_Z n - inject_Z n) (1 # 2)) with Lt;
      [reflexivity|].
    symmetry. apply Qlt_alt.
    assert (E0 : (inject_Z n - inject_Z n == 0)%Q) by ring.
    rewrite E0. reflexivity. }
  rewrite <- H. apply Z.le_antisymm; apply nearest_even_le; rewrite E;
    apply Qle_refl.
Qed.

(** *** Rounding *)

Lemma round_pos_nonneg (q : Q) : (0 < q)%Q -> (0 <= round_pos q)%Q.
Proof.
  intros Hq. unfold round_pos.
  set (p := 52 - Z.max (exponent q) (-1022)).
  pose proof (pow2_pos p). pose proof (pow2_pos (- p)).
  apply Qmult_le_0_compat; [|lra].
  apply (Zq_le_compat 0). rewrite <- (nearest_even_Z 0 0) by reflexivity.
  apply nearest_even_le. nra.
Qed.

(** What is rounded at the spacing of the exponent [e] lies between
    2^e and 2^(e+1). *)
Lemma round_at_upper (q : Q) (e : Z) :
  (q <= 2 ^ (e + 1))%Q ->
  (Zq (nearest_even (q * 2 ^ (52 - e))) * 2 ^ (- (52 - e)) <= 2 ^ (e + 1))%Q.
Proof.
  intros Hq. set (p := 52 - e).
  pose proof (pow2_pos p) as Pp. pose proof (pow2_pos (- p)) as Pm.
  assert (E : (2 ^ (e + 1) * 2 ^ p == Zq (2 ^ 53))%Q).
  { rewrite <- Qpower_plus by exact two_nonzero.
    replace (e + 1 + p) with 53 by (unfold p; lia). reflexivity. }
  assert (H : nearest_even (q * 2 ^ p) <= 2 ^ 53).
  { rewrite <- (nearest_even_Z _ _ E). apply nearest_even_le.
    apply Qmult_le_compat_r; [exact Hq|lra]. }
  apply Zq_le_compat in H.
  assert (E2 : (2 ^ (e + 1) == Zq (2 ^ 53) * 2 ^ (- p))%Q)
    by (rewrite <- E; symmetry; apply pow2_cancel).
  rewrite E2. apply Qmult_le_compat_r; [exact H|lra].
Qed.

Lemma round_at_lower (q : Q) (e : Z) :
  (2 ^ e <= q)%Q ->
  (2 ^ e <= Zq (nearest_even (q * 2 ^ (52 - e))) * 2 ^ (- (52 - e)))%Q.
Proof.
  intros Hq. set (p := 52 - e).
  pose proof (pow2_pos p) as Pp. pose proof (pow2_pos (- p)) as Pm.
  assert (E : (2 ^ e * 2 ^ p == Zq (2 ^ 52))%Q).
  { rewrite <- Qpower_plus by exact two_nonzero.
    replace (e + p) with 52 by (unfold p; lia). reflexivity. }
  assert (H : 2 ^ 52 <= nearest_even (q * 2 ^ p)).
  { rewrite <- (nearest_even_Z _ _ E). apply nearest_even_le.
    apply Qmult_le_compat_r; [exact Hq|lra]. }
  apply Zq_le_compat in H.
  assert (E2 : (2 ^ e == Zq (2 ^ 52) * 2 ^ (- p))%Q)
    by (rewrite <- E; symmetry; apply pow2_cancel).
  rewrite E2. apply Qmult_le_compat_r; [exact H|lra].
Qed.

Lemma round_pos_le (x y : Q) :
  (0 < x)%Q -> (x <= y)%Q -> (round_pos x <= round_pos y)%Q.
Proof.
  intros Hx Hxy. assert (Hy : (0 < y)%Q) by lra.
  pose proof (exponent_le x y Hx Hxy) as He.
  destruct (exponent_spec x Hx) as [_ Hx2].
  destruct (exponent_spec y Hy) as [Hy1 _].
  unfold round_pos.
  set (ex := Z.max (exponent x) (-1022)).
  set (ey := Z.max (exponent y) (-1022)).
  destruct (Z.eq_dec ex ey) as [E|E].
  - rewrite E. pose proof (pow2_pos (52 - ey)). pose proof (pow2_pos (- (52 - ey))).
    apply Qmult_le_compat_r; [|lra].
    apply Zq_le_compat, nearest_even_le. apply Qmult_le_compat_r; [exact Hxy|lra].
  - assert (Hlt : ex < ey) by (unfold ex, ey in *; lia).
    assert (Hey : ey = exponent y) by (unfold ex, ey in *; lia).
    apply Qle_trans with (2 ^ (ex + 1))%Q.
    + apply round_at_upper.
      apply Qle_trans with (2 ^ (exponent x + 1))%Q; [lra|].
      apply pow2_le. unfold ex. lia.
    + apply Qle_trans with (2 ^ ey)%Q; [apply pow2_le; lia|].
      apply round_at_lower. rewrite Hey. exact Hy1.
Qed.

Lemma round_pos_Z (z : Z) :
  0 < z <= MAX_SAFE_INTEGER -> (round_pos (Zq z) == Zq z)%Q.
Proof.
  intros [Hz Hmax]. unfold MAX_SAFE_INTEGER in Hmax.
  assert (Hq : (0 < Zq z)%Q) by (apply (Zq_lt_compat 0); exact Hz).
  destruct (exponent_spec (Zq z) Hq) as [He1 He2].
  set (e := exponent (Zq z)) in *.
  assert (He0 : 0 <= e).
  { destruct (Z_lt_le_dec e 0) as [H|H]; [|exact H]. exfalso.
    pose proof (pow2_le (e + 1) 0 ltac:(lia)) as H1.
    change (2 ^ 0)%Q with 1%Q in H1.
    assert (H2 : (Zq 1 <= Zq z)%Q) by (apply Zq_le_compat; lia).
    change (Zq 1) with 1%Q in H2. lra. }
  assert (He52 : e <= 52).
  { destruct (Z_lt_le_dec 52 e) as [H|H]; [|exact H]. exfalso.
    pose proof (pow2_le 53 e ltac:(lia)) as H1.
    assert (H2 : (Zq z < Zq (2 ^ 53))%Q) by (apply Zq_lt_compat; lia).
    assert (H3 : (2 ^ 53 == Zq (2 ^ 53))%Q) by reflexivity.
    lra. }
  unfold round_pos. fold e. rewrite Z.max_l by lia.
  set (p := 52 - e).
  assert (E : (Zq z * 2 ^ p == Zq (z * 2 ^ p))%Q).
  { rewrite pow2_Z by (unfold p; lia). unfold Zq.
    rewrite inject_Z_mult. reflexivity. }
  rewrite (nearest_even_Z _ _ E), <- E. apply pow2_cancel.
Qed.

Lemma round64_monotone : monotone round64.
Proof.
  intros x y Hxy. unfold round64.
  destruct (Qcompare x 0) eqn:Cx; destruct (Qcompare y 0) eqn:Cy;
    repeat match goal with
    | H : Qcompare _ _ = Eq |- _ => apply Qeq_alt in H
    | H : Qcompare _ _ = Lt |- _ => apply Qlt_alt in H
    | H : Qcompare _ _ = Gt |- _ => apply Qgt_alt in H
    end;
    try (exfalso; lra); try apply Qle_refl.
  - apply round_pos_nonneg. exact Cy.
  - pose proof (round_pos_nonneg (- x) ltac:(lra)). lra.
  - pose proof (round_pos_le (- y) (- x) ltac:(lra) ltac:(lra)). lra.
  - pose proof (round_pos_nonneg (- x) ltac:(lra)).
    pose proof (round_pos_nonneg y Cy). lra.
  - apply round_pos_le; [exact Cx|exact Hxy].
Qed.

Lemma round64_exact : exact_on_safe_integers round64.
Proof.
  intros z [Hlo Hhi]. unfold round64.
  destruct (Qcompare (Zq z) 0) eqn:C.
  - apply Qeq_alt in C. symmetry. exact C.
  - apply Qlt_alt in C.
    assert (Hz : z < 0).
    { change 0%Q with (Zq 0) in C. unfold Zq in C.
      rewrite <- Zlt_Qlt in C. exact C. }
    assert (E : (- Zq z == Zq (- z))%Q)
      by (unfold Zq; rewrite inject_Z_opp; reflexivity).
    assert (R : (round_pos (- Zq z) == round_pos (Zq (- z)))%Q).
    { apply Qle_antisym; apply round_pos_le; rewrite ?E;
        try apply Qle_refl; apply (Zq_lt_compat 0); lia. }
    rewrite R, round_pos_Z by lia. rewrite <- E. ring.
  - apply Qgt_alt in C.
    assert (Hz : 0 < z).
    { change 0%Q with (Zq 0) in C. unfold Zq in C.
      rewrite <- Zlt_Qlt in C. exact C. }
    apply round_pos_Z. lia.
Qed.

End Rounding64.

(** ** The leaky bucket under rounding *)

Section RoundedLevel.

Import Rounded.

Lemma safe_integer_1 : safe_integer 1.
Proof. unfold safe_integer, MAX_SAFE_INTEGER. lia. Qed.

(** What a rounding does to a level that is being raised by 1. *)
Lemma rounded_level_bounds (rnd : Q -> Q) (w : Q) (b : Z) :
  monotone rnd -> exact_on_safe_integers rnd ->
  safe_integer (b + 1) ->
  (0 <= w)%Q -> (w < Zq b)%Q ->
  (1 <= rnd (w + 1) <= Zq b + 1)%Q.
Proof.
  intros Hmono Hexact Hb H0 Hw.
  pose proof (Hexact 1 safe_integer_1) as E1.
  pose proof (Hexact (b + 1) Hb) as Eb.
  assert (E : (Zq (b + 1) == Zq b + 1)%Q)
    by (unfold Zq; rewrite inject_Z_plus; reflexivity).
  assert (M1 : (rnd (Zq 1) <= rnd (w + 1))%Q)
    by (apply Hmono; change (Zq 1) with 1%Q; lra).
  assert (Mb : (rnd (w + 1) <= rnd (Zq (b + 1)))%Q)
    by (apply Hmono; lra).
  change (Zq 1) with 1%Q in *. split; lra.
Qed.

(** X4. An admitted request of the leaky bucket stores a water level of
    at least 1 and at most [bucketSize + 1], stamped with the time of
    the request and kept for an hour: for a bucket of a whole size, and
    whatever the rounding of the arithmetic, as long as it is monotone
    and exact on the safe integers. *)
Theorem leaky_bucket_allowed_stores_bounded
  (rnd : Q -> Q) (l : LeakyBucketLimiter.t) (b : Z) key now kv r kv' :
  monotone rnd -> exact_on_safe_integers rnd ->
  (LeakyBucketLimiter.bucketSize l == Zq b)%Q -> safe_integer (b + 1) ->
  Rounded.LeakyBucketLimiter.check rnd l key now kv = Returned r kv' ->
  RateLimitResult.allowed r = true ->
  exists level,
    kv' !! (LeakyBucketLimiter.prefix l +:+ key) =
      Some (mkEntry
              (VLimiter (RateLimitState.mk (Some level) None None now None))
              (Some 3600)) /\
    (1 <= level)%Q /\
    (level <= LeakyBucketLimiter.bucketSize l + 1)%Q.
Proof.
  intros Hmono Hexact Hsize Hb.
  unfold Rounded.LeakyBucketLimiter.check, mbind, M_bind, kv_get_state,
    kv_put, mret, M_ret.
  destruct (kv !! _) as [[[st| |] ttl]|]; try discriminate;
    destruct (Qgeb _ _) eqn:Hge; intros H Ha;
    apply Returned_inj in H as [<- <-]; try discriminate;
    unfold Qgeb in Hge; apply not_true_iff_false in Hge;
    rewrite Qle_bool_iff in Hge; apply Qnot_le_lt in Hge;
    eexists; (split; [apply lookup_insert_eq|]); rewrite Hsize in *;
    apply (rounded_level_bounds rnd _ b Hmono Hexact Hb);
    try exact Hge; try apply Q.le_max_l; try lra.
Qed.

(** The third of the requests at 0, 3 and 1000 ms, the arithmetic
    being rounded as doubles are: it is admitted, and the level stored
    is 2, the whole of [bucketSize + 1]. *)
Lemma leaky_bucket_allowed_stores_bounded_witness :
  monotone round64 /\ exact_on_safe_integers round64 /\
  (LeakyBucketLimiter.bucketSize lb_one == Zq 1)%Q /\
  safe_integer (1 + 1) /\
  exists r kv',
    Rounded.LeakyBucketLimiter.check round64 lb_one "k" 1000 lb_after_two
      = Returned r kv' /\
    RateLimitResult.allowed r = true /\
    exists level,
      kv' !! (LeakyBucketLimiter.prefix lb_one +:+ "k") =
        Some (mkEntry
                (VLimiter
                   (RateLimitState.mk (Some level) None None 1000 None))
                (Some 3600)) /\
      (1 <= level)%Q /\
      (level <= LeakyBucketLimiter.bucketSize lb_one + 1)%Q.
Proof.
  assert (H1 : (LeakyBucketLimiter.bucketSize lb_one == Zq 1)%Q)
    by reflexivity.
  assert (H2 : safe_integer (1 + 1))
    by (unfold safe_integer, MAX_SAFE_INTEGER; lia).
  assert (H : exists r kv',
            Rounded.LeakyBucketLimiter.check round64 lb_one "k" 1000
              lb_after_two = Returned r kv' /\
            RateLimitResult.allowed r = true)
    by (do 2 eexists; split; [vm_compute; reflexivity|reflexivity]).
  destruct H as (r & kv' & Hc & Ha).
  split; [exact round64_monotone|]. split; [exact round64_exact|].
  split; [exact H1|]. split; [exact H2|].
  exists r, kv'. split; [exact Hc|]. split; [exact Ha|].
  exact (leaky_bucket_allowed_stores_bounded round64 lb_one 1 "k" 1000
           lb_after_two r kv' round64_monotone round64_exact H1 H2 Hc Ha).
Defined.

(** There the upper bound is met: the level found at 1000 ms is
    0.99999999999999988897769753748434595763683319091796875 and the one
    stored is 2. *)
Lemma leaky_bucket_level_at_the_brim :
  exists r kv' level,
    Rounded.LeakyBucketLimiter.check round64 lb_one "k" 1000 lb_after_two
      = Returned r kv' /\
    kv' !! (LeakyBucketLimiter.prefix lb_one +:+ "k") =
      Some (mkEntry
              (VLimiter (RateLimitState.mk (Some level) None None 1000 None))
              (Some 3600)) /\
    (level == 2)%Q.
Proof.
  do 3 eexists. split; [vm_compute; reflexivity|].
  split; [vm_compute; reflexivity|]. reflexivity.
Qed.

End RoundedLevel.

(** * Runs of requests *)

(** ** Sliding window *)

Section SlidingWindowRuns.

Import SlidingWindowLimiter.

Lemma filter_filter_lt (c c' : Z) (us : list Z) :
  c <= c' ->
  filter (fun u => c' < u) (filter (fun u => c < u) us)
  = filter (fun u => c' < u) us.
Proof.
  intros Hc. induction us as [|u us IH]; [reflexivity|].
  rewrite (filter_cons (fun u => c < u)).
  destruct (decide (c < u)) as [Hu|Hu].
  - rewrite !filter_cons. destruct (decide (c' < u)); rewrite IH; reflexivity.
  - rewrite IH, filter_cons. destruct (decide (c' < u)); [lia|reflexivity].
Qed.

Lemma check_step (l : t) key now kv H :
  1 <= limit l ->
  stored_history l key kv = Some H ->
  let hist := filter (fun u => now - windowMs l < u) H in
  exists r kv',
    check l key now kv = Returned r kv' /\
    RateLimitResult.allowed r
      = bool_decide (Z.of_nat (length hist) < limit l) /\
    stored_history l key kv' =
      Some (if RateLimitResult.allowed r then hist ++ [now] else H).
Proof.
  intros Hlim HH hist. unfold stored_history in HH.
  unfold check, mbind, M_bind, kv_get_state, kv_put, mret, M_ret, outside.
  destruct (kv !! (prefix l +:+ key)) as [[[st| |] ttl]|] eqn:Hkv;
    try discriminate; injection HH as <-; fold hist; simpl default;
    fold hist.
  - case_bool_decide as Hc.
    + destruct hist as [|h0 hs] eqn:Eh; [simpl in Hc; lia|].
      simpl Math_min. cbv beta iota.
      do 2 eexists. split; [reflexivity|].
      simpl. rewrite bool_decide_eq_false_2 by (simpl in Hc; lia).
      split; [reflexivity|].
      unfold stored_history. rewrite Hkv. reflexivity.
    + do 2 eexists. split; [reflexivity|]. simpl.
      rewrite bool_decide_eq_true_2 by lia. split; [reflexivity|].
      unfold stored_history. rewrite lookup_insert_eq. reflexivity.
  - subst hist. simpl. rewrite bool_decide_eq_false_2 by (simpl; lia).
    do 2 eexists. split; [reflexivity|]. simpl.
    rewrite bool_decide_eq_true_2 by lia. split; [reflexivity|].
    unfold stored_history. rewrite lookup_insert_eq. reflexivity.
Qed.

Lemma filter_length_mono (P Q : Z -> Prop)
  `{forall u, Decision (P u)} `{forall u, Decision (Q u)} (us : list Z) :
  (forall u, P u -> Q u) ->
  (length (filter P us) <= length (filter Q us))%nat.
Proof.
  intros HPQ. induction us as [|u us IH]; [reflexivity|].
  rewrite !filter_cons.
  destruct (decide (P u)) as [Hp|Hp], (decide (Q u)) as [Hq|Hq]; simpl;
    try lia. exfalso. apply Hq, HPQ, Hp.
Qed.

Lemma in_window_snoc w t now (A : list Z) :
  in_window w t (A ++ [now]) =
    in_window w t A + (if decide (t - w < now /\ now <= t) then 1 else 0).
Proof.
  unfold in_window. rewrite filter_app, length_app, filter_cons, filter_nil.
  destruct (decide _); simpl; lia.
Qed.

Lemma run_inv_step (l : t) key A kv bound n now :
  1 <= limit l -> bound <= now ->
  run_inv l key A kv bound n ->
  exists r kv',
    check l key now kv = Returned r kv' /\
    run_inv l key (if RateLimitResult.allowed r then A ++ [now] else A)
      kv' now (S n).
Proof.
  intros Hlim Hb (H & HH & Hagree & Hwin & Hlen & Hmin).
  destruct (check_step l key now kv H Hlim HH) as (r & kv' & Hc & Ha & HH').
  cbv zeta in Ha, HH'.
  exists r, kv'. split; [exact Hc|].
  assert (Hhist : filter (fun u => now - windowMs l < u) H
                  = filter (fun u => now - windowMs l < u) A)
    by (apply Hagree; lia).
  rewrite Hhist in Ha, HH'.
  destruct (RateLimitResult.allowed r) eqn:Hr.
  - symmetry in Ha. apply bool_decide_eq_true in Ha.
    eexists. split; [exact HH'|]. split; [|split; [|split]].
    + intros c Hcge. rewrite !filter_app.
      rewrite filter_filter_lt by lia. reflexivity.
    + intros t. rewrite in_window_snoc.
      destruct (decide (t - windowMs l < now /\ now <= t)) as [[H1 H2]|Hn].
      * assert (in_window (windowMs l) t A
                <= Z.of_nat (length
                     (filter (fun u => now - windowMs l < u) A))).
        { unfold in_window. apply inj_le. apply filter_length_mono.
          intros u [Hu _]. lia. }
        lia.
      * specialize (Hwin t). lia.
    + rewrite length_app. simpl. lia.
    + rewrite length_app. simpl. lia.
  - symmetry in Ha. apply bool_decide_eq_false in Ha.
    eexists. split; [exact HH'|]. split; [|split; [|split]].
    + intros c Hcge. apply Hagree. lia.
    + exact Hwin.
    + lia.
    + assert (Z.of_nat (length (filter (fun u => now - windowMs l < u) A))
              <= Z.of_nat (length A)).
      { apply inj_le. apply length_filter. }
      lia.
Qed.

Lemma replay_run (l : t) key times :
  1 <= limit l ->
  forall A kv bound n,
    StronglySorted Z.le (bound :: times) ->
    run_inv l key A kv bound n ->
    exists A',
      replay (check l key) times kv = Some A' /\
      (forall t, in_window (windowMs l) t (A ++ A') <= limit l) /\
      Z.min (limit l) (Z.of_nat (n + length times))
        <= Z.of_nat (length (A ++ A')).
Proof.
  intros Hlim. induction times as [|now ts IH]; intros A kv bound n Hs Hinv.
  - exists []. rewrite app_nil_r, Nat.add_0_r.
    destruct Hinv as (H & _ & _ & Hwin & _ & Hmin). auto.
  - apply StronglySorted_inv in Hs as [Hs Hall].
    assert (Hb : bound <= now) by (apply Forall_cons in Hall; tauto).
    destruct (run_inv_step l key A kv bound n now Hlim Hb Hinv)
      as (r & kv' & Hc & Hinv').
    destruct (IH _ kv' now (S n) Hs Hinv') as (A' & Hr & Hwin & Hmin).
    simpl replay. rewrite Hc, Hr. simpl.
    eexists. split; [reflexivity|].
    destruct (RateLimitResult.allowed r);
      rewrite <- ?app_assoc in Hwin, Hmin; simpl in Hwin, Hmin;
      rewrite <- Nat.add_succ_comm; auto.
Qed.

(** X6. The sliding window keeps its promise over any run of requests:
    for a client seen for the first time and requests at non-decreasing
    instants, every check answers, no interval of [windowMs]
    milliseconds, wherever it ends, holds more than [limit] admitted
    requests, and at least the first [limit] requests get through. *)
Theorem sliding_window_never_exceeds_limit (l : t) key times kv :
  1 <= limit l ->
  StronglySorted Z.le times ->
  kv !! (prefix l +:+ key) = None ->
  exists admitted,
    replay (check l key) times kv = Some admitted /\
    (forall t, in_window (windowMs l) t admitted <= limit l) /\
    Z.min (limit l) (Z.of_nat (length times))
      <= Z.of_nat (length admitted).
Proof.
  intros Hlim Hs Hkv.
  destruct times as [|t0 ts].
  { exists []. split; [reflexivity|]. split; [intros t|]; simpl.
    - unfold in_window. simpl. lia.
    - lia. }
  destruct (replay_run l key (t0 :: ts) Hlim [] kv t0 0%nat)
    as (A' & Hr & Hwin & Hmin).
  - constructor; [exact Hs|]. constructor; [lia|].
    apply StronglySorted_inv in Hs as [_ Hall]. exact Hall.
  - exists []. unfold stored_history. rewrite Hkv.
    split; [reflexivity|]. split; [reflexivity|].
    split; [|split]; simpl; try lia.
    intros t. unfold in_window. simpl. lia.
  - exists A'. auto.
Qed.

Lemma sliding_window_never_exceeds_limit_witness :
  1 <= limit sw_two /\
  StronglySorted Z.le four_requests /\
  (∅ : gmap string entry) !! (prefix sw_two +:+ "k") = None /\
  exists admitted,
    replay (check sw_two "k") four_requests ∅ = Some admitted /\
    (forall t, in_window (windowMs sw_two) t admitted <= limit sw_two) /\
    Z.min (limit sw_two) (Z.of_nat (length four_requests))
      <= Z.of_nat (length admitted).
Proof.
  assert (H1 : 1 <= limit sw_two) by (simpl; lia).
  assert (H2 : StronglySorted Z.le four_requests)
    by (repeat (constructor; try lia)).
  assert (H3 : (∅ : gmap string entry) !! (prefix sw_two +:+ "k") = None)
    by reflexivity.
  split; [exact H1|]. split; [exact H2|]. split; [exact H3|].
  exact (sliding_window_never_exceeds_limit sw_two "k" four_requests ∅
           H1 H2 H3).
Defined.

End SlidingWindowRuns.

(** ** Token bucket *)

Section TokenBucketRuns.

Import TokenBucketLimiter.

Lemma check_step_tb (l : t) key cost now kv b :
  stored_bucket l key kv = Some b ->
  exists r kv',
    check l key cost now kv = Returned r kv' /\
    RateLimitResult.allowed r = negb (Qltb (available l now b) cost) /\
    stored_bucket l key kv' =
      Some (if RateLimitResult.allowed r
            then Some ((available l now b - cost)%Q, now) else b).
Proof.
  unfold stored_bucket, check, mbind, M_bind, kv_get_state, kv_put,
    mret, M_ret.
  destruct (kv !! (prefix l +:+ key)) as [[[st| |] ttl]|] eqn:Hkv;
    try discriminate; intros [= <-]; unfold available.
  - fold (refilled l now st).
    destruct (Qltb (refilled l now st) cost) eqn:Hlt;
      do 2 eexists; (split; [reflexivity|]); (split; [reflexivity|]);
      unfold RateLimitResult.allowed; cbv beta iota.
    + rewrite Hkv. reflexivity.
    + rewrite lookup_insert_eq. reflexivity.
  - destruct (Qltb (bucketSize l) cost) eqn:Hlt;
      do 2 eexists; (split; [reflexivity|]); (split; [reflexivity|]);
      unfold RateLimitResult.allowed; cbv beta iota.
    + rewrite Hkv. reflexivity.
    + rewrite lookup_insert_eq. reflexivity.
Qed.



Lemma Zq_le (a b : Z) : a <= b -> (Zq a <= Zq b)%Q.
Proof. intros H. unfold Zq. rewrite <- Zle_Qle. exact H. Qed.





Lemma burst_available (l : t) key b now k kv bkt :
  (bucketSize l == Zq b)%Q -> 0 <= k ->
  stored_bucket l key kv = Some bkt ->
  match bkt with
  | None => k = 0
  | Some (tk, tl) => tl = now /\ (tk == Zq (b - k))%Q
  end ->
  (available l now bkt == Zq (b - k))%Q.
Proof.
  intros HB Hk _ Hb. destruct bkt as [[tk tl]|]; unfold available.
  - destruct Hb as [-> Htk].
    assert (E : (Zq (now - now) / refillInterval l == 0)%Q).
    { rewrite Z.sub_diag. unfold Qdiv. apply Qmult_0_l. }
    rewrite (Qfloor_comp _ _ E). change (Qfloor 0) with 0.
    change (Zq 0) with 0%Q. rewrite Qplus_0_r.
    rewrite Q.min_r; [exact Htk|].
    rewrite Htk, HB. apply Zq_le. lia.
  - subst k. rewrite Z.sub_0_r. exact HB.
Qed.

Lemma replay_burst (l : t) key b now n :
  (bucketSize l == Zq b)%Q ->
  forall k kv,
    0 <= k ->
    burst_inv l key b now k kv ->
    replay (check l key 1) (replicate n now) kv
      = Some (replicate (Nat.min n (Z.to_nat (b - k))) now).
Proof.
  intros HB. induction n as [|n IH]; intros k kv Hk (bkt & Hs & Hb);
    [reflexivity|].
  destruct (check_step_tb l key 1 now kv bkt Hs) as (r & kv' & Hc & Ha & Hs').
  pose proof (burst_available l key b now k kv bkt HB ltac:(lia) Hs Hb) as Hav.
  simpl replicate. simpl replay. rewrite Hc.
  destruct (decide (k < b)) as [Hlt|Hge].
  - assert (Hr : RateLimitResult.allowed r = true).
    { rewrite Ha. apply negb_true_iff, Qltb_ge. rewrite Hav.
      change 1%Q with (Zq 1). apply Zq_le. lia. }
    rewrite Hr in Hs'.
    assert (Hinv' : burst_inv l key b now (k + 1) kv').
    { eexists. split; [exact Hs'|]. split; [reflexivity|].
      rewrite Hav. change 1%Q with (Zq 1). unfold Zq, Qminus.
      rewrite <- inject_Z_opp, <- inject_Z_plus.
      apply inject_Z_injective. lia. }
    rewrite (IH (k + 1) kv' ltac:(lia) Hinv').
    rewrite Hr. simpl.
    replace (Z.to_nat (b - k)) with (S (Z.to_nat (b - (k + 1)))) by lia.
    reflexivity.
  - assert (Hr : RateLimitResult.allowed r = false).
    { rewrite Ha. apply negb_false_iff, Qltb_lt. rewrite Hav.
      change 1%Q with (Zq 1). unfold Zq. rewrite <- Zlt_Qlt. lia. }
    rewrite Hr in Hs'.
    assert (Hinv' : burst_inv l key b now k kv')
      by (eexists; split; [exact Hs'|exact Hb]).
    rewrite (IH k kv' Hk Hinv').
    rewrite Hr. simpl.
    replace (Z.to_nat (b - k)) with 0%nat by lia.
    rewrite !Nat.min_0_r. reflexivity.
Qed.

(** X8. Bursts: of [n] requests a client first seen makes at one
    instant, a token bucket of [b] tokens admits the first [b] and
    denies the rest. *)
Theorem token_bucket_burst (l : t) key (b : Z) now (n : nat) kv :
  (bucketSize l == Zq b)%Q ->
  kv !! (prefix l +:+ key) = None ->
  replay (check l key 1) (replicate n now) kv
    = Some (replicate (Nat.min n (Z.to_nat b)) now).
Proof.
  intros HB Hkv.
  assert (Hinv : burst_inv l key b now 0 kv)
    by (exists None; unfold stored_bucket; rewrite Hkv; auto).
  rewrite (replay_burst l key b now n HB 0 kv ltac:(lia) Hinv).
  rewrite Z.sub_0_r. reflexivity.
Qed.

Lemma token_bucket_burst_witness :
  (bucketSize tb_two == Zq 2)%Q /\
  (∅ : gmap string entry) !! (prefix tb_two +:+ "k") = None /\
  replay (check tb_two "k" 1) (replicate 5 7000) ∅
    = Some (replicate (Nat.min 5 (Z.to_nat 2)) 7000).
Proof.
  assert (H1 : (bucketSize tb_two == Zq 2)%Q) by reflexivity.
  assert (H2 : (∅ : gmap string entry) !! (prefix tb_two +:+ "k") = None)
    by reflexivity.
  split; [exact H1|]. split; [exact H2|].
  exact (token_bucket_burst tb_two "k" 2 7000 5 ∅ H1 H2).
Defined.

End TokenBucketRuns.

(** ** Leaky bucket *)

Section LeakyBucketRuns.

Import LeakyBucketLimiter.

Lemma check_step_lb (l : t) key now kv b :
  stored_level l key kv = Some b ->
  exists r kv',
    check l key now kv = Returned r kv' /\
    RateLimitResult.allowed r = negb (Qgeb (level_at l now b) (bucketSize l)) /\
    stored_level l key kv' =
      Some (if RateLimitResult.allowed r
            then Some ((level_at l now b + 1)%Q, now) else b).
Proof.
  unfold stored_level, check, mbind, M_bind, kv_get_state, kv_put,
    mret, M_ret.
  destruct (kv !! (prefix l +:+ key)) as [[[st| |] ttl]|] eqn:Hkv;
    try discriminate; intros [= <-]; unfold level_at.
  - destruct (Qgeb _ (bucketSize l)) eqn:Hlt;
      do 2 eexists; (split; [reflexivity|]); (split; [reflexivity|]);
      unfold RateLimitResult.allowed; cbv beta iota.
    + rewrite Hkv. reflexivity.
    + rewrite lookup_insert_eq. reflexivity.
  - destruct (Qgeb 0 (bucketSize l)) eqn:Hlt;
      do 2 eexists; (split; [reflexivity|]); (split; [reflexivity|]);
      unfold RateLimitResult.allowed; cbv beta iota.
    + rewrite Hkv. reflexivity.
    + rewrite lookup_insert_eq. reflexivity.
Qed.

Lemma Qgeb_lt (x y : Q) : Qgeb x y = false -> (x < y)%Q.
Proof.
  unfold Qgeb. intros H. apply not_true_iff_false in H.
  rewrite Qle_bool_iff in H. apply Qnot_le_lt, H.
Qed.

Lemma leak_split (a b c : Z) (r : Q) :
  (Zq (c - a) / 1000 * r == Zq (b - a) / 1000 * r + Zq (c - b) / 1000 * r)%Q.
Proof.
  unfold Zq, Qdiv.
  rewrite <- Qmult_plus_distr_l, <- Qmult_plus_distr_l, <- inject_Z_plus.
  replace (b - a + (c - b)) with (c - a) by lia. reflexivity.
Qed.

Lemma leak_nonneg (a b : Z) (r : Q) :
  (0 <= r)%Q -> a <= b -> (0 <= Zq (b - a) / 1000 * r)%Q.
Proof.
  intros Hr Hab. apply Qmult_le_0_compat; [|exact Hr].
  apply Qle_shift_div_l; [reflexivity|]. rewrite Qmult_0_l.
  change 0%Q with (Zq 0). apply Zq_le. lia.
Qed.

End LeakyBucketRuns.

Section RoundedRuns.

Import Rounded.

Variable rnd : Q -> Q.
Hypothesis rnd_monotone : monotone rnd.
Hypothesis rnd_exact : exact_on_safe_integers rnd.

Lemma rnd_eq (x y : Q) : (x == y)%Q -> (rnd x == rnd y)%Q.
Proof.
  intros E. apply Qle_antisym; apply rnd_monotone; rewrite E; apply Qle_refl.
Qed.

Lemma rnd_integer (x : Q) (z : Z) :
  (x == Zq z)%Q -> safe_integer z -> (rnd x == Zq z)%Q.
Proof. intros E Hz. rewrite (rnd_eq _ _ E). apply rnd_exact, Hz. Qed.

Lemma Qgeb_eq (x x' y y' : Q) :
  (x == x')%Q -> (y == y')%Q -> Qgeb x y = Qgeb x' y'.
Proof. intros Ex Ey. unfold Qgeb. rewrite Ex, Ey. reflexivity. Qed.

Lemma Zq_minus (a b : Z) : (Zq a - Zq b == Zq (a - b))%Q.
Proof. unfold Zq, Z.sub. rewrite inject_Z_plus, inject_Z_opp. reflexivity. Qed.

Lemma Zq_plus (a b : Z) : (Zq a + Zq b == Zq (a + b))%Q.
Proof. unfold Zq. rewrite inject_Z_plus. reflexivity. Qed.

Lemma Zq_times (a b : Z) : (Zq a * Zq b == Zq (a * b))%Q.
Proof. unfold Zq. rewrite inject_Z_mult. reflexivity. Qed.

Lemma Zq_thousandth (e : Z) : (Zq (1000 * e) / 1000 == Zq e)%Q.
Proof.
  unfold Zq. rewrite inject_Z_mult. change (inject_Z 1000) with 1000%Q.
  field.
Qed.

Lemma Zq_max (a : Z) : (Qmax 0 (Zq a) == Zq (Z.max 0 a))%Q.
Proof.
  destruct (Z.le_ge_cases 0 a) as [H|H].
  - rewrite Z.max_r by exact H. apply Q.max_r.
    change 0%Q with (Zq 0). unfold Zq. rewrite <- Zle_Qle. exact H.
  - rewrite Z.max_l by exact H. apply Q.max_l.
    change 0%Q with (Zq 0). unfold Zq. rewrite <- Zle_Qle. exact H.
Qed.

(** On whole seconds, a whole rate and a whole level, every number of
    the check is a safe integer: the rounded check finds the level the
    exact arithmetic gives. *)
Lemma rounded_level (l : LeakyBucketLimiter.t) (now tl n r span : Z) lv :
  (LeakyBucketLimiter.leakRate l == Zq r)%Q -> 0 <= r ->
  (lv == Zq n)%Q -> 0 <= n -> safe_integer n ->
  (1000 | tl) -> (1000 | now) -> tl <= now -> now - tl <= span ->
  safe_integer span -> safe_integer (span * r) ->
  exists m : Z,
    0 <= m <= n /\
    (level_at l now (Some (lv, tl)) == Zq m)%Q /\
    (Qmax 0
       (rnd (lv - rnd (rnd (rnd (Zq now - Zq tl) / 1000)
                       * LeakyBucketLimiter.leakRate l))) == Zq m)%Q.
Proof.
  intros Hr Hr0 Hlv Hn0 Hn [qt Ht] [qn Hnow] Hle Hspan Hs Hsr.
  set (e := qn - qt).
  assert (He : now - tl = 1000 * e) by (unfold e; lia).
  assert (He0 : 0 <= e) by lia.
  unfold safe_integer, MAX_SAFE_INTEGER in *.
  assert (Her : 0 <= e * r <= span * r) by nia.
  exists (Z.max 0 (n - e * r)). split; [lia|].
  assert (E1 : (rnd (Zq now - Zq tl) == Zq (1000 * e))%Q).
  { apply rnd_integer; [rewrite Zq_minus, He; reflexivity|].
    unfold safe_integer, MAX_SAFE_INTEGER. lia. }
  assert (E2 : (rnd (rnd (Zq now - Zq tl) / 1000) == Zq e)%Q).
  { apply rnd_integer; [rewrite E1; apply Zq_thousandth|].
    unfold safe_integer, MAX_SAFE_INTEGER. lia. }
  assert (E3 : (rnd (rnd (rnd (Zq now - Zq tl) / 1000)
                     * LeakyBucketLimiter.leakRate l) == Zq (e * r))%Q).
  { apply rnd_integer; [rewrite E2, Hr; apply Zq_times|].
    unfold safe_integer, MAX_SAFE_INTEGER. lia. }
  assert (E4 : (rnd (lv - rnd (rnd (rnd (Zq now - Zq tl) / 1000)
                               * LeakyBucketLimiter.leakRate l))
                == Zq (n - e * r))%Q).
  { apply rnd_integer; [rewrite E3, Hlv; apply Zq_minus|].
    unfold safe_integer, MAX_SAFE_INTEGER. lia. }
  split.
  - unfold level_at. rewrite <- Zq_max. apply Q.max_compat; [reflexivity|].
    rewrite Hlv, Hr, He, Zq_thousandth, Zq_times. apply Zq_minus.
  - rewrite <- Zq_max. apply Q.max_compat; [reflexivity|exact E4].
Qed.

(** One rounded check on the grid: it returns, and keeps both the
    run's invariant and the grid. *)
Lemma rounded_step (l : LeakyBucketLimiter.t) key (t0 t_end bs r : Z)
  (a : nat) kv bound now :
  (LeakyBucketLimiter.bucketSize l == Zq bs)%Q -> safe_integer (bs + 1) ->
  (LeakyBucketLimiter.leakRate l == Zq r)%Q -> 0 <= r ->
  safe_integer (t_end - t0) -> safe_integer ((t_end - t0) * r) ->
  t0 <= now -> bound <= now -> now <= t_end -> (1000 | now) ->
  leak_inv l key t0 a kv bound -> on_grid l key kv ->
  exists res kv',
    Rounded.LeakyBucketLimiter.check rnd l key now kv = Returned res kv' /\
    leak_inv l key t0 (if RateLimitResult.allowed res then S a else a)
      kv' now /\
    on_grid l key kv'.
Proof.
  intros Hbs Hbs1 Hr Hr0 Hspan Hspanr Ht0 Hb Hend Hnow
    (bl & Hs & Hinv) Hgrid.
  assert (Hri : (0 <= LeakyBucketLimiter.leakRate l)%Q).
  { rewrite Hr. change 0%Q with (Zq 0). unfold Zq. rewrite <- Zle_Qle.
    exact Hr0. }
  unfold on_grid in Hgrid. rewrite Hs in Hgrid.
  unfold Rounded.LeakyBucketLimiter.check, mbind, M_bind, kv_get_state,
    kv_put, mret, M_ret.
  unfold stored_level in Hs.
  destruct (kv !! (LeakyBucketLimiter.prefix l +:+ key))
    as [[[st| |] ttl]|] eqn:Hkv; try discriminate.
  - (* a stored level *)
    injection Hs as <-.
    destruct Hinv as (Htl & Htl0 & Hlv & Hsum).
    destruct Hgrid as (Hdiv & n & Hn & Hn0).
    assert (Hnb : n <= bs).
    { assert (H : (Zq n < Zq (bs + 1))%Q)
        by (rewrite <- Hn, <- Zq_plus, <- Hbs; exact Hlv).
      unfold Zq in H. rewrite <- Zlt_Qlt in H. lia. }
    assert (Hsafe : safe_integer n)
      by (unfold safe_integer, MAX_SAFE_INTEGER in *; lia).
    destruct (rounded_level l now (RateLimitState.lastUpdate st) n r
                (t_end - t0) (or0 (RateLimitState.count st))
                Hr Hr0 Hn Hn0 Hsafe Hdiv Hnow ltac:(lia) ltac:(lia)
                Hspan Hspanr)
      as (m & Hm & Hlevel & Hw).
    set (w := Qmax 0 _) in *.
    destruct (Qgeb w (LeakyBucketLimiter.bucketSize l)) eqn:Hge.
    + do 2 eexists. split; [reflexivity|]. cbn [RateLimitResult.allowed].
      split.
      * exists (Some (or0 (RateLimitState.count st),
                      RateLimitState.lastUpdate st)).
        unfold stored_level. rewrite Hkv. split; [reflexivity|].
        split; [lia|]. split; [exact Htl0|]. split; [exact Hlv|exact Hsum].
      * unfold on_grid, stored_level. rewrite Hkv.
        split; [exact Hdiv|]. exists n. split; [exact Hn|exact Hn0].
    + apply Qgeb_lt in Hge.
      assert (Hmb : m + 1 <= bs).
      { assert (H : (Zq m < Zq bs)%Q) by (rewrite <- Hw, <- Hbs; exact Hge).
        unfold Zq in H. rewrite <- Zlt_Qlt in H. lia. }
      assert (Hnew : (rnd (w + 1) == Zq (m + 1))%Q).
      { apply rnd_integer.
        - rewrite Hw. change 1%Q with (Zq 1). apply Zq_plus.
        - unfold safe_integer, MAX_SAFE_INTEGER in *. lia. }
      do 2 eexists. split; [reflexivity|]. cbn [RateLimitResult.allowed].
      split.
      * eexists. unfold stored_level. rewrite lookup_insert_eq.
        split; [reflexivity|]. cbn [or0 RateLimitState.count
                                     RateLimitState.lastUpdate].
        split; [lia|]. split; [exact Ht0|].
        assert (Em : (Zq (m + 1) == Zq m + 1)%Q)
          by (rewrite <- Zq_plus; reflexivity).
        split.
        -- rewrite Hnew, Em, <- Hw. lra.
        -- rewrite Nat2Z.inj_succ. unfold Z.succ.
           rewrite <- (Zq_plus (Z.of_nat a) 1). change (Zq 1) with 1%Q.
           rewrite Hnew, Em, <- Hlevel. unfold level_at.
           pose proof (Q.le_max_r 0
             (or0 (RateLimitState.count st)
              - Zq (now - RateLimitState.lastUpdate st) / 1000
                * LeakyBucketLimiter.leakRate l)) as Hmax.
           pose proof (leak_split t0 (RateLimitState.lastUpdate st) now
                         (LeakyBucketLimiter.leakRate l)) as Hsplit.
           lra.
      * unfold on_grid, stored_level. rewrite lookup_insert_eq.
        cbn [or0 RateLimitState.count RateLimitState.lastUpdate].
        split; [exact Hnow|]. exists (m + 1). split; [exact Hnew|lia].
  - (* a first request *)
    injection Hs as <-. subst a.
    destruct (Qgeb 0 (LeakyBucketLimiter.bucketSize l)) eqn:Hge.
    + do 2 eexists. split; [reflexivity|]. cbn [RateLimitResult.allowed].
      split.
      * exists None. unfold stored_level. rewrite Hkv. auto.
      * unfold on_grid, stored_level. rewrite Hkv. exact I.
    + apply Qgeb_lt in Hge.
      assert (Hnew : (rnd (0 + 1) == Zq 1)%Q).
      { apply rnd_integer; [reflexivity|].
        unfold safe_integer, MAX_SAFE_INTEGER. lia. }
      do 2 eexists. split; [reflexivity|]. cbn [RateLimitResult.allowed].
      split.
      * eexists. unfold stored_level. rewrite lookup_insert_eq.
        split; [reflexivity|]. cbn [or0 RateLimitState.count
                                     RateLimitState.lastUpdate].
        split; [lia|]. split; [exact Ht0|].
        pose proof (leak_nonneg t0 now (LeakyBucketLimiter.leakRate l)
                      Hri Ht0) as Hleak.
        change (Zq 1) with 1%Q in Hnew.
        split; [rewrite Hnew; lra|].
        change (Zq (Z.of_nat 1)) with 1%Q. rewrite Hnew. lra.
      * unfold on_grid, stored_level. rewrite lookup_insert_eq.
        cbn [or0 RateLimitState.count RateLimitState.lastUpdate].
        split; [exact Hnow|]. exists 1. split; [exact Hnew|lia].
Qed.

Lemma replay_rounded (l : LeakyBucketLimiter.t) key (t0 t_end bs r : Z)
  times :
  (LeakyBucketLimiter.bucketSize l == Zq bs)%Q -> safe_integer (bs + 1) ->
  (LeakyBucketLimiter.leakRate l == Zq r)%Q -> 0 <= r ->
  safe_integer (t_end - t0) -> safe_integer ((t_end - t0) * r) ->
  forall a kv bound,
    StronglySorted Z.le (bound :: times) -> t0 <= bound -> bound <= t_end ->
    Forall (fun t => t <= t_end /\ (1000 | t)) times ->
    leak_inv l key t0 a kv bound -> on_grid l key kv ->
    exists admitted kv' bound',
      replay (Rounded.LeakyBucketLimiter.check rnd l key) times kv
        = Some admitted /\
      leak_inv l key t0 (a + length admitted) kv' bound' /\
      bound' <= t_end.
Proof.
  intros Hbs Hbs1 Hr Hr0 Hspan Hspanr.
  induction times as [|now ts IH];
    intros a kv bound Hs Ht0 Hbe Hend Hinv Hgrid.
  - exists [], kv, bound. rewrite Nat.add_0_r.
    split; [reflexivity|]. split; [exact Hinv|exact Hbe].
  - apply StronglySorted_inv in Hs as [Hs Hall].
    assert (Hb : bound <= now) by (apply Forall_cons in Hall; tauto).
    apply Forall_cons in Hend as [[Hnow Hdiv] Hend].
    destruct (rounded_step l key t0 t_end bs r a kv bound now
                Hbs Hbs1 Hr Hr0 Hspan Hspanr ltac:(lia) Hb Hnow Hdiv
                Hinv Hgrid) as (res & kv1 & Hc & Hinv1 & Hgrid1).
    destruct (IH _ kv1 now Hs ltac:(lia) Hnow Hend Hinv1 Hgrid1)
      as (A & kv' & bound' & Hrun & Hinv' & Hle).
    simpl replay. rewrite Hc, Hrun. simpl.
    exists (if RateLimitResult.allowed res then now :: A else A), kv',
      bound'.
    split; [reflexivity|]. split; [|exact Hle].
    destruct (RateLimitResult.allowed res); simpl length;
      [rewrite <- Nat.add_succ_comm|]; exact Hinv'.
Qed.

End RoundedRuns.

Section RoundedRate.

Import Rounded.

(** X9. The leaky bucket shapes the traffic of a client.  For a bucket
    of a whole size and a whole rate of at least one request a second,
    and requests that arrive on whole seconds between [t0] and [t_end],
    where every number of the check is a safe integer: of the requests
    of a client first seen, fewer than
    [bucketSize + 1 + leakRate * (t_end - t0) / 1000] are admitted,
    whatever the rounding of the arithmetic, as long as it is monotone
    and exact on the safe integers. *)
Theorem leaky_bucket_rate_bound (rnd : Q -> Q) (l : LeakyBucketLimiter.t)
  key times kv (t0 t_end bs r : Z) :
  monotone rnd -> exact_on_safe_integers rnd ->
  (LeakyBucketLimiter.bucketSize l == Zq bs)%Q ->
  0 <= bs -> safe_integer (bs + 1) ->
  (LeakyBucketLimiter.leakRate l == Zq r)%Q -> 1 <= r ->
  0 <= t0 -> t0 <= t_end -> safe_integer t_end ->
  safe_integer ((t_end - t0) * r) ->
  StronglySorted Z.le times ->
  Forall (fun t => t0 <= t /\ t <= t_end /\ (1000 | t)) times ->
  kv !! (LeakyBucketLimiter.prefix l +:+ key) = None ->
  exists admitted,
    replay (Rounded.LeakyBucketLimiter.check rnd l key) times kv
      = Some admitted /\
    (Zq (Z.of_nat (length admitted))
     < LeakyBucketLimiter.bucketSize l + 1
       + Zq (t_end - t0) / 1000 * LeakyBucketLimiter.leakRate l)%Q.
Proof.
  intros Hmono Hexact Hbs Hbs0 Hbs1 Hr Hr1 Ht0 Hends Hsafe Hspanr Hs Hall
    Hkv.
  assert (Hri : (0 < LeakyBucketLimiter.leakRate l)%Q).
  { rewrite Hr. change 0%Q with (Zq 0). unfold Zq. rewrite <- Zlt_Qlt.
    lia. }
  assert (Hri' : (0 <= LeakyBucketLimiter.leakRate l)%Q) by lra.
  assert (Hsize : (0 <= LeakyBucketLimiter.bucketSize l)%Q).
  { rewrite Hbs. change 0%Q with (Zq 0). unfold Zq. rewrite <- Zle_Qle.
    exact Hbs0. }
  assert (Hspan : safe_integer (t_end - t0))
    by (unfold safe_integer, MAX_SAFE_INTEGER in *; lia).
  pose proof (leak_nonneg t0 t_end (LeakyBucketLimiter.leakRate l)
                Hri' Hends) as Hge.
  destruct times as [|t1 ts].
  { exists []. split; [reflexivity|]. simpl length.
    change (Zq (Z.of_nat 0)) with 0%Q. lra. }
  assert (Ht1 : t0 <= t1 /\ t1 <= t_end /\ (1000 | t1))
    by (apply Forall_cons in Hall; tauto).
  destruct (replay_rounded rnd Hmono Hexact l key t0 t_end bs r (t1 :: ts)
              Hbs Hbs1 Hr ltac:(lia) Hspan Hspanr 0%nat kv t1)
    as (A & kv' & bound' & Hrun & (b & _ & Hinv) & Hle).
  - constructor; [exact Hs|]. constructor; [lia|].
    apply StronglySorted_inv in Hs as [_ H]. exact H.
  - lia.
  - lia.
  - eapply Forall_impl; [exact Hall|]. simpl. intros; tauto.
  - exists None. unfold stored_level. rewrite Hkv. auto.
  - unfold on_grid, stored_level. rewrite Hkv. exact I.
  - exists A. split; [exact Hrun|]. simpl Nat.add in Hinv.
    destruct b as [[lv tl]|].
    + destruct Hinv as (Htl & Htl0 & Hlv & Hsum).
      pose proof (leak_split t0 tl t_end (LeakyBucketLimiter.leakRate l))
        as Hsplit.
      pose proof (leak_nonneg tl t_end (LeakyBucketLimiter.leakRate l)
                    Hri' ltac:(lia)).
      lra.
    + rewrite Hinv. change (Zq (Z.of_nat 0)) with 0%Q. lra.
Qed.

Lemma leaky_bucket_rate_bound_witness :
  monotone round64 /\ exact_on_safe_integers round64 /\
  (LeakyBucketLimiter.bucketSize lb_one == Zq 1)%Q /\
  0 <= 1 /\ safe_integer (1 + 1) /\
  (LeakyBucketLimiter.leakRate lb_one == Zq 1)%Q /\ 1 <= 1 /\
  0 <= 0 /\ 0 <= 2000 /\ safe_integer 2000 /\
  safe_integer ((2000 - 0) * 1) /\
  StronglySorted Z.le [0; 1000; 1000; 2000] /\
  Forall (fun t => 0 <= t /\ t <= 2000 /\ (1000 | t))
    [0; 1000; 1000; 2000] /\
  (∅ : gmap string entry) !! (LeakyBucketLimiter.prefix lb_one +:+ "k")
    = None /\
  exists admitted,
    replay (Rounded.LeakyBucketLimiter.check round64 lb_one "k")
      [0; 1000; 1000; 2000] ∅ = Some admitted /\
    (Zq (Z.of_nat (length admitted))
     < LeakyBucketLimiter.bucketSize lb_one + 1
       + Zq (2000 - 0) / 1000 * LeakyBucketLimiter.leakRate lb_one)%Q.
Proof.
  assert (H1 : (LeakyBucketLimiter.bucketSize lb_one == Zq 1)%Q)
    by reflexivity.
  assert (H2 : 0 <= 1) by lia.
  assert (H3 : safe_integer (1 + 1))
    by (unfold safe_integer, MAX_SAFE_INTEGER; lia).
  assert (H4 : (LeakyBucketLimiter.leakRate lb_one == Zq 1)%Q)
    by reflexivity.
  assert (H5 : 1 <= 1) by lia.
  assert (H6 : 0 <= 0) by lia.
  assert (H7 : 0 <= 2000) by lia.
  assert (H8 : safe_integer 2000)
    by (unfold safe_integer, MAX_SAFE_INTEGER; lia).
  assert (H9 : safe_integer ((2000 - 0) * 1))
    by (unfold safe_integer, MAX_SAFE_INTEGER; lia).
  assert (H10 : StronglySorted Z.le [0; 1000; 1000; 2000])
    by (repeat (constructor; try lia)).
  assert (H11 : Forall (fun t => 0 <= t /\ t <= 2000 /\ (1000 | t))
                  [0; 1000; 1000; 2000]).
  { repeat (constructor; try lia);
      [exists 0 | exists 1 | exists 1 | exists 2]; reflexivity. }
  assert (H12 : (∅ : gmap string entry)
                  !! (LeakyBucketLimiter.prefix lb_one +:+ "k") = None)
    by reflexivity.
  split; [exact round64_monotone|]. split; [exact round64_exact|].
  repeat (split; [assumption|]).
  exact (leaky_bucket_rate_bound round64 lb_one "k"
           [0; 1000; 1000; 2000] ∅ 0 2000 1 1
           round64_monotone round64_exact H1 H2 H3 H4 H5 H6 H7 H8 H9 H10 H11
           H12).
Defined.

End RoundedRate.

Section DoubleLevel.

Import PrimFloat Binary64 Binary64.LeakyBucketLimiter.
Local Open Scope float_scope.

(** The bounds are met in double precision.  A bucket of size 1 that
    drains one request a second admits a first request at 0 ms and, the
    level found being 0.997, turns away none at 3 ms; at 1000 ms the
    level 1.997 - 0.997 is computed as 0.9999999999999999, so that a
    third request is admitted and the level stored is 2, which is
    bucketSize + 1: three requests pass within the second. *)
Lemma leaky_bucket_fills_to_the_brim :
  exists r1 kv1 r2 kv2 r3 kv3,
    check lb_one64 "k" 0 ∅ = Some (r1, kv1) /\
    check lb_one64 "k" 3 kv1 = Some (r2, kv2) /\
    check lb_one64 "k" 1000 kv2 = Some (r3, kv3) /\
    RateLimitResult.allowed r1 = true /\
    RateLimitResult.allowed r2 = true /\
    RateLimitResult.allowed r3 = true /\
    kv3 !! "rl:lb:k"%string =
      Some (mkEntry (VState (RateLimitState.mk (Some 2) None 1000))
              (Some 3600%Z)).
Proof.
  do 6 eexists.
  split; [vm_compute; reflexivity|].
  split; [vm_compute; reflexivity|].
  split; [vm_compute; reflexivity|].
  repeat split.
Qed.

End DoubleLevel.

(** ** The factory *)

Section Factory.

Lemma filter_replicate_now (c now : Z) (k : nat) :
  c < now -> filter (fun u => c < u) (replicate k now) = replicate k now.
Proof.
  intros H. induction k as [|k IH]; [reflexivity|].
  simpl replicate. rewrite filter_cons_True by exact H. rewrite IH.
  reflexivity.
Qed.

Lemma replicate_snoc {A} (k : nat) (x : A) :
  replicate k x ++ [x] = replicate (S k) x.
Proof.
  induction k as [|k IH]; [reflexivity|]. simpl. rewrite IH. reflexivity.
Qed.

Lemma replay_burst_sw (l : SlidingWindowLimiter.t) key now n :
  1 <= SlidingWindowLimiter.limit l ->
  0 < SlidingWindowLimiter.windowMs l ->
  forall (k : nat) kv H,
    stored_history l key kv = Some H ->
    filter (fun u => now - SlidingWindowLimiter.windowMs l < u) H
      = replicate k now ->
    replay (SlidingWindowLimiter.check l key) (replicate n now) kv
      = Some (replicate
                (Nat.min n (Z.to_nat (SlidingWindowLimiter.limit l)
                            - k)) now).
Proof.
  intros Hlim Hw. induction n as [|n IH]; intros k kv H HH Hf;
    [reflexivity|].
  destruct (check_step l key now kv H Hlim HH) as (r & kv' & Hc & Ha & HH').
  cbv zeta in Ha, HH'. rewrite Hf in Ha, HH'.
  rewrite length_replicate in Ha.
  simpl replicate. simpl replay. rewrite Hc.
  destruct (RateLimitResult.allowed r) eqn:Hr.
  - symmetry in Ha. apply bool_decide_eq_true in Ha.
    rewrite replicate_snoc in HH'.
    rewrite (IH (S k) kv' _ HH')
      by (apply filter_replicate_now; lia).
    simpl.
    replace (Z.to_nat (SlidingWindowLimiter.limit l) - k)%nat
      with (S (Z.to_nat (SlidingWindowLimiter.limit l) - S k)) by lia.
    reflexivity.
  - symmetry in Ha. apply bool_decide_eq_false in Ha.
    rewrite (IH k kv' _ HH' Hf). simpl.
    replace (Z.to_nat (SlidingWindowLimiter.limit l) - k)%nat
      with 0%nat by lia.
    rewrite !Nat.min_0_r. reflexivity.
Qed.

Lemma replay_burst_lb (l : LeakyBucketLimiter.t) key (b : Z) now n :
  (LeakyBucketLimiter.bucketSize l == Zq b)%Q ->
  forall k kv bkt,
    0 <= k ->
    stored_level l key kv = Some bkt ->
    match bkt with
    | None => k = 0
    | Some (lv, tl) => tl = now /\ (lv == Zq k)%Q
    end ->
    replay (LeakyBucketLimiter.check l key) (replicate n now) kv
      = Some (replicate (Nat.min n (Z.to_nat (b - k))) now).
Proof.
  intros HB. induction n as [|n IH]; intros k kv bkt Hk Hs Hb;
    [reflexivity|].
  destruct (check_step_lb l key now kv bkt Hs) as (r & kv' & Hc & Ha & Hs').
  assert (Hav : (level_at l now bkt == Zq k)%Q).
  { destruct bkt as [[lv tl]|]; unfold level_at.
    - destruct Hb as [-> Hlv]. rewrite Z.sub_diag.
      assert (E : (lv - Zq 0 / 1000 * LeakyBucketLimiter.leakRate l
                   == lv)%Q) by (unfold Zq, Qdiv; ring).
      rewrite E, Hlv. apply Q.max_r. change 0%Q with (Zq 0).
      apply Zq_le, Hk.
    - subst k. reflexivity. }
  simpl replicate. simpl replay. rewrite Hc.
  destruct (decide (k < b)) as [Hlt|Hge].
  - assert (Hr : RateLimitResult.allowed r = true).
    { rewrite Ha. apply negb_true_iff. unfold Qgeb.
      apply not_true_iff_false. rewrite Qle_bool_iff.
      rewrite Hav, HB. unfold Zq. rewrite <- Zle_Qle. lia. }
    rewrite Hr in Hs'.
    rewrite (IH (k + 1) kv' _ ltac:(lia) Hs').
    + rewrite Hr. simpl.
      replace (Z.to_nat (b - k)) with (S (Z.to_nat (b - (k + 1)))) by lia.
      reflexivity.
    + split; [reflexivity|]. rewrite Hav. change 1%Q with (Zq 1).
      unfold Zq. rewrite <- inject_Z_plus. reflexivity.
  - assert (Hr : RateLimitResult.allowed r = false).
    { rewrite Ha. apply negb_false_iff. unfold Qgeb.
      rewrite Qle_bool_iff. rewrite Hav, HB. apply Zq_le. lia. }
    rewrite Hr in Hs'.
    rewrite (IH k kv' _ Hk Hs' Hb).
    rewrite Hr. simpl.
    replace (Z.to_nat (b - k)) with 0%nat by lia.
    rewrite !Nat.min_0_r. reflexivity.
Qed.

Lemma Qdiv_pos (a b : Z) : 0 < a -> 0 < b -> (0 < Zq a / Zq b)%Q.
Proof.
  intros Ha Hb. apply Qlt_shift_div_l.
  - change 0%Q with (Zq 0). unfold Zq. rewrite <- Zlt_Qlt. exact Hb.
  - rewrite Qmult_0_l. change 0%Q with (Zq 0). unfold Zq.
    rewrite <- Zlt_Qlt. exact Ha.
Qed.

Lemma createRateLimiter_positive_rate (config : RateLimitConfig.t) :
  1 <= RateLimitConfig.limit config ->
  1 <= RateLimitConfig.window config ->
  positive_rate (createRateLimiter config).
Proof.
  intros Hl Hw. unfold createRateLimiter.
  destruct (RateLimitConfig.strategy_of config); simpl; try exact I.
  - apply Qlt_shift_div_l; [apply Qdiv_pos; lia|]. rewrite Qmult_0_l.
    reflexivity.
  - apply Qdiv_pos; lia.
Qed.

Lemma createRateLimiter_burst (config : RateLimitConfig.t)
  key now (n : nat) kv :
  1 <= RateLimitConfig.limit config ->
  1 <= RateLimitConfig.window config ->
  kv !! state_key (createRateLimiter config) key = None ->
  replay (limiter_check (createRateLimiter config) key) (replicate n now) kv
    = Some (replicate (Nat.min n (Z.to_nat (capacity config))) now).
Proof.
  intros Hl Hw. unfold createRateLimiter, capacity.
  set (sw := SlidingWindowLimiter.new (RateLimitConfig.limit config)
               (RateLimitConfig.window config) "rl:sw:").
  assert (Hsw : kv !! (SlidingWindowLimiter.prefix sw +:+ key) = None ->
    replay (limiter_check (SW sw) key) (replicate n now) kv
    = Some (replicate
              (Nat.min n (Z.to_nat (RateLimitConfig.limit config))) now)).
  { intros Hkv.
    pose proof (replay_burst_sw sw key now n Hl ltac:(simpl; lia)
                  0%nat kv []) as E.
    rewrite Nat.sub_0_r in E. apply E; [|reflexivity].
    unfold stored_history. rewrite Hkv. reflexivity. }
  destruct (RateLimitConfig.strategy_of config);
    simpl state_key; intros Hkv; try (apply Hsw; exact Hkv).
  - set (tb := TokenBucketLimiter.new _ _ _).
    pose proof (replay_burst tb key (burst_or_limit config) now n
                  ltac:(reflexivity) 0 kv ltac:(lia)) as E.
    rewrite Z.sub_0_r in E. apply E.
    exists None. unfold stored_bucket. simpl TokenBucketLimiter.prefix.
    rewrite Hkv. auto.
  - set (lb := LeakyBucketLimiter.new _ _ _).
    pose proof (replay_burst_lb lb key (RateLimitConfig.limit config) now n
                  ltac:(reflexivity) 0 kv None ltac:(lia)) as E.
    rewrite Z.sub_0_r in E. apply E; [|reflexivity].
    unfold stored_level. simpl LeakyBucketLimiter.prefix.
    rewrite Hkv. reflexivity.
Qed.

(** X10. What the factory builds: for a configuration of at least one
    request per window of at least one second, the limiter of every
    strategy has a positive rate, and of [n] requests a client first
    seen makes at one instant it admits the first [limit] (the first
    [burst || limit] for a token bucket) and denies the rest;
    'fixed-window' gets the sliding window. *)
Theorem createRateLimiter_capacity (config : RateLimitConfig.t) :
  1 <= RateLimitConfig.limit config ->
  1 <= RateLimitConfig.window config ->
  positive_rate (createRateLimiter config) /\
  (RateLimitConfig.strategy_of config = RateLimitConfig.fixed_window ->
   createRateLimiter config
   = SW (SlidingWindowLimiter.new (RateLimitConfig.limit config)
           (RateLimitConfig.window config) "rl:sw:")) /\
  forall key now (n : nat) kv,
    kv !! state_key (createRateLimiter config) key = None ->
    replay (limiter_check (createRateLimiter config) key)
      (replicate n now) kv
    = Some (replicate (Nat.min n (Z.to_nat (capacity config))) now).
Proof.
  intros Hl Hw. split; [apply createRateLimiter_positive_rate; assumption|].
  split.
  - intros E. unfold createRateLimiter. rewrite E. reflexivity.
  - intros key now n kv. apply createRateLimiter_burst; assumption.
Qed.

Lemma createRateLimiter_capacity_witness :
  1 <= RateLimitConfig.limit burst_config /\
  1 <= RateLimitConfig.window burst_config /\
  positive_rate (createRateLimiter burst_config) /\
  replay (limiter_check (createRateLimiter burst_config) "k")
    (replicate 12 0) ∅
  = Some (replicate 8 0).
Proof.
  assert (H1 : 1 <= RateLimitConfig.limit burst_config) by (simpl; lia).
  assert (H2 : 1 <= RateLimitConfig.window burst_config) by (simpl; lia).
  split; [exact H1|]. split; [exact H2|].
  destruct (createRateLimiter_capacity burst_config H1 H2) as (Hp & _ & Hb).
  split; [exact Hp|].
  exact (Hb "k"%string 0 12%nat ∅ eq_refl).
Defined.

End Factory.
(** * Further properties of the quota manager *)

Section QuotaMore.

Import QuotaManager.

Variable toISOString : Z -> string.

Abbreviation rollover := (rollover toISOString).
Abbreviation checkAndIncrement := (checkAndIncrement toISOString).
Abbreviation today := (today toISOString).
Abbreviation month := (month toISOString).
Abbreviation current := (current toISOString).

Lemma kv_get_quota_cases key kv :
  (exists stored, kv_get_quota key kv = Returned stored kv) \/
  kv_get_quota key kv = OutsideModel.
Proof.
  unfold kv_get_quota. destruct (kv !! key) as [[[?|?|?] ?]|]; eauto.
Qed.

Lemma checkAndIncrement_returns config userId now kv r kv' :
  checkAndIncrement config userId now kv = Returned r kv' ->
  exists stored, kv_get_quota ("quota:" +:+ userId) kv = Returned stored kv.
Proof.
  intros H. destruct (kv_get_quota_cases ("quota:" +:+ userId) kv)
    as [?|E]; [assumption|].
  unfold checkAndIncrement, QuotaManager.checkAndIncrement, mbind, M_bind in H.
  rewrite E in H. discriminate.
Qed.

(** X11. An admitted request never takes a user over a quota: the
    counters reported are within the three configured limits, the limits
    reported are the configured ones, and the state stored for 32 days
    holds exactly the reported counters. *)
Theorem quota_allowed_within_limits config userId now kv r kv' :
  checkAndIncrement config userId now kv = Returned r kv' ->
  allowed r = true ->
  used (quotas_minute r) <= perMinute config /\
  used (quotas_daily r) <= daily config /\
  used (quotas_monthly r) <= monthly config /\
  limit (quotas_minute r) = perMinute config /\
  limit (quotas_daily r) = daily config /\
  limit (quotas_monthly r) = monthly config /\
  exists s',
    kv' !! ("quota:" +:+ userId)
      = Some (mkEntry (VQuota s') (Some 2764800)) /\
    QuotaState.minute_count s' = used (quotas_minute r) /\
    QuotaState.daily_count s' = used (quotas_daily r) /\
    QuotaState.monthly_count s' = used (quotas_monthly r).
Proof.
  intros Hc Ha.
  destruct (checkAndIncrement_returns _ _ _ _ _ _ Hc) as [stored Hget].
  rewrite (checkAndIncrement_eq toISOString config userId now kv stored Hget)
    in Hc.
  cbv zeta in Hc. unfold exceeded in Hc.
  repeat case_bool_decide; apply Returned_inj in Hc as [<- <-];
    try discriminate.
  simpl. repeat split; try lia.
  eexists. rewrite lookup_insert_eq. repeat split.
Qed.

Lemma rollover_current now s :
  QuotaState.daily_date s = today now ->
  QuotaState.monthly_month s = month now ->
  QuotaState.minute_timestamp s = minuteTs now ->
  rollover now s = s.
Proof.
  intros Hd Hm Ht. unfold rollover, QuotaManager.rollover.
  repeat case_bool_decide; simpl in *; congruence.
Qed.

(** X12. Within one minute, day and month the manager counts: a stored
    state of the current periods is admitted exactly when all three
    counters are below their limits; admitted, each counter goes up by
    one and the incremented state is stored; denied, the counters are
    reported as they were and nothing is written. *)
Theorem quota_same_period_counts config userId now kv s ttl :
  kv !! ("quota:" +:+ userId) = Some (mkEntry (VQuota s) ttl) ->
  QuotaState.daily_date s = today now ->
  QuotaState.monthly_month s = month now ->
  QuotaState.minute_timestamp s = minuteTs now ->
  exists r kv',
    checkAndIncrement config userId now kv = Returned r kv' /\
    (allowed r = true <->
     QuotaState.minute_count s < perMinute config /\
     QuotaState.daily_count s < daily config /\
     QuotaState.monthly_count s < monthly config) /\
    (allowed r = true ->
     used (quotas_minute r) = QuotaState.minute_count s + 1 /\
     used (quotas_daily r) = QuotaState.daily_count s + 1 /\
     used (quotas_monthly r) = QuotaState.monthly_count s + 1 /\
     kv' = <["quota:" +:+ userId :=
               mkEntry (VQuota (increment s)) (Some 2764800)]> kv) /\
    (allowed r = false ->
     used (quotas_minute r) = QuotaState.minute_count s /\
     used (quotas_daily r) = QuotaState.daily_count s /\
     used (quotas_monthly r) = QuotaState.monthly_count s /\
     kv' = kv).
Proof.
  intros Hkv Hd Hm Ht.
  assert (Hget : kv_get_quota ("quota:" +:+ userId) kv
                 = Returned (Some s) kv).
  { unfold kv_get_quota. rewrite Hkv. reflexivity. }
  rewrite (checkAndIncrement_eq toISOString config userId now kv (Some s)
             Hget).
  unfold QuotaManager.current. simpl default.
  rewrite (rollover_current now s Hd Hm Ht). cbv zeta.
  unfold exceeded.
  repeat case_bool_decide; do 2 eexists; (split; [reflexivity|]); simpl;
    repeat split; intros; try discriminate; try lia;
    destruct_and?; lia.
Qed.

Lemma getUsage_stored userId kv s ttl :
  kv !! ("quota:" +:+ userId) = Some (mkEntry (VQuota s) ttl) ->
  getUsage userId kv = Returned (Some s) kv.
Proof.
  intros H. unfold getUsage, kv_get_quota. rewrite H. reflexivity.
Qed.

(** X13. [getUsage] reads what [checkAndIncrement] wrote: after an
    admitted request it returns the counters just reported, stamped with
    the current minute, day and month; after a denied one it returns
    what it returned before; and the usage of every other user is
    untouched. *)
Theorem quota_getUsage_after_check config userId now kv r kv' :
  checkAndIncrement config userId now kv = Returned r kv' ->
  (allowed r = true ->
   exists s',
     getUsage userId kv' = Returned (Some s') kv' /\
     QuotaState.minute_count s' = used (quotas_minute r) /\
     QuotaState.daily_count s' = used (quotas_daily r) /\
     QuotaState.monthly_count s' = used (quotas_monthly r) /\
     QuotaState.minute_timestamp s' = minuteTs now /\
     QuotaState.daily_date s' = today now /\
     QuotaState.monthly_month s' = month now) /\
  (allowed r = false -> getUsage userId kv' = getUsage userId kv) /\
  (forall other, other <> userId ->
     kv' !! ("quota:" +:+ other) = kv !! ("quota:" +:+ other)).
Proof.
  intros Hc.
  destruct (checkAndIncrement_returns _ _ _ _ _ _ Hc) as [stored Hget].
  rewrite (checkAndIncrement_eq toISOString config userId now kv stored Hget)
    in Hc.
  cbv zeta in Hc.
  destruct (rollover_minute toISOString now
              (default (QuotaState.mk 0 (today now) 0 (month now) 0
                          (minuteTs now)) stored)) as [Hmt _].
  destruct (rollover_daily toISOString now
              (default (QuotaState.mk 0 (today now) 0 (month now) 0
                          (minuteTs now)) stored)) as [Hdd _].
  destruct (rollover_monthly toISOString now
              (default (QuotaState.mk 0 (today now) 0 (month now) 0
                          (minuteTs now)) stored)) as [Hmm _].
  fold (current now stored) in Hmt, Hdd, Hmm.
  destruct (exceeded config (current now stored)) as [p|];
    apply Returned_inj in Hc as [<- <-].
  - split; [discriminate|]. split; [reflexivity|]. reflexivity.
  - split.
    + intros _. eexists. split.
      * eapply getUsage_stored. apply lookup_insert_eq.
      * simpl. repeat split; assumption.
    + split; [discriminate|].
      intros other Hne. apply lookup_insert_ne.
      intros E. apply string_app_inj_r in E. congruence.
Qed.

(** X14. [resetQuota] gives a user a fresh start and touches nobody
    else: afterwards [getUsage] finds nothing, and the next request is
    admitted with all three counters at 1 exactly when every limit is
    positive (with a limit of 0 it is denied, counters at 0, nothing
    stored). *)
Theorem quota_reset_then_check config userId now kv :
  exists kv0 r kv',
    resetQuota userId kv = Returned tt kv0 /\
    getUsage userId kv0 = Returned None kv0 /\
    (forall other, other <> userId ->
       kv0 !! ("quota:" +:+ other) = kv !! ("quota:" +:+ other)) /\
    checkAndIncrement config userId now kv0 = Returned r kv' /\
    (allowed r = true <->
     0 < perMinute config /\ 0 < daily config /\ 0 < monthly config) /\
    (allowed r = true ->
     used (quotas_minute r) = 1 /\ used (quotas_daily r) = 1 /\
     used (quotas_monthly r) = 1) /\
    (allowed r = false ->
     used (quotas_minute r) = 0 /\ used (quotas_daily r) = 0 /\
     used (quotas_monthly r) = 0 /\ kv' = kv0).
Proof.
  set (key := ("quota:" +:+ userId)%string).
  assert (Hnone : delete key kv !! key = None) by apply lookup_delete_eq.
  assert (Hget : kv_get_quota key (delete key kv)
                 = Returned None (delete key kv)).
  { unfold kv_get_quota. rewrite Hnone. reflexivity. }
  exists (delete key kv).
  rewrite (checkAndIncrement_eq toISOString config userId now _ None Hget).
  unfold QuotaManager.current. simpl default.
  rewrite rollover_current by reflexivity. cbv zeta. unfold exceeded.
  simpl QuotaState.minute_count. simpl QuotaState.daily_count.
  simpl QuotaState.monthly_count.
  repeat case_bool_decide; do 2 eexists; (split; [reflexivity|]);
    (split; [exact Hget|]);
    (split; [intros other Hne; apply lookup_delete_ne; unfold key;
             intros E; apply string_app_inj_r in E; congruence|]);
    (split; [reflexivity|]); simpl;
    repeat split; intros; try discriminate; try lia; destruct_and?; lia.
Qed.

End QuotaMore.

Lemma quota_allowed_within_limits_witness :
  exists r kv',
    QuotaManager.checkAndIncrement iso8601 quota_config "alice"
      (noon + 60000) quota_store = Returned r kv' /\
    QuotaManager.allowed r = true /\
    QuotaManager.used (QuotaManager.quotas_minute r)
      <= QuotaManager.perMinute quota_config /\
    QuotaManager.used (QuotaManager.quotas_daily r)
      <= QuotaManager.daily quota_config /\
    QuotaManager.used (QuotaManager.quotas_monthly r)
      <= QuotaManager.monthly quota_config.
Proof.
  assert (H : exists r kv',
            QuotaManager.checkAndIncrement iso8601 quota_config "alice"
              (noon + 60000) quota_store = Returned r kv' /\
            QuotaManager.allowed r = true)
    by (do 2 eexists; split; [vm_compute; reflexivity|reflexivity]).
  destruct H as (r & kv' & Hc & Ha).
  exists r, kv'. split; [exact Hc|]. split; [exact Ha|].
  destruct (quota_allowed_within_limits iso8601 quota_config "alice"
              (noon + 60000) quota_store r kv' Hc Ha)
    as (H1 & H2 & H3 & _).
  split; [exact H1|]. split; [exact H2|exact H3].
Defined.

Lemma quota_same_period_counts_witness :
  quota_store !! ("quota:" +:+ "alice")%string
    = Some (mkEntry (VQuota quota_stored) (Some 2764800)) /\
  QuotaState.daily_date quota_stored = QuotaManager.today iso8601 noon /\
  QuotaState.monthly_month quota_stored = QuotaManager.month iso8601 noon /\
  QuotaState.minute_timestamp quota_stored = QuotaManager.minuteTs noon /\
  exists r kv',
    QuotaManager.checkAndIncrement iso8601 quota_config "alice" noon
      quota_store = Returned r kv' /\
    (QuotaManager.allowed r = true <->
     QuotaState.minute_count quota_stored
       < QuotaManager.perMinute quota_config /\
     QuotaState.daily_count quota_stored < QuotaManager.daily quota_config /\
     QuotaState.monthly_count quota_stored
       < QuotaManager.monthly quota_config).
Proof.
  assert (H1 : quota_store !! ("quota:" +:+ "alice")%string
               = Some (mkEntry (VQuota quota_stored) (Some 2764800)))
    by reflexivity.
  assert (H2 : QuotaState.daily_date quota_stored
               = QuotaManager.today iso8601 noon)
    by (vm_compute; reflexivity).
  assert (H3 : QuotaState.monthly_month quota_stored
               = QuotaManager.month iso8601 noon)
    by (vm_compute; reflexivity).
  assert (H4 : QuotaState.minute_timestamp quota_stored
               = QuotaManager.minuteTs noon)
    by (vm_compute; reflexivity).
  repeat (split; [assumption|]).
  destruct (quota_same_period_counts iso8601 quota_config "alice" noon
              quota_store quota_stored (Some 2764800) H1 H2 H3 H4)
    as (r & kv' & Hc & Hiff & _).
  exists r, kv'. split; [exact Hc|exact Hiff].
Defined.

Lemma quota_getUsage_after_check_witness :
  exists r kv',
    QuotaManager.checkAndIncrement iso8601 quota_config "alice" noon
      quota_store = Returned r kv' /\
    (QuotaManager.allowed r = false ->
     QuotaManager.getUsage "alice" kv'
     = QuotaManager.getUsage "alice" quota_store) /\
    (forall other, other <> "alice"%string ->
       kv' !! ("quota:" +:+ other) = quota_store !! ("quota:" +:+ other)).
Proof.
  assert (H : exists r kv',
            QuotaManager.checkAndIncrement iso8601 quota_config "alice"
              noon quota_store = Returned r kv')
    by (do 2 eexists; vm_compute; reflexivity).
  destruct H as (r & kv' & Hc).
  exists r, kv'. split; [exact Hc|].
  destruct (quota_getUsage_after_check iso8601 quota_config "alice" noon
              quota_store r kv' Hc) as (_ & Hd & Ho).
  split; [exact Hd|exact Ho].
Defined.

(** * Further properties of the fixed-window middleware *)

(** ** Counters as decimal text *)

Section Decimal.

Lemma digit_of_pretty_N_char (d : N) :
  (d < 10)%N -> digit_of (pretty_N_char d) = Some (Z.of_N d).
Proof.
  intros Hd.
  assert (d = 0 \/ d = 1 \/ d = 2 \/ d = 3 \/ d = 4 \/ d = 5 \/ d = 6 \/
          d = 7 \/ d = 8 \/ d = 9)%N as H by lia.
  repeat (destruct H as [->|H]; [reflexivity|]). subst d. reflexivity.
Qed.

Lemma digits_pretty_N_go (x : N) (s : string) :
  (0 < x)%N ->
  digits (pretty_N_go x s) None = digits s (Some (Z.of_N x)).
Proof.
  revert s. induction (N.lt_wf_0 x) as [x _ IH]; intros s Hx.
  rewrite pretty_N_go_step by exact Hx.
  assert (Hd : (x `mod` 10 < 10)%N) by (apply N.mod_lt; lia).
  destruct (decide (0 < x `div` 10)%N) as [Hq|Hq].
  - rewrite IH by (try exact Hq; apply N.div_lt; lia).
    simpl digits. rewrite (digit_of_pretty_N_char _ Hd). simpl default.
    f_equal. f_equal.
    pose proof (N.div_mod x 10 ltac:(discriminate)) as E10. lia.
  - assert (E : (x `div` 10 = 0)%N)
      by (destruct (x `div` 10)%N;
          [reflexivity | exfalso; apply Hq; reflexivity]).
    rewrite E, pretty_N_go_0.
    simpl digits. rewrite (digit_of_pretty_N_char _ Hd). simpl default.
    f_equal. f_equal.
    pose proof (N.div_mod x 10 ltac:(discriminate)) as E10. lia.
Qed.

Lemma pretty_N_go_head (x : N) (s : string) :
  (0 < x)%N ->
  exists d rest,
    (d < 10)%N /\ pretty_N_go x s = String (pretty_N_char d) rest.
Proof.
  revert s. induction (N.lt_wf_0 x) as [x _ IH]; intros s Hx.
  rewrite pretty_N_go_step by exact Hx.
  destruct (x `div` 10)%N as [|q] eqn:E.
  - rewrite pretty_N_go_0. exists (x `mod` 10)%N, s.
    split; [apply N.mod_lt; discriminate|reflexivity].
  - apply IH; [|reflexivity]. rewrite <- E. apply N.div_lt; [exact Hx|].
    reflexivity.
Qed.

Lemma parseInt_digit_head (d : N) (rest : string) :
  (d < 10)%N ->
  parseInt (String (pretty_N_char d) rest)
  = digits (String (pretty_N_char d) rest) None.
Proof.
  intros Hd.
  assert (d = 0 \/ d = 1 \/ d = 2 \/ d = 3 \/ d = 4 \/ d = 5 \/ d = 6 \/
          d = 7 \/ d = 8 \/ d = 9)%N as H by lia.
  repeat (destruct H as [->|H]; [reflexivity|]). subst d. reflexivity.
Qed.

Lemma parseInt_pretty_pos (p : positive) :
  safe_integer (Z.pos p) ->
  parseInt (pretty (Z.pos p)) = Some (Z.pos p).
Proof.
  intros _.
  unfold pretty, pretty_Z, pretty, pretty_positive, pretty, pretty_N.
  destruct (decide (N.pos p = 0%N)) as [E|_]; [discriminate|].
  destruct (pretty_N_go_head (N.pos p) "" eq_refl) as (d & rest & Hd & E).
  rewrite E, (parseInt_digit_head d rest Hd), <- E.
  rewrite digits_pretty_N_go by reflexivity. reflexivity.
Qed.

(** The counter text reads back as the number it was written from,
    for the integers a double counts exactly. *)
Lemma parseInt_pretty (z : Z) :
  safe_integer z -> parseInt (pretty z) = Some z.
Proof.
  intros Hz. destruct z as [|p|p].
  - reflexivity.
  - apply parseInt_pretty_pos, Hz.
  - unfold pretty, pretty_Z, pretty, pretty_positive, pretty, pretty_N.
    destruct (decide (N.pos p = 0%N)) as [E|_]; [discriminate|].
    change (parseInt ("-" +:+ pretty_N_go (N.pos p) ""))
      with (Z.opp <$> digits (pretty_N_go (N.pos p) "") None).
    rewrite digits_pretty_N_go by reflexivity. reflexivity.
Qed.

Lemma pretty_truthy (z : Z) : truthy (Some (pretty z)) = true.
Proof.
  unfold truthy. apply negb_true_iff, String.eqb_neq.
  destruct z as [|p|p]; [discriminate| |];
    unfold pretty, pretty_Z, pretty, pretty_positive, pretty, pretty_N;
    (destruct (decide (N.pos p = 0%N)) as [E|_]; [discriminate|]);
    destruct (pretty_N_go_head (N.pos p) "" eq_refl) as (d & rest & _ & E).
  - rewrite E. discriminate.
  - discriminate.
Qed.

End Decimal.

(** ** Requests of one window *)

Section FixedWindowMore.

Import RateLimiterMiddleware.

Lemma windowStart_bounds now :
  let ws := windowStart defaultConfig now in
  ws <= now < ws + 60000.
Proof.
  unfold windowStart. simpl windowMs.
  pose proof (Z.mul_div_le now 60000 ltac:(lia)).
  pose proof (Z.mul_succ_div_gt now 60000 ltac:(lia)). lia.
Qed.

Lemma ceil_seconds_bounds ms :
  0 < ms <= 60000 -> 1 <= ceil_seconds ms <= 60.
Proof.
  intros [Hlo Hhi]. unfold ceil_seconds. split.
  - apply ceiling_pos. apply Qlt_shift_div_l; [reflexivity|].
    rewrite Qmult_0_l. unfold Zq. change 0%Q with (inject_Z 0).
    rewrite <- Zlt_Qlt. exact Hlo.
  - rewrite <- (Qceiling_Z 60). apply Qceiling_resp_le.
    apply Qle_shift_div_r; [reflexivity|].
    unfold Zq. change (inject_Z 60 * 1000)%Q with (inject_Z 60000).
    rewrite <- Zle_Qle. exact Hhi.
Qed.

(** X15. The middleware has two answers only: it passes the request on,
    or it answers 429 with a wait of 1 to 60 seconds in message and
    body, nothing logged, and an X-RateLimit-Reset header naming an
    instant after now and at most a minute ahead. *)
Theorem rateLimiter_answers (RATE_LIMIT : option KVNamespace)
  (req : Request) (now : Z) :
  let c := rateLimiter RATE_LIMIT req now in
  res c = Next \/
  exists retry,
    1 <= retry <= 60 /\
    res c =
      Json [("error", JStr "Too Many Requests");
            ("message",
             JStr ("Rate limit exceeded. Try again in "
                   +:+ pretty retry +:+ " seconds"));
            ("retryAfter", JNum retry)] 429 /\
    console c = [] /\
    exists reset,
      res_headers c !! "X-RateLimit-Reset"%string = Some (pretty reset) /\
      now < reset <= now + 60000.
Proof.
  cbv zeta. unfold rateLimiter.
  destruct RATE_LIMIT as [kv|]; [|left; reflexivity].
  destruct (get_throws kv); [left; reflexivity|].
  destruct (at_limit _ _).
  - right. pose proof (windowStart_bounds now) as Hw. cbv zeta in Hw.
    eexists. split; [|split; [reflexivity|split; [reflexivity|]]].
    + apply ceil_seconds_bounds. simpl windowMs. lia.
    + eexists. split; [apply lookup_insert_eq|]. simpl windowMs. lia.
  - destruct (put_throws kv); left; reflexivity.
Qed.

Lemma rateLimiter_step data req now k :
  count_of (fst <$> data !! windowKey defaultConfig req now) = Some k ->
  let c := rateLimiter (Some (mkKV data false false)) req now in
  if bool_decide (100 <= k) then
    status_of (res c) = Some 429 /\ store c = Some data
  else
    res c = Next /\
    store c =
      Some (<[windowKey defaultConfig req now := (pretty (k + 1), 120)]>
              data) /\
    res_headers c !! "X-RateLimit-Remaining"%string
      = Some (pretty (99 - k)).
Proof.
  intros Hk. cbv zeta. unfold rateLimiter.
  cbn [get_throws put_throws RateLimiterMiddleware.data]. rewrite Hk.
  unfold at_limit. simpl max.
  case_bool_decide.
  - split; reflexivity.
  - split; [reflexivity|]. split.
    + reflexivity.
    + cbn [res_headers]. rewrite lookup_insert_ne by discriminate.
      rewrite lookup_insert_eq. cbn [toString fmap option_fmap option_map].
      do 2 f_equal. lia.
Qed.

Lemma windowKey_same_window req t t0 :
  windowStart defaultConfig t = windowStart defaultConfig t0 ->
  windowKey defaultConfig req t = windowKey defaultConfig req t0.
Proof. intros E. unfold windowKey. rewrite E. reflexivity. Qed.

Lemma serve_cons data req now ts :
  serve data req (now :: ts) =
    (res (rateLimiter (Some (mkKV data false false)) req now)
       :: fst (serve (default data
                        (store (rateLimiter (Some (mkKV data false false))
                                  req now))) req ts),
     snd (serve (default data
                   (store (rateLimiter (Some (mkKV data false false))
                             req now))) req ts)).
Proof. reflexivity. Qed.

(** X16. The fixed window admits up to the maximum and no more: of the
    requests a client makes within one window, on a working store
    holding a count of [k], a safe integer, the first [100 - k] pass and
    all later ones are answered 429; the counter ends at [k] plus the
    number passed.  The counter is kept as decimal text and read back
    with [parseInt]; beyond the safe integers the code would read and
    count in rounded doubles. *)
Theorem fixed_window_admits_up_to_max data req t0 times k :
  Forall (fun t => windowStart defaultConfig t = windowStart defaultConfig t0)
    times ->
  count_of (fst <$> data !! windowKey defaultConfig req t0) = Some k ->
  safe_integer k ->
  let passed := Nat.min (length times) (Z.to_nat (100 - k)) in
  let served := serve data req times in
  status_of <$> fst served
    = replicate passed None ++ replicate (length times - passed) (Some 429) /\
  count_of (fst <$> snd served !! windowKey defaultConfig req t0)
    = Some (k + Z.of_nat passed).
Proof.
  revert data k.
  induction times as [|now ts IH]; intros data k Hall Hk Hsafe.
  - simpl. rewrite Z.add_0_r. split; [reflexivity|exact Hk].
  - apply Forall_cons in Hall as [Hnow Hall].
    pose proof (windowKey_same_window req now t0 Hnow) as Hkey.
    rewrite <- Hkey in Hk.
    pose proof (rateLimiter_step data req now k Hk) as Hstep.
    cbv zeta in Hstep. cbv zeta. rewrite serve_cons. simpl length.
    cbn [fst snd].
    case_bool_decide as Hlim.
    + destruct Hstep as [Hres Hstore]. rewrite Hstore. simpl default.
      rewrite Hkey in Hk.
      destruct (IH data k Hall Hk Hsafe) as [IH1 IH2].
      cbv zeta in IH1, IH2.
      replace (Z.to_nat (100 - k)) with 0%nat in * by lia.
      rewrite Nat.min_0_r in *. rewrite Nat.sub_0_r in *.
      rewrite fmap_cons, Hres, IH1. split; [reflexivity|exact IH2].
    + destruct Hstep as (Hres & Hstore & _). rewrite Hstore. simpl default.
      assert (Hsafe' : safe_integer (k + 1))
        by (unfold safe_integer, MAX_SAFE_INTEGER in *; lia).
      assert (Hk' : count_of
                (fst <$> <[windowKey defaultConfig req now :=
                             (pretty (k + 1), 120)]> data
                   !! windowKey defaultConfig req t0) = Some (k + 1)).
      { rewrite Hkey, lookup_insert_eq. simpl fmap. unfold count_of.
        rewrite pretty_truthy. simpl default.
        apply parseInt_pretty, Hsafe'. }
      destruct (IH _ (k + 1) Hall Hk' Hsafe') as [IH1 IH2].
      cbv zeta in IH1, IH2.
      replace (Z.to_nat (100 - k)) with (S (Z.to_nat (100 - (k + 1))))
        by lia.
      rewrite <- Nat.succ_min_distr. rewrite fmap_cons, Hres, IH1.
      split; [reflexivity|]. rewrite IH2. f_equal. lia.
Qed.

Lemma fixed_window_admits_up_to_max_witness :
  Forall (fun t => windowStart defaultConfig t
                   = windowStart defaultConfig 60000)
    [60000; 60001; 70000] /\
  count_of (fst <$> nearly_exhausted
              !! windowKey defaultConfig anonymous_request 60000)
    = Some 98 /\
  safe_integer 98 /\
  status_of <$>
    fst (serve nearly_exhausted anonymous_request [60000; 60001; 70000])
    = [None; None; Some 429] /\
  count_of (fst <$> snd (serve nearly_exhausted anonymous_request
                           [60000; 60001; 70000])
              !! windowKey defaultConfig anonymous_request 60000)
    = Some 100.
Proof.
  assert (H1 : Forall (fun t => windowStart defaultConfig t
                                = windowStart defaultConfig 60000)
                 [60000; 60001; 70000])
    by (repeat (constructor; try reflexivity)).
  assert (H2 : count_of (fst <$> nearly_exhausted
                 !! windowKey defaultConfig anonymous_request 60000)
               = Some 98)
    by (vm_compute; reflexivity).
  assert (H3 : safe_integer 98)
    by (unfold safe_integer, MAX_SAFE_INTEGER; lia).
  split; [exact H1|]. split; [exact H2|]. split; [exact H3|].
  exact (fixed_window_admits_up_to_max nearly_exhausted anonymous_request
           60000 [60000; 60001; 70000] 98 H1 H2 H3).
Defined.

End FixedWindowMore.

(** * Further properties of the authentication middleware *)

Section AuthMore.

Import Auth.

Lemma split_comma_free k : comma_free k -> split "," k = [k].
Proof.
  induction k as [|c k IH]; simpl; [reflexivity|].
  intros [Hc Hk]. rewrite (proj2 (Ascii.eqb_neq c ",") Hc).
  rewrite (IH Hk). reflexivity.
Qed.

Lemma split_comma_free_app k rest :
  comma_free k ->
  split "," (k +:+ String "," rest) = k :: split "," rest.
Proof.
  induction k as [|c k IH]; simpl; [reflexivity|].
  intros [Hc Hk]. rewrite (proj2 (Ascii.eqb_neq c ",") Hc).
  rewrite (IH Hk). reflexivity.
Qed.

Lemma split_concat keys :
  Forall comma_free keys -> keys <> [] ->
  split "," (String.concat "," keys) = keys.
Proof.
  induction keys as [|k ks IH]; intros Hall Hne; [contradiction|].
  apply Forall_cons in Hall as [Hk Hks].
  destruct ks as [|k' ks].
  - simpl. apply split_comma_free, Hk.
  - change (String.concat "," (k :: k' :: ks))
      with (k +:+ String "," (String.concat "," (k' :: ks))).
    rewrite split_comma_free_app by exact Hk.
    rewrite IH by (try exact Hks; discriminate). reflexivity.
Qed.

Lemma validKeys_concat (keys : list string) :
  Forall comma_free keys ->
  validKeys (mkEnv (Some (String.concat "," keys)))
  = filter (fun k => k <> EmptyString) keys.
Proof.
  intros Hall. unfold validKeys. simpl default.
  destruct keys as [|k ks]; [reflexivity|].
  rewrite split_concat by (try exact Hall; discriminate). reflexivity.
Qed.

(** X17. The configured key set is what was written: an API_KEYS text
    made of keys joined by commas is read back as those keys, in order,
    without the empty ones. *)
Theorem validKeys_of_joined (keys : list string) :
  Forall comma_free keys ->
  validKeys (mkEnv (Some (String.concat "," keys)))
  = filter (fun k => k <> EmptyString) keys /\
  (keys = [] \/ Forall (fun k => k = EmptyString) keys ->
   validKeys (mkEnv (Some (String.concat "," keys))) = []).
Proof.
  intros Hall. rewrite validKeys_concat by exact Hall. split; [reflexivity|].
  intros [->|Hempty]; [reflexivity|].
  induction Hempty as [|k ks Hk _ IH]; [reflexivity|].
  apply Forall_cons in Hall as [_ Hall].
  rewrite filter_cons_False by (intros Hn; apply Hn, Hk). apply IH, Hall.
Qed.

Lemma validKeys_of_joined_witness :
  Forall comma_free ["k1"; ""; "k2"]%string /\
  validKeys (mkEnv (Some (String.concat "," ["k1"; ""; "k2"]%string)))
  = ["k1"; "k2"]%string.
Proof.
  assert (H : Forall comma_free ["k1"; ""; "k2"]%string)
    by (simpl; repeat first [discriminate | constructor]).
  split; [exact H|].
  destruct (validKeys_of_joined ["k1"; ""; "k2"]%string H) as [E _].
  rewrite E. reflexivity.
Defined.

(** X18. With a configured key set, a request outside /health that
    presents an API key passes exactly when the key is one of the
    configured keys, and is answered 401 "Invalid API key" otherwise. *)
Theorem auth_accepts_configured_keys (keys : list string) (req : Request) k :
  Forall comma_free keys ->
  Forall (fun k => k <> EmptyString) keys ->
  keys <> [] ->
  path req <> "/health"%string ->
  header req "X-API-Key" = Some k -> k <> EmptyString ->
  (auth (mkEnv (Some (String.concat "," keys))) req = Next <-> k ∈ keys) /\
  (k ∉ keys ->
   auth (mkEnv (Some (String.concat "," keys))) req
   = unauthorized "Invalid API key").
Proof.
  intros Hcf Hne Hkeys Hp Hk Hk'.
  assert (Hv : validKeys (mkEnv (Some (String.concat "," keys))) = keys).
  { rewrite validKeys_concat by exact Hcf.
    clear -Hne. induction Hne as [|x l Hx _ IH]; [reflexivity|].
    rewrite filter_cons_True by exact Hx. rewrite IH. reflexivity. }
  unfold auth. rewrite (proj2 (String.eqb_neq _ _) Hp), Hk.
  assert (Ht : truthy (Some k) = true)
    by (apply negb_true_iff, String.eqb_neq, Hk').
  rewrite Ht, Hv. simpl default.
  rewrite bool_decide_eq_true_2
    by (destruct keys; [contradiction|simpl; lia]).
  case_bool_decide as Hin; simpl.
  - split; [tauto|contradiction].
  - split; [|reflexivity]. split; [discriminate|contradiction].
Qed.

Lemma auth_accepts_configured_keys_witness :
  Forall comma_free ["k1"; "k2"]%string /\
  Forall (fun k => k <> EmptyString) ["k1"; "k2"]%string /\
  ["k1"; "k2"]%string <> [] /\
  path (with_header "/api/echo" "X-API-Key" "k2") <> "/health"%string /\
  header (with_header "/api/echo" "X-API-Key" "k2") "X-API-Key"
    = Some "k2"%string /\
  "k2"%string <> EmptyString /\
  auth (mkEnv (Some (String.concat "," ["k1"; "k2"]%string)))
    (with_header "/api/echo" "X-API-Key" "k2") = Next.
Proof.
  assert (H1 : Forall comma_free ["k1"; "k2"]%string)
    by (simpl; repeat first [discriminate | constructor]).
  assert (H2 : Forall (fun k => k <> EmptyString) ["k1"; "k2"]%string)
    by (repeat first [discriminate | constructor]).
  assert (H3 : ["k1"; "k2"]%string <> []) by discriminate.
  assert (H4 : path (with_header "/api/echo" "X-API-Key" "k2")
               <> "/health"%string) by discriminate.
  assert (H5 : header (with_header "/api/echo" "X-API-Key" "k2") "X-API-Key"
               = Some "k2"%string) by reflexivity.
  assert (H6 : "k2"%string <> EmptyString) by discriminate.
  repeat (split; [assumption|]).
  destruct (auth_accepts_configured_keys ["k1"; "k2"]%string
              (with_header "/api/echo" "X-API-Key" "k2") "k2"
              H1 H2 H3 H4 H5 H6) as [[_ Hin] _].
  apply Hin. right. left.
Defined.

End AuthMore.

(** * Further properties of the metrics collector *)

Section MetricsMore.

Import MetricsCollector.

Lemma record_metrics_pos (c : t) (m : RequestMetric) :
  1 <= maxMetrics c ->
  metrics (record c m)
  = drop (length (metrics c) + 1 - Z.to_nat (maxMetrics c))
      (metrics c ++ [m]).
Proof.
  intros Hmax. unfold record. cbv zeta.
  rewrite length_app. simpl length.
  case_bool_decide as Hlen; simpl metrics.
  - unfold slice_last.
    rewrite (proj2 (Z.eqb_neq _ _)) by lia.
    rewrite (proj2 (Z.ltb_lt _ _)) by lia.
    rewrite length_app. reflexivity.
  - replace (length (metrics c) + 1 - Z.to_nat (maxMetrics c))%nat
      with 0%nat by lia.
    reflexivity.
Qed.

Lemma record_maxMetrics (c : t) m : maxMetrics (record c m) = maxMetrics c.
Proof. unfold record. cbv zeta. case_bool_decide; reflexivity. Qed.

Lemma fold_record_maxMetrics ms c :
  maxMetrics (fold_left record ms c) = maxMetrics c.
Proof.
  revert c. induction ms as [|m ms IH]; intros c; [reflexivity|].
  simpl. rewrite IH. apply record_maxMetrics.
Qed.

(** X19. The collector is a bounded buffer of the latest metrics: after
    recording [ms] into a new collector of capacity [max >= 1] it holds
    the last [max] of them, oldest first (all of them while there are
    at most [max]). *)
Theorem record_keeps_latest (max : Z) (ms : list RequestMetric) :
  1 <= max ->
  metrics (fold_left record ms (new max))
  = drop (length ms - Z.to_nat max) ms.
Proof.
  intros Hmax. induction ms as [|m ms IH] using rev_ind; [reflexivity|].
  rewrite fold_left_app. simpl fold_left.
  rewrite record_metrics_pos
    by (rewrite fold_record_maxMetrics; exact Hmax).
  rewrite fold_record_maxMetrics, IH. simpl maxMetrics.
  rewrite length_drop, length_app. simpl length.
  destruct (decide (length ms <= Z.to_nat max - 1)%nat) as [Hs|Hl].
  - replace (length ms - Z.to_nat max)%nat with 0%nat by lia.
    rewrite drop_0.
    replace (length ms - 0 + 1 - Z.to_nat max)%nat with 0%nat by lia.
    replace (length ms + 1 - Z.to_nat max)%nat with 0%nat by lia.
    reflexivity.
  - replace (length ms - (length ms - Z.to_nat max) + 1 - Z.to_nat max)%nat
      with 1%nat by lia.
    rewrite drop_app_le by (rewrite length_drop; lia).
    rewrite (drop_app_le ms) by lia.
    rewrite drop_drop. do 2 f_equal. lia.
Qed.

Lemma record_keeps_latest_witness :
  1 <= 3 /\
  metrics (fold_left record sample_metrics (new 3))
  = [sample_metric 50 200; sample_metric 80 200; sample_metric 40 200].
Proof.
  assert (H : 1 <= 3) by lia.
  split; [exact H|].
  rewrite (record_keeps_latest 3 sample_metrics H). reflexivity.
Defined.

(** X20. A capacity of 0 is no bound at all: [slice(-0)] keeps the whole
    array, so a collector built with [maxMetrics = 0] holds every metric
    ever recorded. *)
Theorem record_zero_capacity (ms : list RequestMetric) :
  metrics (fold_left record ms (new 0)) = ms.
Proof.
  induction ms as [|m ms IH] using rev_ind; [reflexivity|].
  rewrite fold_left_app. simpl fold_left. unfold record at 1. cbv zeta.
  rewrite fold_record_maxMetrics. simpl maxMetrics.
  rewrite IH. case_bool_decide; reflexivity.
Qed.

Lemma countZ_split {A} (f : A -> bool) (l : list A) :
  countZ f l + countZ (fun x => negb (f x)) l = Z.of_nat (length l).
Proof.
  unfold countZ. induction l as [|x l IH]; [reflexivity|].
  simpl. destruct (f x); simpl length; lia.
Qed.

Lemma countZ_bounds {A} (f : A -> bool) (l : list A) :
  0 <= countZ f l <= Z.of_nat (length l).
Proof.
  unfold countZ. pose proof (List.filter_length_le f l). lia.
Qed.

Lemma countZ_mono {A} (f g : A -> bool) (l : list A) :
  (forall x, f x = true -> g x = true) -> countZ f l <= countZ g l.
Proof.
  intros Hfg. unfold countZ. induction l as [|x l IH]; [reflexivity|].
  simpl. destruct (f x) eqn:Hf.
  - rewrite (Hfg x Hf). simpl length. lia.
  - destruct (g x); simpl length; lia.
Qed.

(** X21. The request counts of an aggregate add up: [total] is the
    number of metrics in the window, every one of them is either a
    success (status 200 to 399) or an error, the cached ones are among
    them, and the rate-limited ones (429) are among the errors. *)
Theorem aggregated_counts (ms : list RequestMetric) (now windowMinutes : Z) :
  let a := getAggregated ms now windowMinutes in
  let rq := agg_requests a in
  total rq = Z.of_nat (length (relevant ms now windowMinutes)) /\
  total rq = success rq + errors rq /\
  0 <= success rq /\ 0 <= errors rq /\
  0 <= n_cached rq <= total rq /\
  0 <= rateLimit_limited a <= errors rq.
Proof.
  cbv zeta. unfold getAggregated.
  set (rel := relevant ms now windowMinutes).
  case_bool_decide as Hempty.
  - simpl. rewrite Hempty. lia.
  - cbv zeta. cbn [agg_requests total success errors n_cached
                   rateLimit_limited].
    set (ok := fun m : RequestMetric =>
                 (Z.leb 200 (statusCode m) && Z.ltb (statusCode m) 400)%bool).
    pose proof (countZ_split ok rel).
    pose proof (countZ_bounds ok rel).
    pose proof (countZ_bounds (fun m => negb (ok m)) rel).
    pose proof (countZ_bounds cached rel).
    pose proof (countZ_bounds (fun m => Z.eqb (statusCode m) 429) rel).
    assert (countZ (fun m => Z.eqb (statusCode m) 429) rel
            <= countZ (fun m => negb (ok m)) rel).
    { apply countZ_mono. intros m Hm. apply Z.eqb_eq in Hm.
      unfold ok. rewrite Hm. reflexivity. }
    change (fun m : RequestMetric =>
              negb ((200 <=? statusCode m) && (statusCode m <? 400)))
      with (fun m => negb (ok m)).
    lia.
Qed.

Lemma sum_bounds (lo hi : Z) (l : list Z) (acc : Z) :
  Forall (fun x => lo <= x <= hi) l ->
  acc + lo * Z.of_nat (length l) <= fold_left Z.add l acc
  <= acc + hi * Z.of_nat (length l).
Proof.
  intros Hall. revert acc. induction Hall as [|x l Hx _ IH]; intros acc.
  - simpl. lia.
  - simpl fold_left. specialize (IH (acc + x)). simpl length. lia.
Qed.

Lemma latencies_elem rel a :
  a ∈ latencies rel -> exists m, m ∈ rel /\ latencyMs m = a.
Proof.
  unfold latencies. rewrite merge_sort_Permutation.
  intros H. apply list_elem_of_fmap in H as (m & -> & Hm). eauto.
Qed.

(** X22. The latency figures of a non-empty window are latencies that
    were recorded: [min] and [max] are latencies of metrics in the
    window and bound all of them, the average lies between them, and
    each percentile is a recorded latency between them. *)
Theorem latency_extremes (ms : list RequestMetric) (now windowMinutes : Z) :
  relevant ms now windowMinutes <> [] ->
  let rel := relevant ms now windowMinutes in
  let lat := agg_latency (getAggregated ms now windowMinutes) in
  exists lo hi,
    min lat = Some lo /\ max lat = Some hi /\
    (forall m, m ∈ rel -> lo <= latencyMs m <= hi) /\
    (exists m, m ∈ rel /\ latencyMs m = lo) /\
    (exists m, m ∈ rel /\ latencyMs m = hi) /\
    (Zq lo <= avg lat <= Zq hi)%Q /\
    (forall a, p50 lat = Some a \/ p95 lat = Some a \/ p99 lat = Some a ->
       lo <= a <= hi /\ exists m, m ∈ rel /\ latencyMs m = a).
Proof.
  intros Hne. cbv zeta. unfold getAggregated.
  set (rel := relevant ms now windowMinutes) in *.
  rewrite bool_decide_eq_false_2
    by (destruct rel; [contradiction|discriminate]).
  cbv zeta. cbn [agg_latency min max avg p50 p95 p99].
  set (lat := latencies rel).
  pose proof (latencies_sorted rel) as Hs. fold lat in Hs.
  pose proof (latencies_length rel) as Hlen. fold lat in Hlen.
  assert (Hn : (0 < length lat)%nat)
    by (rewrite Hlen; destruct rel; [contradiction|simpl; lia]).
  destruct (lookup_lt_is_Some_2 lat 0 Hn) as [lo Hlo].
  destruct (lookup_lt_is_Some_2 lat (length lat - 1) ltac:(lia)) as [hi Hhi].
  assert (Hall : forall a, a ∈ lat -> lo <= a <= hi).
  { intros a Ha. apply list_elem_of_lookup in Ha as [i Hi].
    pose proof (lookup_lt_Some _ _ _ Hi).
    split.
    - apply (StronglySorted_lookup_le lat 0 i); [exact Hs|lia|assumption..].
    - apply (StronglySorted_lookup_le lat i (length lat - 1));
        [exact Hs|lia|assumption..]. }
  exists lo, hi. split; [exact Hlo|]. split; [exact Hhi|].
  split; [|split; [|split; [|split]]].
  - intros m Hm. apply Hall. unfold lat, latencies.
    rewrite merge_sort_Permutation. apply list_elem_of_fmap. eauto.
  - apply latencies_elem. eapply list_elem_of_lookup_2, Hlo.
  - apply latencies_elem. eapply list_elem_of_lookup_2, Hhi.
  - assert (HF : Forall (fun x => lo <= x <= hi) lat)
      by (apply Forall_forall; exact Hall).
    pose proof (sum_bounds lo hi lat 0 HF) as [Hlow Hhigh].
    assert (Hpos : (0 < Zq (Z.of_nat (length lat)))%Q).
    { unfold Zq. change 0%Q with (inject_Z 0). rewrite <- Zlt_Qlt. lia. }
    split.
    + apply Qle_shift_div_l; [exact Hpos|].
      unfold Zq. rewrite <- inject_Z_mult, <- Zle_Qle. lia.
    + apply Qle_shift_div_r; [exact Hpos|].
      unfold Zq. rewrite <- inject_Z_mult, <- Zle_Qle. lia.
  - intros a Ha.
    assert (Hin : a ∈ lat).
    { unfold _percentile in Ha.
      destruct Ha as [Ha|[Ha|Ha]]; eapply list_elem_of_lookup_2, Ha. }
    split; [apply Hall, Hin|apply latencies_elem, Hin].
Qed.

Lemma latency_extremes_witness :
  relevant sample_metrics 2000 5 <> [] /\
  exists lo hi,
    min (agg_latency (getAggregated sample_metrics 2000 5)) = Some lo /\
    max (agg_latency (getAggregated sample_metrics 2000 5)) = Some hi /\
    (Zq lo <= avg (agg_latency (getAggregated sample_metrics 2000 5))
     <= Zq hi)%Q.
Proof.
  assert (H : relevant sample_metrics 2000 5 <> []) by discriminate.
  split; [exact H|].
  destruct (latency_extremes sample_metrics 2000 5 H)
    as (lo & hi & Hlo & Hhi & _ & _ & _ & Havg & _).
  exists lo, hi. split; [exact Hlo|]. split; [exact Hhi|exact Havg].
Defined.

Lemma ceiling_share_full (p : Z) (n : nat) :
  0 < p <= 100 -> (0 < n)%nat ->
  Z.of_nat n * (100 - p) < 100 ->
  Qceiling ((Zq p / 100) * Zq (Z.of_nat n)) = Z.of_nat n.
Proof.
  intros Hp Hn Hsmall. apply Z.le_antisymm.
  - apply ceiling_share_le. lia.
  - pose proof (Qle_ceiling ((Zq p / 100) * Zq (Z.of_nat n))) as Hc.
    assert (Hlt : (inject_Z (Z.of_nat n - 1)
                   < (Zq p / 100) * Zq (Z.of_nat n))%Q).
    { unfold Zq.
      assert (E : (inject_Z p / 100 * inject_Z (Z.of_nat n)
                   == inject_Z (p * Z.of_nat n) / 100)%Q)
        by (rewrite inject_Z_mult; unfold Qdiv; ring).
      rewrite E. apply Qlt_shift_div_l; [reflexivity|].
      change 100%Q with (inject_Z 100).
      rewrite <- inject_Z_mult, <- Zlt_Qlt. lia. }
    assert (Hz : (inject_Z (Z.of_nat n - 1)
                  < inject_Z (Qceiling ((Zq p / 100) * Zq (Z.of_nat n))))%Q)
      by (eapply Qlt_le_trans; [exact Hlt|exact Hc]).
    rewrite <- Zlt_Qlt in Hz. lia.
Qed.

(** X23. High percentiles of small samples are the maximum: with fewer
    than 100 metrics in the window p99 is [max], with fewer than 20 so
    is p95, and with a single metric p50, [min] and [max] coincide. *)
Theorem high_percentiles_of_small_samples
  (ms : list RequestMetric) (now windowMinutes : Z) :
  let rel := relevant ms now windowMinutes in
  let lat := agg_latency (getAggregated ms now windowMinutes) in
  rel <> [] ->
  ((length rel < 100)%nat -> p99 lat = max lat) /\
  ((length rel < 20)%nat -> p95 lat = max lat) /\
  ((length rel < 2)%nat -> p50 lat = max lat /\ min lat = max lat).
Proof.
  cbv zeta. intros Hne. unfold getAggregated.
  set (rel := relevant ms now windowMinutes) in *.
  rewrite bool_decide_eq_false_2
    by (destruct rel; [contradiction|discriminate]).
  cbv zeta. cbn [agg_latency min max p50 p95 p99].
  pose proof (latencies_length rel) as Hlen.
  set (lat := latencies rel) in *.
  assert (Hn : (0 < length lat)%nat)
    by (rewrite Hlen; destruct rel; [contradiction|simpl; lia]).
  unfold _percentile.
  split; [|split]; intros Hsmall.
  - rewrite ceiling_share_full by lia. f_equal. lia.
  - rewrite ceiling_share_full by lia. f_equal. lia.
  - rewrite ceiling_share_full by lia.
    split; f_equal; lia.
Qed.

Lemma high_percentiles_of_small_samples_witness :
  relevant sample_metrics 2000 5 <> [] /\
  p99 (agg_latency (getAggregated sample_metrics 2000 5))
  = max (agg_latency (getAggregated sample_metrics 2000 5)).
Proof.
  assert (H : relevant sample_metrics 2000 5 <> []) by discriminate.
  split; [exact H|].
  destruct (high_percentiles_of_small_samples sample_metrics 2000 5 H)
    as (H99 & _).
  apply H99. vm_compute. lia.
Defined.

End MetricsMore.

(** ** Health checks *)

Section HealthMore.

Import MetricsCollector.

Lemma checkUpstream_failures c upstream o t1 t2 t3 :
  failures_of (fst (checkUpstream c upstream o t1 t2 t3)) upstream
  = match o with
    | Response true => 0
    | _ => failures_of c upstream + 1
    end.
Proof.
  unfold failures_of, checkUpstream. cbv zeta. cbn [fst healthChecks].
  rewrite lookup_insert_eq.
  destruct o as [[|]|msg]; reflexivity.
Qed.

Lemma probes_failures upstream checks c :
  failures_of (probes c upstream checks) upstream
  = trailing_failures (pr_outcome <$> checks) (failures_of c upstream).
Proof.
  unfold probes. revert c.
  induction checks as [|p ps IH]; intros c; [reflexivity|].
  cbn [fold_left]. rewrite IH, checkUpstream_failures, fmap_cons.
  destruct (pr_outcome p) as [[|]|msg]; reflexivity.
Qed.

Lemma probes_other upstream other checks c :
  other <> upstream ->
  healthChecks (probes c upstream checks) !! other
  = healthChecks c !! other.
Proof.
  intros Hne. unfold probes. revert c.
  induction checks as [|p ps IH]; intros c; [reflexivity|].
  cbn [fold_left]. rewrite IH. unfold checkUpstream. cbv zeta.
  cbn [fst healthChecks]. apply lookup_insert_ne. congruence.
Qed.

Lemma probes_metrics upstream checks c :
  metrics (probes c upstream checks) = metrics c.
Proof.
  unfold probes. revert c.
  induction checks as [|p ps IH]; intros c; [reflexivity|].
  cbn [fold_left]. rewrite IH. reflexivity.
Qed.

(** X24. [consecutiveFailures] counts the failed checks since the last
    healthy one: after a series of checks of one upstream its record
    holds the number of trailing checks that did not get an [ok]
    response (added to the earlier count if none succeeded), it is
    healthy exactly when the last check got an [ok] response, and then
    the count is 0; latency and time are those of the last check; the
    records of other upstreams and the request metrics are
    untouched. *)
Theorem consecutiveFailures_since_last_success
  (c : t) (upstream : string) (checks : list probe) (p : probe) :
  let c' := probes c upstream (checks ++ [p]) in
  exists h,
    healthChecks c' !! upstream = Some h /\
    HealthCheckResult.upstream h = upstream /\
    HealthCheckResult.consecutiveFailures h
      = trailing_failures (pr_outcome <$> checks ++ [p])
          (failures_of c upstream) /\
    HealthCheckResult.healthy h
      = match pr_outcome p with Response true => true | _ => false end /\
    (HealthCheckResult.healthy h = true ->
     HealthCheckResult.consecutiveFailures h = 0) /\
    HealthCheckResult.latencyMs h = pr_ended p - pr_started p /\
    HealthCheckResult.lastCheck h = pr_checked p /\
    (forall other, other <> upstream ->
       healthChecks c' !! other = healthChecks c !! other) /\
    metrics c' = metrics c.
Proof.
  cbv zeta.
  pose proof (probes_failures upstream (checks ++ [p]) c) as Hf.
  pose proof (probes_other upstream) as Ho.
  pose proof (probes_metrics upstream (checks ++ [p]) c) as Hm.
  unfold probes in *. rewrite fold_left_app in *. cbn [fold_left] in *.
  set (c1 := fold_left _ checks c) in *.
  unfold failures_of at 1 in Hf.
  unfold checkUpstream in *. cbv zeta in *. cbn [fst healthChecks] in *.
  rewrite lookup_insert_eq in *. simpl from_option in Hf.
  eexists. split; [reflexivity|].
  split; [destruct (pr_outcome p) as [[|]|]; reflexivity|].
  split; [exact Hf|].
  split; [destruct (pr_outcome p) as [[|]|]; reflexivity|].
  split; [destruct (pr_outcome p) as [[|]|]; simpl; intros;
          try discriminate; reflexivity|].
  split; [destruct (pr_outcome p) as [[|]|]; reflexivity|].
  split; [destruct (pr_outcome p) as [[|]|]; reflexivity|].
  split; [|exact Hm].
  intros other Hne. specialize (Ho other (checks ++ [p]) c Hne).
  rewrite fold_left_app in Ho. exact Ho.
Qed.

End HealthMore.
(** ** Grouping and sorting *)

Section Grouping.

Context {K V A : Type} `{EqDecision K}.

Lemma assoc_upsert (k q : K) (init : V) (f : V -> V) (l : list (K * V)) :
  assoc k (upsert q init f l)
  = if decide (q = k) then Some (f (default init (assoc q l)))
    else assoc k l.
Proof.
  induction l as [|[k' v] l IH]; simpl.
  - destruct (decide (q = k)); reflexivity.
  - destruct (decide (k' = q)) as [->|Hne]; simpl.
    + destruct (decide (q = k)); reflexivity.
    + rewrite IH. destruct (decide (k' = k)) as [->|Hne'].
      * destruct (decide (q = k)); [congruence|reflexivity].
      * reflexivity.
Qed.

Lemma keys_upsert (q : K) (init : V) (f : V -> V) (l : list (K * V)) :
  fst <$> upsert q init f l
  = if decide (q ∈ fst <$> l) then fst <$> l else (fst <$> l) ++ [q].
Proof.
  induction l as [|[k' v] l IH].
  - simpl. destruct (decide (q ∈ [])) as [Hin|_]; [|reflexivity].
    apply elem_of_nil in Hin. contradiction.
  - cbn [upsert]. destruct (decide (k' = q)) as [->|Hne];
      rewrite !fmap_cons; cbn [fst].
    + rewrite decide_True by left. reflexivity.
    + rewrite IH. destruct (decide (q ∈ fst <$> l)) as [Hin|Hnin].
      * rewrite decide_True by (right; exact Hin). reflexivity.
      * rewrite decide_False; [reflexivity|].
        intros Hin. apply elem_of_cons in Hin as [->|Hin]; tauto.
Qed.

Lemma NoDup_upsert (q : K) (init : V) (f : V -> V) (l : list (K * V)) :
  NoDup (fst <$> l) -> NoDup (fst <$> upsert q init f l).
Proof.
  intros Hnd. rewrite keys_upsert.
  destruct (decide (q ∈ fst <$> l)) as [Hin|Hnin]; [exact Hnd|].
  apply NoDup_app. split; [exact Hnd|]. split.
  - intros x Hx Hq. apply list_elem_of_singleton in Hq. subst x. tauto.
  - apply NoDup_singleton.
Qed.

Lemma group_by_snoc (key : A -> K) (init : V) (step : A -> V -> V) xs x :
  group_by key init step (xs ++ [x])
  = upsert (key x) init (step x) (group_by key init step xs).
Proof. unfold group_by. rewrite fold_left_app. reflexivity. Qed.

Lemma NoDup_group_by (key : A -> K) (init : V) (step : A -> V -> V) xs :
  NoDup (fst <$> group_by key init step xs).
Proof.
  induction xs as [|x xs IH] using rev_ind; [apply NoDup_nil_2|].
  rewrite group_by_snoc. apply NoDup_upsert, IH.
Qed.

Lemma keys_group_by (key : A -> K) (init : V) (step : A -> V -> V) xs k :
  k ∈ fst <$> group_by key init step xs <-> k ∈ key <$> xs.
Proof.
  induction xs as [|x xs IH] using rev_ind; [reflexivity|].
  rewrite group_by_snoc, keys_upsert, fmap_app, elem_of_app. simpl.
  rewrite list_elem_of_singleton.
  destruct (decide (key x ∈ fst <$> group_by key init step xs)) as [Hin|Hnin].
  - rewrite IH. split; [tauto|]. intros [?| ->]; [assumption|].
    apply IH, Hin.
  - rewrite elem_of_app, list_elem_of_singleton, IH. reflexivity.
Qed.

(** The value of a key is the fold over the elements of that key, in
    order. *)
Lemma assoc_group_by (key : A -> K) (init : V) (step : A -> V -> V) xs k :
  assoc k (group_by key init step xs)
  = match filter (fun x => key x = k) xs with
    | [] => None
    | g => Some (fold_left (fun v x => step x v) g init)
    end.
Proof.
  induction xs as [|x xs IH] using rev_ind; [reflexivity|].
  rewrite group_by_snoc, assoc_upsert, filter_app.
  destruct (decide (key x = k)) as [E|Hne].
  - rewrite filter_cons_True by exact E. rewrite filter_nil.
    rewrite E, IH.
    destruct (filter (fun x => key x = k) xs) as [|y g]; [reflexivity|].
    cbn [app default]. rewrite app_comm_cons, fold_left_app. reflexivity.
  - rewrite filter_cons_False by exact Hne. rewrite filter_nil, app_nil_r.
    exact IH.
Qed.

Lemma assoc_elem_of (k : K) (v : V) (l : list (K * V)) :
  assoc k l = Some v -> (k, v) ∈ l.
Proof.
  induction l as [|[k' v'] l IH]; simpl; [discriminate|].
  destruct (decide (k' = k)) as [->|Hne].
  - intros [= ->]. left.
  - intros H. right. apply IH, H.
Qed.

Lemma elem_of_assoc (k : K) (v : V) (l : list (K * V)) :
  NoDup (fst <$> l) -> (k, v) ∈ l -> assoc k l = Some v.
Proof.
  induction l as [|[k' v'] l IH]; simpl; intros Hnd Hin.
  - apply elem_of_nil in Hin. contradiction.
  - apply NoDup_cons in Hnd as [Hk' Hnd].
    apply elem_of_cons in Hin as [[= -> ->]|Hin].
    + rewrite decide_True by reflexivity. reflexivity.
    + destruct (decide (k' = k)) as [->|Hne]; [|apply IH; assumption].
      exfalso. apply Hk'. apply list_elem_of_fmap. exists (k, v). auto.
Qed.

End Grouping.

Section StableSort.

Context {A : Type} (before : A -> A -> bool) (le : A -> A -> Prop).
Hypothesis le_trans : forall x y z, le x y -> le y z -> le x z.
Hypothesis before_le : forall x y, before x y = true -> le x y.
Hypothesis not_before_le : forall x y, before x y = false -> le y x.

Lemma insert_sorted_perm (x : A) (l : list A) :
  insert_sorted before x l ≡ₚ x :: l.
Proof.
  induction l as [|y l IH]; simpl; [reflexivity|].
  destruct (before x y); [reflexivity|].
  rewrite IH. apply Permutation_swap.
Qed.

Lemma stable_sort_perm (l : list A) : stable_sort before l ≡ₚ l.
Proof.
  unfold stable_sort.
  assert (H : forall acc, fold_left (fun acc x => insert_sorted before x acc)
                            l acc ≡ₚ acc ++ l).
  { induction l as [|x l IH]; intros acc; simpl.
    - rewrite app_nil_r. reflexivity.
    - rewrite IH, insert_sorted_perm.
      rewrite (Permutation_middle acc l x). reflexivity. }
  apply H.
Qed.

Lemma insert_sorted_sorted (x : A) (l : list A) :
  StronglySorted le l -> StronglySorted le (insert_sorted before x l).
Proof.
  induction 1 as [|y l Hs IH Hall]; simpl.
  - constructor; constructor.
  - destruct (before x y) eqn:Hb.
    + constructor; [constructor; assumption|].
      constructor; [apply before_le, Hb|].
      eapply Forall_impl; [exact Hall|].
      intros z Hz. eapply le_trans; [apply before_le, Hb|exact Hz].
    + constructor; [exact IH|].
      rewrite insert_sorted_perm. constructor; [|exact Hall].
      apply not_before_le, Hb.
Qed.

Lemma stable_sort_sorted (l : list A) : StronglySorted le (stable_sort before l).
Proof.
  unfold stable_sort.
  assert (H : forall acc, StronglySorted le acc ->
            StronglySorted le
              (fold_left (fun acc x => insert_sorted before x acc) l acc)).
  { induction l as [|x l IH]; intros acc Hacc; simpl; [exact Hacc|].
    apply IH, insert_sorted_sorted, Hacc. }
  apply H. constructor.
Qed.

End StableSort.

(** ** Time series *)

Section TimeSeries.

Import MetricsCollector.

Lemma buckets_group metrics now windowMinutes bucketMs :
  buckets metrics (now - windowMinutes * 60 * 1000) bucketMs
  = group_by (bucketTime bucketMs) [] (fun m ms => ms ++ [m])
      (relevant metrics now windowMinutes).
Proof.
  unfold buckets, group_by, relevant. cbv zeta.
  generalize (@nil (Z * list RequestMetric)).
  induction metrics as [|m ms IH]; intros acc; [reflexivity|].
  cbn [fold_left]. rewrite filter_cons.
  destruct (decide (now - windowMinutes * 60 * 1000 <= timestamp m))
    as [Hin|Hout].
  - rewrite (proj2 (Z.ltb_ge _ _) Hin). cbn [fold_left]. apply IH.
  - rewrite (proj2 (Z.ltb_lt _ _)) by lia. apply IH.
Qed.

Lemma fold_snoc (g init : list RequestMetric) :
  fold_left (fun v x => v ++ [x]) g init = init ++ g.
Proof.
  revert init. induction g as [|x g IH]; intros init; simpl.
  - rewrite app_nil_r. reflexivity.
  - rewrite IH, <- app_assoc. reflexivity.
Qed.

Lemma bucket_of rel (bucketMs b : Z) (g : list RequestMetric) :
  (b, g) ∈ group_by (bucketTime bucketMs) [] (fun m ms => ms ++ [m]) rel ->
  g = filter (fun m => bucketTime bucketMs m = b) rel /\ g <> [].
Proof.
  intros Hin. apply elem_of_assoc in Hin; [|apply NoDup_group_by].
  rewrite assoc_group_by in Hin.
  destruct (filter (fun x => bucketTime bucketMs x = b) rel) as [|y g'] eqn:E;
    [discriminate|].
  injection Hin as <-. rewrite fold_snoc. split; [reflexivity|discriminate].
Qed.

Lemma bucketTime_spec (bucketMs : Z) (m : RequestMetric) (b : Z) :
  0 < bucketMs ->
  bucketTime bucketMs m = b <->
  b mod bucketMs = 0 /\ b <= timestamp m < b + bucketMs.
Proof.
  intros Hpos. unfold bucketTime.
  pose proof (Z.div_mod (timestamp m) bucketMs ltac:(lia)) as Hdm.
  pose proof (Z.mod_pos_bound (timestamp m) bucketMs Hpos) as Hb.
  split.
  - intros <-. split; [apply Z.mod_mul; lia|]. lia.
  - intros [Hmod [Hlo Hhi]].
    apply Z.mod_divide in Hmod; [|lia]. destruct Hmod as [c ->].
    f_equal. nia.
Qed.

Lemma filter_ext_length {B} (P Q : B -> Prop)
  `{forall x, Decision (P x)} `{forall x, Decision (Q x)} (l : list B) :
  (forall x, P x <-> Q x) -> filter P l = filter Q l.
Proof.
  intros HPQ. induction l as [|x l IH]; [reflexivity|].
  rewrite !filter_cons.
  destruct (decide (P x)) as [Hp|Hp], (decide (Q x)) as [Hq|Hq];
    rewrite IH; try reflexivity; exfalso; apply HPQ in Hp || apply Hp, HPQ;
    tauto.
Qed.

Lemma fold_add_foldr (l : list Z) (a : Z) :
  fold_left Z.add l a = a + foldr Z.add 0 l.
Proof.
  revert a. induction l as [|x l IH]; intros a; simpl; [lia|].
  rewrite IH. lia.
Qed.

Lemma foldr_add_perm (l l' : list Z) :
  l ≡ₚ l' -> foldr Z.add 0 l = foldr Z.add 0 l'.
Proof. induction 1; simpl; lia. Qed.

Lemma group_sizes {K} `{EqDecision K} (key : RequestMetric -> K) rel :
  foldr Z.add 0
    ((fun b => Z.of_nat (length (snd b)))
       <$> group_by key [] (fun m ms => ms ++ [m]) rel)
  = Z.of_nat (length rel).
Proof.
  induction rel as [|x rel IH] using rev_ind; [reflexivity|].
  rewrite group_by_snoc, length_app, Nat2Z.inj_add, <- IH. simpl length.
  generalize (group_by key [] (fun m ms => ms ++ [m]) rel).
  intros l. induction l as [|[k' v] l IHl]; [reflexivity|].
  cbn [upsert]. destruct (decide (k' = key x)); rewrite !fmap_cons;
    cbn [foldr snd].
  - rewrite length_app. simpl length. lia.
  - rewrite IHl. lia.
Qed.

Lemma sorted_distinct {B} (key : B -> Z) (l : list B) :
  StronglySorted (fun a b => key a <= key b) l ->
  NoDup (key <$> l) ->
  StronglySorted (fun a b => key a < key b) l.
Proof.
  induction 1 as [|x l Hs IH Hall]; intros Hnd; [constructor|].
  rewrite fmap_cons in Hnd. apply NoDup_cons in Hnd as [Hx Hnd].
  constructor; [apply IH, Hnd|].
  apply Forall_forall. intros y Hy.
  pose proof (proj1 (Forall_forall _ _) Hall y Hy) as Hle.
  cbv beta in Hle |- *.
  destruct (decide (key x = key y)) as [E|Hne]; [|lia].
  exfalso. apply Hx. rewrite E. apply list_elem_of_fmap. eauto.
Qed.

(** X25. The time series partitions the window into buckets: for a
    bucket width of whole minutes the points come in strictly
    increasing time, each at a multiple of the width; a point counts
    the metrics of the window that fall in its bucket, at least one,
    with the errors (status 400 and up) among them; every metric of the
    window is in the bucket of some point; and the requests of all
    points add up to the total of [getAggregated] for the same
    window. *)
Theorem getTimeSeries_spec (metrics : list RequestMetric)
  (now windowMinutes bucketMinutes : Z) :
  0 < bucketMinutes ->
  let series := getTimeSeries metrics now windowMinutes bucketMinutes in
  let rel := relevant metrics now windowMinutes in
  let bucketMs := bucketMinutes * 60 * 1000 in
  let inside (pt : point) (m : RequestMetric) :=
    pt_timestamp pt <= timestamp m < pt_timestamp pt + bucketMs in
  StronglySorted (fun a b => pt_timestamp a < pt_timestamp b) series /\
  (forall pt, pt ∈ series ->
     pt_timestamp pt mod bucketMs = 0 /\
     pt_requests pt = Z.of_nat (length (filter (inside pt) rel)) /\
     pt_errors pt
       = Z.of_nat (length (filter (fun m => 400 <= statusCode m)
                             (filter (inside pt) rel))) /\
     1 <= pt_requests pt /\
     0 <= pt_errors pt <= pt_requests pt) /\
  (forall m, m ∈ rel -> exists pt, pt ∈ series /\ inside pt m) /\
  fold_left Z.add (pt_requests <$> series) 0
    = total (agg_requests (getAggregated metrics now windowMinutes)).
Proof.
  intros Hpos. cbv zeta. unfold getTimeSeries. cbv zeta.
  rewrite buckets_group.
  set (bucketMs := bucketMinutes * 60 * 1000).
  assert (Hms : 0 < bucketMs) by (unfold bucketMs; lia).
  set (rel := relevant metrics now windowMinutes).
  set (groups := group_by (bucketTime bucketMs) [] (fun m ms => ms ++ [m]) rel).
  set (before := fun a b : point => pt_timestamp a <? pt_timestamp b).
  pose proof (stable_sort_perm before (to_point <$> groups)) as Hperm.
  assert (Hsorted : StronglySorted (fun a b => pt_timestamp a <= pt_timestamp b)
                      (stable_sort before (to_point <$> groups))).
  { apply stable_sort_sorted; unfold before; intros.
    - lia.
    - apply Z.ltb_lt in H. lia.
    - apply Z.ltb_ge in H. lia. }
  assert (Hkeys : pt_timestamp <$> (to_point <$> groups) = fst <$> groups).
  { rewrite <- list_fmap_compose. reflexivity. }
  assert (Hgroup : forall pt, pt ∈ stable_sort before (to_point <$> groups) ->
            exists g, (pt_timestamp pt, g) ∈ groups /\ pt = to_point (pt_timestamp pt, g)).
  { intros pt Hpt. rewrite Hperm in Hpt.
    apply list_elem_of_fmap in Hpt as ([b g] & -> & Hin).
    exists g. split; [exact Hin|reflexivity]. }
  split; [|split; [|split]].
  - apply sorted_distinct; [exact Hsorted|].
    rewrite Hperm, Hkeys. apply NoDup_group_by.
  - intros pt Hpt. destruct (Hgroup pt Hpt) as (g & Hin & Ept).
    destruct (bucket_of rel bucketMs _ g Hin) as [Eg Hne].
    assert (Hfil : g = filter (fun m => pt_timestamp pt <= timestamp m
                                        < pt_timestamp pt + bucketMs) rel
                   /\ pt_timestamp pt mod bucketMs = 0).
    { destruct g as [|m0 g0] eqn:Egg; [contradiction|].
      assert (Hm0 : bucketTime bucketMs m0 = pt_timestamp pt).
      { assert (Hin0 : m0 ∈ filter (fun m => bucketTime bucketMs m
                                             = pt_timestamp pt) rel)
          by (rewrite <- Eg; left).
        apply list_elem_of_filter in Hin0 as [H0 _]. exact H0. }
      pose proof (proj1 (bucketTime_spec bucketMs m0 _ Hms) Hm0) as [Hmod _].
      split; [|exact Hmod]. rewrite Eg. apply filter_ext_length.
      intros m. rewrite (bucketTime_spec bucketMs m _ Hms). tauto. }
    destruct Hfil as [Hfil Hmod].
    split; [exact Hmod|].
    rewrite Ept. cbn [pt_requests pt_errors pt_timestamp to_point fst snd].
    rewrite <- Hfil.
    assert (Hlen : (0 < length g)%nat)
      by (destruct g; [contradiction|simpl; lia]).
    assert (Herr : countZ (fun m => 400 <=? statusCode m) g
                   = Z.of_nat (length (filter (fun m => 400 <= statusCode m) g))).
    { unfold countZ. f_equal. clear. induction g as [|m g IH]; [reflexivity|].
      simpl List.filter. rewrite filter_cons.
      destruct (decide (400 <= statusCode m)) as [Hy|Hn].
      - rewrite (proj2 (Z.leb_le _ _) Hy). simpl. rewrite IH. reflexivity.
      - rewrite (proj2 (Z.leb_gt _ _)) by lia. exact IH. }
    split; [reflexivity|]. split; [exact Herr|]. split; [lia|].
    rewrite Herr.
    pose proof (length_filter (fun m => 400 <= statusCode m) g). lia.
  - intros m Hm.
    assert (Hk : bucketTime bucketMs m ∈ fst <$> groups).
    { apply keys_group_by. apply list_elem_of_fmap. eauto. }
    apply list_elem_of_fmap in Hk as ([b g] & Eb & Hin). simpl in Eb.
    exists (to_point (b, g)). split.
    + rewrite Hperm. apply list_elem_of_fmap. eauto.
    + cbn [to_point pt_timestamp fst].
      apply (bucketTime_spec bucketMs m b Hms). congruence.
  - rewrite fold_add_foldr, Z.add_0_l.
    rewrite (foldr_add_perm _ _ (fmap_Permutation pt_requests _ _ Hperm)).
    rewrite <- list_fmap_compose.
    change (pt_requests ∘ to_point)
      with (fun b : Z * list RequestMetric => Z.of_nat (length (snd b))).
    unfold groups. rewrite group_sizes.
    unfold getAggregated. cbv zeta. fold rel.
    case_bool_decide as He; [rewrite He|]; reflexivity.
Qed.

Lemma getTimeSeries_spec_witness :
  0 < 1 /\
  pt_requests <$> getTimeSeries sample_metrics 2000 5 1 = [10] /\
  fold_left Z.add (pt_requests <$> getTimeSeries sample_metrics 2000 5 1) 0
    = total (agg_requests (getAggregated sample_metrics 2000 5)).
Proof.
  assert (H : 0 < 1) by lia.
  split; [exact H|]. split; [vm_compute; reflexivity|].
  destruct (getTimeSeries_spec sample_metrics 2000 5 1 H)
    as (_ & _ & _ & Hsum).
  exact Hsum.
Defined.

End TimeSeries.

(** ** Reports by path *)

Section Paths.

Import MetricsCollector.

Lemma path_fold (g : list RequestMetric) (d0 : path_data) :
  fold_left
    (fun d m =>
       {| pd_count := pd_count d + 1;
          pd_totalLatency := pd_totalLatency d + latencyMs m;
          pd_errors := if Z.leb 400 (statusCode m) then pd_errors d + 1
                       else pd_errors d |}) g d0
  = {| pd_count := pd_count d0 + Z.of_nat (length g);
       pd_totalLatency := pd_totalLatency d0 + foldr Z.add 0 (latencyMs <$> g);
       pd_errors := pd_errors d0
         + Z.of_nat (length (filter (fun m => 400 <= statusCode m) g)) |}.
Proof.
  revert d0. induction g as [|m g IH]; intros d0.
  - simpl. destruct d0. simpl. f_equal; lia.
  - cbn [fold_left]. rewrite IH. cbn [pd_count pd_totalLatency pd_errors].
    rewrite filter_cons, fmap_cons. cbn [foldr length].
    destruct (decide (400 <= statusCode m)) as [Hy|Hn].
    + rewrite (proj2 (Z.leb_le _ _) Hy). cbn [length]. f_equal; lia.
    + rewrite (proj2 (Z.leb_gt _ _)) by lia. f_equal; lia.
Qed.

Lemma byPath_loop_entry rel p d :
  (p, d) ∈ byPath_loop rel ->
  1 <= hits p rel /\
  d = {| pd_count := hits p rel;
         pd_totalLatency := latency_sum p rel;
         pd_errors := failures p rel |}.
Proof.
  intros Hin. apply elem_of_assoc in Hin; [|apply NoDup_group_by].
  unfold byPath_loop in Hin. rewrite assoc_group_by in Hin.
  unfold hits, latency_sum, failures, of_path.
  destruct (filter (fun x => m_path x = p) rel) as [|y g] eqn:E;
    [discriminate|].
  injection Hin as <-. rewrite path_fold. simpl length. split; [lia|].
  cbn [pd_count pd_totalLatency pd_errors]. f_equal; [lia|].
  rewrite filter_cons.
  destruct (decide (400 <= statusCode y)) as [Hy|Hn].
  - rewrite (proj2 (Z.leb_le _ _) Hy). simpl length. lia.
  - rewrite (proj2 (Z.leb_gt _ _)) by lia. lia.
Qed.

Lemma byPath_loop_keys rel p :
  p ∈ fst <$> byPath_loop rel <-> 1 <= hits p rel.
Proof.
  unfold byPath_loop. rewrite keys_group_by. unfold hits, of_path. split.
  - intros Hin. apply list_elem_of_fmap in Hin as (m & -> & Hm).
    assert (Hf : m ∈ filter (fun x => m_path x = m_path m) rel)
      by (apply list_elem_of_filter; auto).
    destruct (filter _ rel); [apply elem_of_nil in Hf; contradiction|].
    simpl. lia.
  - intros Hpos.
    destruct (filter (fun m => m_path m = p) rel) as [|m g] eqn:E;
      [simpl in Hpos; lia|].
    assert (Hf : m ∈ filter (fun m => m_path m = p) rel)
      by (rewrite E; left).
    apply list_elem_of_filter in Hf as [<- Hm].
    apply list_elem_of_fmap. eauto.
Qed.

Lemma failures_le_hits p rel : 0 <= failures p rel <= hits p rel.
Proof.
  unfold failures, hits.
  pose proof (length_filter (fun m => 400 <= statusCode m) (of_path p rel)).
  lia.
Qed.

Lemma sorted_take {B} (R : B -> B -> Prop) (n : nat) (l : list B) :
  StronglySorted R l -> StronglySorted R (take n l).
Proof.
  intros Hs. rewrite <- (take_drop n l) in Hs.
  eapply StronglySorted_app_1_l, Hs.
Qed.

Lemma byPath_keys metrics now w :
  fst <$> byPath metrics now w = fst <$> byPath_loop (relevant metrics now w).
Proof. unfold byPath. rewrite <- list_fmap_compose. reflexivity. Qed.

Lemma byPath_entry metrics now w (e : string * path_stats) :
  e ∈ byPath metrics now w ->
  let rel := relevant metrics now w in
  1 <= hits (fst e) rel /\
  e = (fst e,
       {| ps_count := hits (fst e) rel;
          ps_avgLatency :=
            (Zq (latency_sum (fst e) rel) / Zq (hits (fst e) rel))%Q;
          ps_errors := failures (fst e) rel |}).
Proof.
  intros He. cbv zeta. unfold byPath in He.
  apply list_elem_of_fmap in He as ([p d] & -> & Hin).
  destruct (byPath_loop_entry _ p d Hin) as [Hpos ->].
  split; [exact Hpos|reflexivity].
Qed.

Lemma Zq_pos (z : Z) : 1 <= z -> (0 < Zq z)%Q.
Proof.
  intros H. unfold Zq. change 0%Q with (inject_Z 0). rewrite <- Zlt_Qlt. lia.
Qed.

Lemma rate_bounds (a b : Z) :
  0 <= a <= b -> 1 <= b -> (0 <= Zq a / Zq b <= 1)%Q.
Proof.
  intros [Ha Hab] Hb. pose proof (Zq_pos b Hb) as Hpos. split.
  - apply Qle_shift_div_l; [exact Hpos|]. rewrite Qmult_0_l.
    change 0%Q with (Zq 0). apply Zq_le, Ha.
  - apply Qle_shift_div_r; [exact Hpos|]. rewrite Qmult_1_l.
    apply Zq_le, Hab.
Qed.

(** X26. The top paths are the most requested ones, when the paths of
    the window are URL pathnames: for a limit of at least 0 the report
    holds at most [limit] entries of distinct paths, by descending
    count; an entry's count is the number of metrics of its path in the
    window, at least one, its average latency their mean and its error
    rate the share of status 400 and up, between 0 and 1; and a path of
    the window that is left out has no more requests than any entry,
    the report then being full. *)
Theorem getTopPaths_spec (metrics : list RequestMetric)
  (now limit windowMinutes : Z) :
  0 <= limit ->
  Forall (fun m => is_pathname (m_path m) = true)
    (relevant metrics now windowMinutes) ->
  let top := getTopPaths metrics now limit windowMinutes in
  let rel := relevant metrics now windowMinutes in
  Z.of_nat (length top) <= limit /\
  StronglySorted (fun a b => tp_count b <= tp_count a) top /\
  NoDup (tp_path <$> top) /\
  (forall e, e ∈ top ->
     tp_count e = hits (tp_path e) rel /\
     1 <= tp_count e /\
     tp_avgLatency e
       = (Zq (latency_sum (tp_path e) rel) / Zq (hits (tp_path e) rel))%Q /\
     tp_errorRate e
       = (Zq (failures (tp_path e) rel) / Zq (hits (tp_path e) rel))%Q /\
     (0 <= tp_errorRate e <= 1)%Q) /\
  (forall m, m ∈ rel ->
     m_path m ∈ tp_path <$> top \/
     (Z.of_nat (length top) = limit /\
      forall e, e ∈ top -> hits (m_path m) rel <= tp_count e)).
Proof.
  intros Hlim _. cbv zeta. unfold getTopPaths, slice_to.
  rewrite (proj2 (Z.leb_le _ _) Hlim).
  set (rel := relevant metrics now windowMinutes).
  set (before := fun a b : top_path => tp_count b <? tp_count a).
  set (all := top_of <$> byPath metrics now windowMinutes).
  set (L := stable_sort before all).
  pose proof (stable_sort_perm before all) as Hperm. fold L in Hperm.
  assert (Hsorted : StronglySorted (fun a b => tp_count b <= tp_count a) L).
  { apply stable_sort_sorted; unfold before; intros.
    - lia.
    - apply Z.ltb_lt in H. lia.
    - apply Z.ltb_ge in H. lia. }
  assert (Hkeys : tp_path <$> all = fst <$> byPath_loop rel).
  { unfold all. rewrite <- list_fmap_compose.
    exact (byPath_keys metrics now windowMinutes). }
  assert (Hnd : NoDup (tp_path <$> L)).
  { rewrite Hperm, Hkeys. apply NoDup_group_by. }
  assert (Hentry : forall e, e ∈ L ->
            1 <= hits (tp_path e) rel /\
            e = {| tp_path := tp_path e;
                   tp_count := hits (tp_path e) rel;
                   tp_avgLatency :=
                     (Zq (latency_sum (tp_path e) rel)
                      / Zq (hits (tp_path e) rel))%Q;
                   tp_errorRate :=
                     (Zq (failures (tp_path e) rel)
                      / Zq (hits (tp_path e) rel))%Q |}).
  { intros e He. rewrite Hperm in He. unfold all in He.
    apply list_elem_of_fmap in He as (s & -> & Hs).
    destruct (byPath_entry _ _ _ s Hs) as [Hpos Es]. cbv zeta in Hpos, Es.
    fold rel in Hpos, Es. split; [exact Hpos|].
    rewrite Es at 1. reflexivity. }
  set (n := Z.to_nat limit).
  split; [rewrite length_take; lia|].
  split; [apply sorted_take, Hsorted|].
  split.
  { rewrite fmap_take. eapply sublist_NoDup; [exact Hnd|apply sublist_take]. }
  split.
  - intros e He. apply subseteq_take in He.
    destruct (Hentry e He) as [Hpos Ee].
    pose proof (failures_le_hits (tp_path e) rel) as Hf.
    rewrite Ee. cbn [tp_count tp_path tp_avgLatency tp_errorRate].
    split; [reflexivity|]. split; [exact Hpos|].
    split; [reflexivity|]. split; [reflexivity|].
    apply rate_bounds; assumption.
  - intros m Hm.
    assert (Hp : m_path m ∈ tp_path <$> L).
    { rewrite Hperm, Hkeys. apply byPath_loop_keys.
      unfold hits, of_path.
      assert (Hf : m ∈ filter (fun x => m_path x = m_path m) rel)
        by (apply list_elem_of_filter; auto).
      destruct (filter _ rel); [apply elem_of_nil in Hf; contradiction|].
      simpl. lia. }
    apply list_elem_of_fmap in Hp as (ep & Ep & Hep).
    rewrite <- (take_drop n L) in Hep.
    apply elem_of_app in Hep as [Hin|Hout].
    + left. apply list_elem_of_fmap. eauto.
    + right.
      assert (Hlen : (n < length L)%nat).
      { destruct (decide (n < length L)%nat) as [?|Hge]; [assumption|].
        rewrite drop_ge in Hout by lia.
        apply elem_of_nil in Hout. contradiction. }
      split; [rewrite length_take; lia|].
      intros e He.
      pose proof Hsorted as Hs. rewrite <- (take_drop n L) in Hs.
      pose proof (StronglySorted_app_1_elem_of _ _ _ _ _ Hs He Hout) as Hle.
      cbv beta in Hle.
      assert (HepL : ep ∈ L)
        by (rewrite <- (take_drop n L); apply elem_of_app; auto).
      destruct (Hentry ep HepL) as [_ Eep].
      rewrite Eep in Hle. cbn [tp_count] in Hle.
      rewrite <- Ep in Hle. exact Hle.
Qed.

Lemma getTopPaths_spec_witness :
  0 <= 1 /\
  Forall (fun m => is_pathname (m_path m) = true)
    (relevant sample_metrics 2000 5) /\
  tp_path <$> getTopPaths sample_metrics 2000 1 5 = ["/api/echo"%string] /\
  Z.of_nat (length (getTopPaths sample_metrics 2000 1 5)) <= 1 /\
  NoDup (tp_path <$> getTopPaths sample_metrics 2000 1 5).
Proof.
  assert (H : 0 <= 1) by lia.
  assert (Hp : Forall (fun m => is_pathname (m_path m) = true)
                 (relevant sample_metrics 2000 5))
    by (vm_compute; repeat constructor).
  split; [exact H|]. split; [exact Hp|]. split; [vm_compute; reflexivity|].
  destruct (getTopPaths_spec sample_metrics 2000 1 5 H Hp)
    as (Hlen & _ & Hnd & _).
  split; [exact Hlen|exact Hnd].
Defined.

Lemma filter_keys_NoDup {B C} (g : B -> C) (f : B -> bool) (l : list B) :
  NoDup (g <$> l) -> NoDup (g <$> List.filter f l).
Proof.
  induction l as [|x l IH]; [intros; apply NoDup_nil_2|].
  rewrite fmap_cons. intros Hnd. apply NoDup_cons in Hnd as [Hx Hnd].
  simpl. destruct (f x); [|apply IH, Hnd].
  rewrite fmap_cons. apply NoDup_cons. split; [|apply IH, Hnd].
  intros Hin. apply Hx.
  apply list_elem_of_fmap in Hin as (y & -> & Hy).
  apply list_elem_of_fmap. exists y. split; [reflexivity|].
  apply list_elem_of_In. apply list_elem_of_In in Hy.
  apply filter_In in Hy. tauto.
Qed.

(** X27. The slow endpoints are exactly the paths of the window whose
    mean latency exceeds the threshold, when the paths of the window
    are URL pathnames and the threshold is a whole number of
    milliseconds: the report lists distinct paths by descending mean
    latency, each with the number of its metrics and their mean, above
    the threshold; and the path of every metric of the window whose
    mean exceeds the threshold is listed. *)
Theorem getSlowEndpoints_spec (metrics : list RequestMetric)
  (now thresholdMs windowMinutes : Z) :
  Forall (fun m => is_pathname (m_path m) = true)
    (relevant metrics now windowMinutes) ->
  let slow :=
    getSlowEndpoints metrics now (Zq thresholdMs) windowMinutes in
  let rel := relevant metrics now windowMinutes in
  let average p := (Zq (latency_sum p rel) / Zq (hits p rel))%Q in
  StronglySorted (fun a b => (se_avgLatency b <= se_avgLatency a)%Q) slow /\
  NoDup (se_path <$> slow) /\
  (forall e, e ∈ slow ->
     se_count e = hits (se_path e) rel /\
     1 <= se_count e /\
     se_avgLatency e = average (se_path e) /\
     (Zq thresholdMs < se_avgLatency e)%Q) /\
  (forall m, m ∈ rel ->
     (Zq thresholdMs < average (m_path m))%Q ->
     m_path m ∈ se_path <$> slow).
Proof.
  intros _. cbv zeta. unfold getSlowEndpoints.
  set (rel := relevant metrics now windowMinutes).
  set (before := fun a b : slow_endpoint =>
                   Qltb (se_avgLatency b) (se_avgLatency a)).
  set (over := fun e : string * path_stats =>
                 Qgtb (ps_avgLatency (snd e)) (Zq thresholdMs)).
  set (kept := List.filter over (byPath metrics now windowMinutes)).
  pose proof (stable_sort_perm before (slow_of <$> kept)) as Hperm.
  assert (Hkept : forall s, s ∈ kept <->
            s ∈ byPath metrics now windowMinutes /\ over s = true).
  { intros s. unfold kept. rewrite !list_elem_of_In. apply filter_In. }
  split; [|split; [|split]].
  - apply stable_sort_sorted; unfold before; intros.
    + eapply Qle_trans; eassumption.
    + apply Qltb_lt in H. apply Qlt_le_weak, H.
    + apply Qltb_ge in H. exact H.
  - rewrite Hperm, <- list_fmap_compose.
    change (se_path ∘ slow_of) with (@fst string path_stats).
    apply filter_keys_NoDup. rewrite byPath_keys. apply NoDup_group_by.
  - intros e He. rewrite Hperm in He.
    apply list_elem_of_fmap in He as (s & -> & Hs).
    apply Hkept in Hs as [Hs Hover].
    destruct (byPath_entry _ _ _ s Hs) as [Hpos Es]. cbv zeta in Hpos, Es.
    fold rel in Hpos, Es. unfold over in Hover. apply Qgtb_gt in Hover.
    rewrite Es in Hover |- *.
    cbn [slow_of se_count se_path se_avgLatency fst snd ps_count
         ps_avgLatency] in *.
    split; [reflexivity|]. split; [exact Hpos|].
    split; [reflexivity|exact Hover].
  - intros m Hm Hslow.
    assert (Hp : m_path m ∈ fst <$> byPath metrics now windowMinutes).
    { rewrite byPath_keys. fold rel. apply byPath_loop_keys.
      unfold hits, of_path.
      assert (Hf : m ∈ filter (fun x => m_path x = m_path m) rel)
        by (apply list_elem_of_filter; auto).
      destruct (filter _ rel); [apply elem_of_nil in Hf; contradiction|].
      simpl. lia. }
    apply list_elem_of_fmap in Hp as (s & Ep & Hs).
    rewrite Hperm. apply list_elem_of_fmap. exists (slow_of s).
    split; [exact Ep|]. apply list_elem_of_fmap. exists s.
    split; [reflexivity|]. apply Hkept. split; [exact Hs|].
    destruct (byPath_entry _ _ _ s Hs) as [_ Es]. cbv zeta in Es.
    fold rel in Es. unfold over. apply Qgtb_gt. rewrite Es.
    cbn [snd ps_avgLatency]. rewrite <- Ep. exact Hslow.
Qed.

Lemma getSlowEndpoints_spec_witness :
  Forall (fun m => is_pathname (m_path m) = true)
    (relevant sample_metrics 2000 5) /\
  se_path <$> getSlowEndpoints sample_metrics 2000 (Zq 50) 5
    = ["/api/echo"%string] /\
  NoDup (se_path <$> getSlowEndpoints sample_metrics 2000 (Zq 50) 5) /\
  forall e, e ∈ getSlowEndpoints sample_metrics 2000 (Zq 50) 5 ->
    (Zq 50 < se_avgLatency e)%Q.
Proof.
  assert (Hp : Forall (fun m => is_pathname (m_path m) = true)
                 (relevant sample_metrics 2000 5))
    by (vm_compute; repeat constructor).
  split; [exact Hp|]. split; [vm_compute; reflexivity|].
  destruct (getSlowEndpoints_spec sample_metrics 2000 50 5 Hp)
    as (_ & Hnd & Hin & _).
  split; [exact Hnd|]. intros e He. apply (Hin e He).
Defined.

End Paths.
